(** * Lockfreedom: pool-backed lock-free containers, single-threaded model

    A shallow embedding of [lockfree_pool.h]/[lockfree_pool.inl],
    [tagged_ptr.h], [lockfree_stack.h]/[lockfree_stack.inl],
    [lockfree_queue.h]/[lockfree_queue.inl], of [exchange] of [utils.h] and
    of the fix-up of the output line in [debug.cpp].

    Conventions of the embedding.
    - A [w]-bit unsigned integer is a [Z] in [[0, 2^w)]; every conversion to
      such a type is written out as [_ mod 2^w].
    - A pointer is the [Z] byte address it holds; [nullptr] is [0].
    - The slab owned by the pool is a [list] of slots.  A slot is a union:
      its bytes hold either a free-list node or a constructed element, and a
      read through the other view goes through the object representation
      ([as_node], [as_object]).
    - An operation is executed by one thread from start to end; memory
      orders have no effect on such a run and are left out.  What remains of
      the atomics is the value semantics of [load], [store], [exchange] and
      [compare_exchange_weak], the latter with its spurious failures, which
      are taken from a schedule given to every retry loop.
    - The body of a retry loop takes the value its thread has loaded as an
      argument.  What other threads did between that load and the first
      exchange shows as an argument that is not the value of the cell; the
      properties of the loops under such a stale load are stated that way.
    - A loop of the source that has no bound of its own (the pops of a
      destructor) is given fuel, and returns [None] when it runs out of it.
    - A result of type [option _] is [None] when the C++ behaviour is
      undefined (an access outside the slab) or when a retry loop has used up
      its schedule. *)

From Stdlib Require Import ZArith Lia.
From stdpp Require Import base option list list_numbers gmap.

Open Scope Z_scope.

(** ** atomic_defs.h *)

Module Atomic.

(** One flag per attempt of a [compare_exchange_weak] retry loop: [true]
    makes that attempt fail spuriously.  Past the end of the list no
    attempt fails spuriously. *)
Definition tSchedule := list bool.

(** [compare_exchange_weak(expected, desired)] on a cell holding [cell]:
    the result is the returned flag, the new content of the cell and the
    new content of [expected].  The comparison is that of the object
    representations, which is equality of the modelled values. *)
Definition compare_exchange_weak {A} `{EqDecision A}
    (spurious : bool) (cell expected desired : A) : bool * A * A :=
  if negb spurious && bool_decide (cell = expected)
  then (true, desired, expected)
  else (false, cell, cell).

(** [exchange(desired)]: the previous content and the new content. *)
Definition exchange {A} (cell desired : A) : A * A := (cell, desired).

(** [fetch_add(1)] and [fetch_sub(1)] on an [atomic<unsigned>]. *)
Definition fetch_add1 (cell : Z) : Z := (cell + 1) mod 2 ^ 32.
Definition fetch_sub1 (cell : Z) : Z := (cell - 1) mod 2 ^ 32.

End Atomic.

Import Atomic.

(** ** utils.h *)

Module Utils.

(** [T exchange(T& current, U&& replacement)]: the value returned and the
    new content of [current]. *)
Definition exchange {A} (current replacement : A) : A * A := (current, replacement).

End Utils.

(** ** debug.cpp *)

Module Debug.

Definition large_enough : Z := 1024.

Definition room_for_new_line_and_terminating_nul : Z := 2.

(** [buffer[i] = c] on the array [char buffer[large_enough]], a list of
    character codes: a write outside the array is undefined. *)
Definition store_char (buffer : list Z) (i : Z) (c : Z) : option (list Z) :=
  if bool_decide (0 ≤ i < Z.of_nat (length buffer))
  then Some (<[Z.to_nat i := c]> buffer)
  else None.

(** What [WriteLine] does with [buffer] once [vsnprintf_s] has filled it and
    returned [vsnprintf_result], up to the output of the buffer: the index of
    the fix-up, and the buffer with the new line (code 10) and the
    terminating NUL. *)
Definition fix_up (buffer : list Z) (vsnprintf_result : Z) : option (Z * list Z) :=
  let num_written :=
    if bool_decide (0 ≤ vsnprintf_result) then vsnprintf_result else large_enough - 1 in
  let end_of_str_fix_up_start :=
    Z.min (Z.max 0 num_written) (large_enough - room_for_new_line_and_terminating_nul) in
  buffer1 ← store_char buffer end_of_str_fix_up_start 10;
  buffer2 ← store_char buffer1 (end_of_str_fix_up_start + 1) 0;
  Some (end_of_str_fix_up_start, buffer2).

End Debug.

(** ** lockfree_pool.h: data *)

(** [tIndexTag]: an index into the slab and the tag that guards against ABA.
  Both fields have type [tIndex]. *)
Record tIndexTag := Build_tIndexTag { mIdx : Z; mTag : Z }.

Global Instance tIndexTag_eq_dec : EqDecision tIndexTag.
Proof. solve_decision. Defined.

(** [tNode]: what a free slot holds. *)
Record tNode := Build_tNode { mNext : tIndexTag }.

(** What the pool needs to know of its element type [T]: [sizeof(T)], at
  least four bytes by the [static_assert] of the class, and the object
  representation shared by a [T] and a [tNode] placed at the same
  address. *)
Class ObjectRepr (T : Type) := {
  sizeof : Z;
  sizeof_min : 4 ≤ sizeof;
  as_node : T → tNode;
  as_object : tNode → T
}.

(** A slot of the slab, by the view through which it was last written as a
  whole. *)
Inductive tSlot (T : Type) :=
| AsNode (n : tNode)
| AsElement (e : T).
Arguments AsNode {T} n.
Arguments AsElement {T} e.

(** [tPoolAllocator]: [allocate(n)] returns the address of a block of [n]
  slots whose bytes are whatever the memory held before. *)
Record tPoolAllocator (T : Type) := {
  alloc_address : Z;
  alloc_content : nat → tSlot T
}.
Arguments alloc_address {T} _.
Arguments alloc_content {T} _ _.

Definition allocate {T} (a : tPoolAllocator T) (n : Z) : Z * list (tSlot T) :=
  (alloc_address a, alloc_content a <$> seq 0 (Z.to_nat n)).

(** [cLockFreePool<T>]: [mStorage] is the address of slot 0 and [mSlots] the
  content of the slab found there. *)
Record cLockFreePool (T : Type) := {
  mHead : tIndexTag;
  mCapacity : Z;
  mStorage : Z;
  mSlots : list (tSlot T)
}.
Arguments mHead {T} _.
Arguments mCapacity {T} _.
Arguments mStorage {T} _.
Arguments mSlots {T} _.

Module Pool.
Section Pool.
Context {T : Type} `{ObjectRepr T}.

Local Abbreviation pool := (cLockFreePool T).

(** [tIndex] is [uint32_t] when [sizeof(T) >= sizeof(uint64_t)] and
    [uint16_t] otherwise. *)
Definition tIndex_bits : Z := if bool_decide (8 ≤ sizeof) then 32 else 16.

Definition tIndex_max : Z := 2 ^ tIndex_bits - 1.

(** [static_cast<tIndex>(z)] *)
Definition to_tIndex (z : Z) : Z := z mod 2 ^ tIndex_bits.

(** [enum { NULL_IDX = std::numeric_limits<tIndex>::max() }] *)
Definition NULL_IDX : Z := tIndex_max.

(** [tIndexTag(tIndex idx, tTag tag)]: the arguments are converted to the
    parameter types. *)
Definition mk_tIndexTag (idx tag : Z) : tIndexTag :=
  {| mIdx := to_tIndex idx; mTag := to_tIndex tag |}.

Definition set_mHead (p : pool) (h : tIndexTag) : pool :=
  {| mHead := h; mCapacity := mCapacity p;
     mStorage := mStorage p; mSlots := mSlots p |}.

Definition set_mSlots (p : pool) (s : list (tSlot T)) : pool :=
  {| mHead := mHead p; mCapacity := mCapacity p;
     mStorage := mStorage p; mSlots := s |}.

(** The two views of a slot. *)
Definition node_view (s : tSlot T) : tNode :=
  match s with AsNode n => n | AsElement e => as_node e end.

Definition object_view (s : tSlot T) : T :=
  match s with AsNode n => as_object n | AsElement e => e end.

(** [mStorage + index] and [ptr - mStorage] on [T*].  The difference of two
    [T*] is the difference of the addresses divided by [sizeof(T)].  At a
    pointer that is not the address of an element the division is not
    exact and the quotient is rounded down, below the slab as well, which is
    what the arithmetic shift of the compiled subtraction gives. *)
Definition slot_ptr (p : pool) (index : Z) : Z := mStorage p + index * sizeof.

Definition ptr_diff (p : pool) (ptr : Z) : Z := (ptr - mStorage p) `div` sizeof.

(** The slot an element pointer designates, if it is the address of one. *)
Definition slot_of_ptr (p : pool) (ptr : Z) : option nat :=
  let d := ptr - mStorage p in
  if bool_decide (0 ≤ d ∧ d `mod` sizeof = 0 ∧ d `div` sizeof < Z.of_nat (length (mSlots p)))
  then Some (Z.to_nat (d `div` sizeof))
  else None.

(** [*ptr] read as a [T], and a whole-object write through [ptr]
    (placement new, assignment). *)
Definition load_object (p : pool) (ptr : Z) : option T :=
  i ← slot_of_ptr p ptr; object_view <$> (mSlots p !! i).

Definition store_object (p : pool) (ptr : Z) (e : T) : option pool :=
  i ← slot_of_ptr p ptr; Some (set_mSlots p (<[i := AsElement e]> (mSlots p))).

(** [bool IsNull(tIndex index) const] *)
Definition IsNull (p : pool) (index : Z) : bool := bool_decide (mCapacity p ≤ index).

(** [GetNode(index)]: the node read at [mStorage + index]. *)
Definition GetNode (p : pool) (index : Z) : option tNode :=
  node_view <$> (mSlots p !! Z.to_nat index).

(** [GetNode(index)->mNext.mIdx = idx]: the tag bytes keep their value. *)
Definition store_mNext_mIdx (p : pool) (index idx : Z) : option pool :=
  n ← GetNode p index;
  Some (set_mSlots p (<[Z.to_nat index :=
          AsNode {| mNext := {| mIdx := idx; mTag := mTag (mNext n) |} |}]> (mSlots p))).

(** [GetNode(index)->mNext.mIdx = idx; GetNode(index)->mNext.mTag = tag] *)
Definition store_mNext (p : pool) (index : Z) (idx tag : Z) : option pool :=
  _ ← GetNode p index;
  Some (set_mSlots p (<[Z.to_nat index :=
          AsNode {| mNext := {| mIdx := idx; mTag := tag |} |}]> (mSlots p))).

(** [tIndex AcquireIdx()] *)
Fixpoint AcquireIdx_loop (sched : tSchedule) (p : pool) (head_tmp : tIndexTag)
    : option (Z * pool) :=
  if IsNull p (mIdx head_tmp) then Some (NULL_IDX, p)
  else
    node ← GetNode p (mIdx head_tmp);
    let next := mNext node in
    let tmp := mk_tIndexTag (mIdx next) (mTag head_tmp + 1) in
    let '(ok, head', head_tmp') :=
      compare_exchange_weak (hd false sched) (mHead p) head_tmp tmp in
    let p' := set_mHead p head' in
    if ok then Some (mIdx head_tmp, p')
    else match sched with
         | [] => None
         | _ :: sched' => AcquireIdx_loop sched' p' head_tmp'
         end.

Definition AcquireIdx (sched : tSchedule) (p : pool) : option (Z * pool) :=
  let head_tmp := mHead p in
  AcquireIdx_loop sched p head_tmp.

(** [void ReleaseIdx(tIndex index)] *)
Fixpoint ReleaseIdx_loop (sched : tSchedule) (p : pool) (index : Z)
    (head_tmp : tIndexTag) : option pool :=
  p1 ← store_mNext_mIdx p index (mIdx head_tmp);
  let '(ok, head', head_tmp') :=
    compare_exchange_weak (hd false sched) (mHead p1) head_tmp
      (mk_tIndexTag index (mTag head_tmp)) in
  let p2 := set_mHead p1 head' in
  if ok then Some p2
  else match sched with
       | [] => None
       | _ :: sched' => ReleaseIdx_loop sched' p2 index head_tmp'
       end.

Definition ReleaseIdx (sched : tSchedule) (p : pool) (index : Z) : option pool :=
  if IsNull p index then Some p
  else
    let head_tmp := mHead p in
    ReleaseIdx_loop sched p index head_tmp.

(** [void ReleasePtr(const T* ptr)].  [LF_assert] only evaluates its
    condition unless [_DEBUG] is defined. *)
Definition ReleasePtr (sched : tSchedule) (p : pool) (ptr : Z) : option pool :=
  let ptr_to_storage_diff := ptr_diff p ptr in
  let idx := to_tIndex ptr_to_storage_diff in
  ReleaseIdx sched p idx.

(** [void Release(const T* ptr)] and [void Release(T& element)]: the
    destructor of the element leaves the bytes of the slot as they are. *)
Definition Release (sched : tSchedule) (p : pool) (ptr : Z) : option pool :=
  ReleasePtr sched p ptr.

(** [void ReleaseAllPtrs()].  The loop counter is an [int] compared with
    the [unsigned] capacity; every use of it is a conversion to [tIndex] or
    a pointer offset, so the loop is the iteration over
    [0 .. mCapacity-1].  The release of slot [i] takes its schedule from
    the head of [scheds]. *)
Fixpoint ReleaseAllPtrs_loop (scheds : list tSchedule) (n : nat) (i : Z) (p : pool)
    : option pool :=
  match n with
  | O => Some p
  | S n' =>
      p1 ← store_mNext p (to_tIndex i) NULL_IDX 0;
      p2 ← ReleasePtr (hd [] scheds) p1 (slot_ptr p1 i);
      ReleaseAllPtrs_loop (tl scheds) n' (i + 1) p2
  end.

Definition ReleaseAllPtrs (scheds : list tSchedule) (p : pool) : option pool :=
  let p0 := set_mHead p (mk_tIndexTag NULL_IDX 0) in
  ReleaseAllPtrs_loop scheds (Z.to_nat (mCapacity p0)) 0 p0.

(** [max_capacity] of [AllocateStorage]. *)
Definition max_capacity : Z := tIndex_max - 1.

(** [void AllocateStorage(unsigned requested_capacity)] *)
Definition AllocateStorage (scheds : list tSchedule) (mAlloc : tPoolAllocator T)
    (p : pool) (requested_capacity : Z) : option pool :=
  if bool_decide (mStorage p ≠ 0) then Some p
  else
    let capacity := Z.min requested_capacity max_capacity in
    let '(storage, slots) := allocate mAlloc capacity in
    ReleaseAllPtrs scheds
      {| mHead := mHead p; mCapacity := capacity; mStorage := storage; mSlots := slots |}.

(** [cLockFreePool(unsigned n, tPoolAllocator&& allocator)] *)
Definition ctor (scheds : list tSchedule) (allocator : tPoolAllocator T) (n : Z)
    : option pool :=
  AllocateStorage scheds allocator
    {| mHead := mk_tIndexTag NULL_IDX 0; mCapacity := 0; mStorage := 0; mSlots := [] |}
    n.

(** [bool Empty() const] *)
Definition Empty (p : pool) : bool := IsNull p (mIdx (mHead p)).

(** [unsigned GetCapacity() const] *)
Definition GetCapacity (p : pool) : Z := mCapacity p.

(** [T* AcquirePtr()] *)
Definition AcquirePtr (sched : tSchedule) (p : pool) : option (Z * pool) :=
  '(idx, p') ← AcquireIdx sched p;
  let ptr := if bool_decide (idx ≠ NULL_IDX) then slot_ptr p' idx else 0 in
  Some (ptr, p').

(** [T* Acquire(Args&&... args)]; [e] is the element [T(args...)]. *)
Definition Acquire (sched : tSchedule) (p : pool) (e : T) : option (Z * pool) :=
  '(ptr, p') ← AcquirePtr sched p;
  if bool_decide (ptr ≠ 0)
  then p'' ← store_object p' ptr e; Some (ptr, p'')
  else Some (ptr, p').

(** [bool Full() const] *)
Fixpoint Full_loop (n : nat) (p : pool) (cur : tIndexTag) : option bool :=
  match n with
  | O => Some true
  | S n' =>
      if IsNull p (mIdx cur) then Some false
      else node ← GetNode p (mIdx cur); Full_loop n' p (mNext node)
  end.

Definition Full (p : pool) : option bool :=
  let cur := mHead p in
  Full_loop (Z.to_nat (mCapacity p)) p cur.

(** [bool Manages(const T* ptr) const] *)
Definition Manages (p : pool) (ptr : Z) : bool :=
  bool_decide (mStorage p ≤ ptr) && bool_decide (ptr < slot_ptr p (mCapacity p)).

(** [cLockFreePool& operator=(cLockFreePool&& rhs)]: the pool assigned to
    and what is left of [rhs].  The slab [rhs] pointed to is found through
    [this] from now on, and [rhs], whose [mStorage] is null, has no slab; the
    members [this] had before are overwritten, nothing is deallocated. *)
Definition move_assign (this rhs : pool) : pool * pool :=
  let '(head, rhs_head) := exchange (mHead rhs) (mk_tIndexTag NULL_IDX 0) in
  let '(capacity, rhs_capacity) := Utils.exchange (mCapacity rhs) 0 in
  let '(storage, rhs_storage) := Utils.exchange (mStorage rhs) 0 in
  ({| mHead := head; mCapacity := capacity; mStorage := storage; mSlots := mSlots rhs |},
   {| mHead := rhs_head; mCapacity := rhs_capacity; mStorage := rhs_storage;
      mSlots := [] |}).

(** [cLockFreePool(cLockFreePool&& rhs)]: [*this = move(rhs)] on members
    that hold whatever the memory held. *)
Definition ctor_move (uninitialised rhs : pool) : pool * pool :=
  move_assign uninitialised rhs.

End Pool.
End Pool.

(** ** tagged_ptr.h *)

Module TaggedPtr.

(** [tTaggedPtr<T>]: the 64-bit word [mPackedPtr]; [mTag] is the union
    member that overlays its two most significant bytes. *)
Record tTaggedPtr := Build_tTaggedPtr { mPackedPtr : Z }.

Global Instance tTaggedPtr_eq_dec : EqDecision tTaggedPtr.
Proof. solve_decision. Defined.

Definition VIRTUAL_ADDRESS_MASK : Z := Z.shiftl 1 48 - 1.

(** [static_cast<tTag>(z)], [tTag] being [uint16_t] *)
Definition to_tTag (z : Z) : Z := z mod 2 ^ 16.

(** The assignment [mTag = tag] inside the union. *)
Definition store_mTag (packed tag : Z) : Z :=
  Z.lor (Z.land packed (Z.ones 48)) (Z.shiftl tag 48).

(** [void PackTaggedPtr(T* ptr, tTag tag)] *)
Definition PackTaggedPtr (ptr tag : Z) : tTaggedPtr :=
  let packed := ptr mod 2 ^ 64 in
  {| mPackedPtr := store_mTag packed (to_tTag tag) |}.

(** [tTaggedPtr(std::nullptr_t = nullptr)] *)
Definition null : tTaggedPtr := {| mPackedPtr := 0 |}.

(** [tTaggedPtr(T* ptr, tTag tag = 0U)] and [void Set(T* ptr, tTag tag)] *)
Definition make (ptr tag : Z) : tTaggedPtr := PackTaggedPtr ptr tag.

Definition Set_ (ptr tag : Z) : tTaggedPtr := PackTaggedPtr ptr tag.

(** [T* GetPtr() const] *)
Definition GetPtr (t : tTaggedPtr) : Z := Z.land (mPackedPtr t) VIRTUAL_ADDRESS_MASK.

(** [tTag GetTag() const] *)
Definition GetTag (t : tTaggedPtr) : Z := Z.shiftr (mPackedPtr t) 48.

(** [operator bool() const] *)
Definition to_bool (t : tTaggedPtr) : bool := bool_decide (GetPtr t ≠ 0).

End TaggedPtr.

Import TaggedPtr.

(** ** lockfree_stack.h, lockfree_stack.inl *)

Module Stack.

(** [detail::tLockFreeStackNode<T>] *)
Record tLockFreeStackNode (T : Type) := {
  mData : T;
  mPrev : tTaggedPtr
}.
Arguments mData {T} _.
Arguments mPrev {T} _.

(** [cLockFreeStack<T, LFSS_SHARED, Allocator>] without [mNodePool]: the
    pool that reference designates is passed to every operation and
    returned by it.  [mCount] is there because [LF_DIAGNOSTICS_ENABLED]
    defaults to 1. *)
Record cLockFreeStack := {
  mTop : tTaggedPtr;
  mCount : Z
}.

Section Stack.
Context {T : Type} `{ObjectRepr (tLockFreeStackNode T)}.

Local Abbreviation tElement := (tLockFreeStackNode T).
Local Abbreviation tLockFreePool := (cLockFreePool tElement).

(** [tLockFreeStackNode(const T& data)]: [mPrev] is default-constructed. *)
Definition node_ctor (data : T) : tElement := {| mData := data; mPrev := null |}.

Definition set_mPrev (n : tElement) (t : tTaggedPtr) : tElement :=
  {| mData := mData n; mPrev := t |}.

(** [node->mPrev = t] through a node pointer *)
Definition store_mPrev (pool : tLockFreePool) (node : Z) (t : tTaggedPtr)
    : option tLockFreePool :=
  n ← Pool.load_object pool node;
  Pool.store_object pool node (set_mPrev n t).

(** [cLockFreeStack(tLockFreePool& pool)] *)
Definition ctor : cLockFreeStack := {| mTop := make 0 0; mCount := 0 |}.

(** [bool Empty() const] *)
Definition Empty (s : cLockFreeStack) : bool := bool_decide (GetPtr (mTop s) = 0).

(** [void LinkTopNodeAtomically(tElement* new_node)].  The expected value
    of the exchange is the field [new_node->mPrev] itself, which a failed
    attempt overwrites with the current top. *)
Fixpoint LinkTopNodeAtomically_loop (sched : tSchedule) (pool : tLockFreePool)
    (s : cLockFreeStack) (new_node : Z) : option (tLockFreePool * cLockFreeStack) :=
  n ← Pool.load_object pool new_node;
  let new_node_ptr := Set_ new_node (GetTag (mPrev n)) in
  let '(ok, top', expected') :=
    compare_exchange_weak (hd false sched) (mTop s) (mPrev n) new_node_ptr in
  let s' := {| mTop := top'; mCount := mCount s |} in
  if ok then Some (pool, s')
  else
    pool' ← store_mPrev pool new_node expected';
    match sched with
    | [] => None
    | _ :: sched' => LinkTopNodeAtomically_loop sched' pool' s' new_node
    end.

Definition LinkTopNodeAtomically (sched : tSchedule) (pool : tLockFreePool)
    (s : cLockFreeStack) (new_node : Z) : option (tLockFreePool * cLockFreeStack) :=
  pool1 ← store_mPrev pool new_node (mTop s);
  '(pool2, s2) ← LinkTopNodeAtomically_loop sched pool1 s new_node;
  Some (pool2, {| mTop := mTop s2; mCount := fetch_add1 (mCount s2) |}).

(** [void LinkTopNodeNonAtomically(tElement* new_node)] *)
Definition LinkTopNodeNonAtomically (pool : tLockFreePool)
    (s : cLockFreeStack) (new_node : Z) : option (tLockFreePool * cLockFreeStack) :=
  pool1 ← store_mPrev pool new_node (mTop s);
  n ← Pool.load_object pool1 new_node;
  Some (pool1, {| mTop := make new_node (GetTag (mPrev n));
                  mCount := fetch_add1 (mCount s) |}).

(** [bool Push(Args&&... args)]: [sa] is the schedule of the pool's
    acquire loop, [sl] that of the link loop. *)
Definition Push (sa sl : tSchedule) (pool : tLockFreePool) (s : cLockFreeStack)
    (data : T) : option (bool * tLockFreePool * cLockFreeStack) :=
  '(new_node, pool1) ← Pool.Acquire sa pool (node_ctor data);
  if bool_decide (new_node ≠ 0)
  then '(pool2, s2) ← LinkTopNodeAtomically sl pool1 s new_node;
       Some (true, pool2, s2)
  else Some (false, pool1, s).

(** [bool NonAtomicPush(Args&&... args)] *)
Definition NonAtomicPush (sa : tSchedule) (pool : tLockFreePool) (s : cLockFreeStack)
    (data : T) : option (bool * tLockFreePool * cLockFreeStack) :=
  '(new_node, pool1) ← Pool.Acquire sa pool (node_ctor data);
  if bool_decide (new_node ≠ 0)
  then '(pool2, s2) ← LinkTopNodeNonAtomically pool1 s new_node;
       Some (true, pool2, s2)
  else Some (false, pool1, s).

(** [bool Pop(T& result)]: [sp] is the schedule of the loop on [mTop],
    [sr] that of the pool's release loop.  The out-parameter is passed in
    and returned. *)
Fixpoint Pop_loop (sp sr : tSchedule) (pool : tLockFreePool) (s : cLockFreeStack)
    (old_top : tTaggedPtr) (result : T)
    : option (bool * T * tLockFreePool * cLockFreeStack) :=
  let empty := bool_decide (GetPtr old_top = 0) in
  if empty then Some (false, result, pool, s)
  else
    n ← Pool.load_object pool (GetPtr old_top);
    let new_top := make (GetPtr (mPrev n)) (GetTag old_top + 1) in
    let '(ok, top', old_top') :=
      compare_exchange_weak (hd false sp) (mTop s) old_top new_top in
    if ok then
      n' ← Pool.load_object pool (GetPtr old_top');
      let result' := mData n' in
      pool' ← Pool.Release sr pool (GetPtr old_top');
      Some (true, result', pool', {| mTop := top'; mCount := fetch_sub1 (mCount s) |})
    else
      match sp with
      | [] => None
      | _ :: sp' => Pop_loop sp' sr pool {| mTop := top'; mCount := mCount s |} old_top' result
      end.

Definition Pop (sp sr : tSchedule) (pool : tLockFreePool) (s : cLockFreeStack)
    (result : T) : option (bool * T * tLockFreePool * cLockFreeStack) :=
  let old_top := mTop s in
  Pop_loop sp sr pool s old_top result.

(** [bool NonAtomicPop(T& result)] *)
Definition NonAtomicPop (sr : tSchedule) (pool : tLockFreePool) (s : cLockFreeStack)
    (result : T) : option (bool * T * tLockFreePool * cLockFreeStack) :=
  let old_top := mTop s in
  let empty := bool_decide (GetPtr old_top = 0) in
  if negb empty then
    n ← Pool.load_object pool (GetPtr old_top);
    let new_top := make (GetPtr (mPrev n)) (GetTag old_top + 1) in
    let result' := mData n in
    pool' ← Pool.Release sr pool (GetPtr old_top);
    Some (true, result', pool', {| mTop := new_top; mCount := fetch_sub1 (mCount s) |})
  else Some (false, result, pool, s).

(** [~cLockFreeStack()]: [dummy] starts as [T()]; the [k]-th pop takes the
    [k]-th schedule of [srs].  The loop has no bound in the source; here it
    gives up after [fuel] pops. *)
Fixpoint dtor_loop (fuel : nat) (srs : list tSchedule) (pool : tLockFreePool)
    (s : cLockFreeStack) (dummy : T) : option (tLockFreePool * cLockFreeStack) :=
  match fuel with
  | O => None
  | S fuel' =>
      '(popped, dummy', pool', s') ← NonAtomicPop (hd [] srs) pool s dummy;
      if popped : bool then dtor_loop fuel' (tl srs) pool' s' dummy'
      else Some (pool', s')
  end.

Definition dtor (fuel : nat) (srs : list tSchedule) (pool : tLockFreePool)
    (s : cLockFreeStack) (T_default : T) : option (tLockFreePool * cLockFreeStack) :=
  let dummy := T_default in
  dtor_loop fuel srs pool s dummy.

(** [cLockFreeStack<T, storage>::cLockFreeStack()]: the stack with its own
    pool of [CAPACITY] nodes. *)
Definition ctor_local (scheds : list tSchedule) (allocator : tPoolAllocator tElement)
    (CAPACITY : Z) : option (tLockFreePool * cLockFreeStack) :=
  mLocalPool ← Pool.ctor scheds allocator CAPACITY;
  Some (mLocalPool, ctor).

End Stack.
End Stack.

(** ** lockfree_queue.h, lockfree_queue.inl: the MPMC queue *)

Module Queue.

(** [detail::tLockFreeQueueNode<T>]: [mData] is the aligned storage read as
    a [T], whether or not a [T] was constructed there. *)
Record tLockFreeQueueNode (T : Type) := {
  mData : T;
  mPrev : tTaggedPtr
}.
Arguments mData {T} _.
Arguments mPrev {T} _.

(** [cLockFreeQueue<T, LFQS_SHARED, Allocator>] without [mNodePool] *)
Record cLockFreeQueue := {
  mFront : tTaggedPtr;
  mBack : tTaggedPtr;
  mCount : Z
}.

Section Queue.
Context {T : Type} `{ObjectRepr (tLockFreeQueueNode T)}.

Local Abbreviation tElement := (tLockFreeQueueNode T).
Local Abbreviation tLockFreePool := (cLockFreePool tElement).

(** [node->SetData(args...)] and [node->mPrev.store(t)] through a node
    pointer *)
Definition SetData (pool : tLockFreePool) (node : Z) (data : T) : option tLockFreePool :=
  n ← Pool.load_object pool node;
  Pool.store_object pool node {| mData := data; mPrev := mPrev n |}.

Definition store_mPrev (pool : tLockFreePool) (node : Z) (t : tTaggedPtr)
    : option tLockFreePool :=
  n ← Pool.load_object pool node;
  Pool.store_object pool node {| mData := mData n; mPrev := t |}.

(** [node->mPrev.load()] *)
Definition load_mPrev (pool : tLockFreePool) (node : Z) : option tTaggedPtr :=
  mPrev <$> Pool.load_object pool node.

(** [tElement* AcquireNewNode()]: the default constructor of the node sets
    [mPrev] and leaves the bytes of [mData] as they are. *)
Definition AcquireNewNode (sa : tSchedule) (pool : tLockFreePool)
    : option (Z * tLockFreePool) :=
  '(new_mem, pool1) ← Pool.AcquirePtr sa pool;
  if bool_decide (new_mem ≠ 0)
  then pool2 ← store_mPrev pool1 new_mem null; Some (new_mem, pool2)
  else Some (0, pool1).

(** [cLockFreeQueue(tLockFreePool& pool)] *)
Definition ctor (sa : tSchedule) (pool : tLockFreePool)
    : option (tLockFreePool * cLockFreeQueue) :=
  '(dummy_node, pool1) ← AcquireNewNode sa pool;
  Some (pool1, {| mFront := make dummy_node 0; mBack := make dummy_node 0; mCount := 0 |}).

(** [bool Empty() const] *)
Definition Empty (pool : tLockFreePool) (q : cLockFreeQueue) : option bool :=
  prev ← load_mPrev pool (GetPtr (mFront q));
  Some (negb (to_bool prev)).

(** [bool LinkBackNodeAtomically(Args&&... args)]; the non-atomic form
    differs in its memory orders only. *)
Definition LinkBackNodeAtomically (sa : tSchedule) (pool : tLockFreePool)
    (q : cLockFreeQueue) (data : T) : option (bool * tLockFreePool * cLockFreeQueue) :=
  '(new_node, pool1) ← AcquireNewNode sa pool;
  if bool_decide (new_node = 0) then Some (false, pool1, q)
  else
    let new_back := make new_node 0 in
    let '(old_back, back') := exchange (mBack q) new_back in
    pool2 ← SetData pool1 (GetPtr old_back) data;
    pool3 ← store_mPrev pool2 (GetPtr old_back) new_back;
    Some (true, pool3,
          {| mFront := mFront q; mBack := back'; mCount := fetch_add1 (mCount q) |}).

Definition LinkBackNodeNonAtomically := LinkBackNodeAtomically.

(** [bool Push(Args&&... args)] and [bool NonAtomicPush(Args&&... args)] *)
Definition Push := LinkBackNodeAtomically.

Definition NonAtomicPush := LinkBackNodeNonAtomically.

(** [bool Pop(T& result)] *)
Fixpoint Pop_loop (sp sr : tSchedule) (pool : tLockFreePool) (q : cLockFreeQueue)
    (old_front old_front_prev : tTaggedPtr) (result : T)
    : option (bool * T * tLockFreePool * cLockFreeQueue) :=
  if to_bool old_front_prev then
    let new_front := make (GetPtr old_front_prev) (GetTag old_front + 1) in
    let '(ok, front', old_front') :=
      compare_exchange_weak (hd false sp) (mFront q) old_front new_front in
    let q' := {| mFront := front'; mBack := mBack q; mCount := mCount q |} in
    if ok then
      n ← Pool.load_object pool (GetPtr old_front');
      let result' := mData n in
      pool' ← Pool.Release sr pool (GetPtr old_front');
      Some (true, result', pool',
            {| mFront := front'; mBack := mBack q; mCount := fetch_sub1 (mCount q) |})
    else
      old_front_prev' ← load_mPrev pool (GetPtr old_front');
      match sp with
      | [] => None
      | _ :: sp' => Pop_loop sp' sr pool q' old_front' old_front_prev' result
      end
  else Some (false, result, pool, q).

Definition Pop (sp sr : tSchedule) (pool : tLockFreePool) (q : cLockFreeQueue)
    (result : T) : option (bool * T * tLockFreePool * cLockFreeQueue) :=
  let old_front := mFront q in
  old_front_prev ← load_mPrev pool (GetPtr old_front);
  Pop_loop sp sr pool q old_front old_front_prev result.

(** [bool NonAtomicPop(T& result)] *)
Definition NonAtomicPop (sr : tSchedule) (pool : tLockFreePool) (q : cLockFreeQueue)
    (result : T) : option (bool * T * tLockFreePool * cLockFreeQueue) :=
  let old_front := mFront q in
  old_front_prev ← load_mPrev pool (GetPtr old_front);
  if to_bool old_front_prev then
    let front' := make (GetPtr old_front_prev) (GetTag old_front + 1) in
    n ← Pool.load_object pool (GetPtr old_front);
    let result' := mData n in
    pool' ← Pool.Release sr pool (GetPtr old_front);
    Some (true, result', pool',
          {| mFront := front'; mBack := mBack q; mCount := fetch_sub1 (mCount q) |})
  else Some (false, result, pool, q).

(** [~cLockFreeQueue()]: the pops as in the destructor of the stack, then
    the release of the sentinel; [sr] is the schedule of that release. *)
Fixpoint dtor_loop (fuel : nat) (srs : list tSchedule) (pool : tLockFreePool)
    (q : cLockFreeQueue) (dummy : T) : option (tLockFreePool * cLockFreeQueue) :=
  match fuel with
  | O => None
  | S fuel' =>
      '(popped, dummy', pool', q') ← NonAtomicPop (hd [] srs) pool q dummy;
      if popped : bool then dtor_loop fuel' (tl srs) pool' q' dummy'
      else Some (pool', q')
  end.

Definition dtor (fuel : nat) (srs : list tSchedule) (sr : tSchedule)
    (pool : tLockFreePool) (q : cLockFreeQueue) (T_default : T)
    : option (tLockFreePool * cLockFreeQueue) :=
  let dummy := T_default in
  '(pool1, q1) ← dtor_loop fuel srs pool q dummy;
  pool2 ← Pool.ReleasePtr sr pool1 (GetPtr (mFront q1));
  Some (pool2, q1).

(** [cLockFreeQueue<T, storage>::cLockFreeQueue()]: the local pool has
    [storage + 1] nodes, one of them for the sentinel. *)
Definition ctor_local (scheds : list tSchedule) (sa : tSchedule)
    (allocator : tPoolAllocator tElement) (storage : Z)
    : option (tLockFreePool * cLockFreeQueue) :=
  mLocalPool ← Pool.ctor scheds allocator (storage + 1);
  ctor sa mLocalPool.

End Queue.
End Queue.

(** ** lockfree_queue.h, lockfree_queue.inl: the MPSC queue *)

Module MPSCQueue.

(** [detail::tMPSCLockFreeQueueNode<T>]: [mPrev] is a plain node pointer. *)
Record tMPSCLockFreeQueueNode (T : Type) := {
  mData : T;
  mPrev : Z
}.
Arguments mData {T} _.
Arguments mPrev {T} _.

(** [cMPSCLockFreeQueue<T, LFQS_SHARED, Allocator>] without [mNodePool] *)
Record cMPSCLockFreeQueue := {
  mBack : Z;
  mFront : Z;
  mCount : Z
}.

Section MPSCQueue.
Context {T : Type} `{ObjectRepr (tMPSCLockFreeQueueNode T)}.

Local Abbreviation tElement := (tMPSCLockFreeQueueNode T).
Local Abbreviation tLockFreePool := (cLockFreePool tElement).

(** [tMPSCLockFreeQueueNode(Args&&... args)] *)
Definition node_ctor (data : T) : tElement := {| mData := data; mPrev := 0 |}.

Definition store_mPrev (pool : tLockFreePool) (node : Z) (ptr : Z)
    : option tLockFreePool :=
  n ← Pool.load_object pool node;
  Pool.store_object pool node {| mData := mData n; mPrev := ptr |}.

Definition load_mPrev (pool : tLockFreePool) (node : Z) : option Z :=
  mPrev <$> Pool.load_object pool node.

(** [tElement* AcquireNewNode(Args&&... args)] *)
Definition AcquireNewNode (sa : tSchedule) (pool : tLockFreePool) (data : T)
    : option (Z * tLockFreePool) :=
  Pool.Acquire sa pool (node_ctor data).

(** [cMPSCLockFreeQueue(tLockFreePool& pool)]; [T_default] is the
    value-initialised [T()] the sentinel is constructed with. *)
Definition ctor (sa : tSchedule) (pool : tLockFreePool) (T_default : T)
    : option (tLockFreePool * cMPSCLockFreeQueue) :=
  '(sentinel_node, pool1) ← AcquireNewNode sa pool T_default;
  Some (pool1, {| mBack := sentinel_node; mFront := sentinel_node; mCount := 0 |}).

(** [bool Empty() const] *)
Definition Empty (pool : tLockFreePool) (q : cMPSCLockFreeQueue) : option bool :=
  prev ← load_mPrev pool (mFront q);
  Some (bool_decide (prev = 0)).

(** [bool LinkBackNodeAtomically(Args&&... args)] *)
Definition LinkBackNodeAtomically (sa : tSchedule) (pool : tLockFreePool)
    (q : cMPSCLockFreeQueue) (data : T)
    : option (bool * tLockFreePool * cMPSCLockFreeQueue) :=
  '(new_node, pool1) ← AcquireNewNode sa pool data;
  if bool_decide (new_node ≠ 0) then
    let '(old_back, back') := exchange (mBack q) new_node in
    pool2 ← store_mPrev pool1 old_back new_node;
    Some (true, pool2,
          {| mBack := back'; mFront := mFront q; mCount := fetch_add1 (mCount q) |})
  else Some (false, pool1, q).

Definition Push := LinkBackNodeAtomically.

Definition NonAtomicPush := LinkBackNodeAtomically.

(** [bool Pop(T& result)] *)
Definition Pop (sr : tSchedule) (pool : tLockFreePool) (q : cMPSCLockFreeQueue)
    (result : T) : option (bool * T * tLockFreePool * cMPSCLockFreeQueue) :=
  let old_front := mFront q in
  node_to_pop ← load_mPrev pool old_front;
  if bool_decide (node_to_pop ≠ 0) then
    n ← Pool.load_object pool node_to_pop;
    let result' := mData n in
    pool' ← Pool.Release sr pool old_front;
    Some (true, result', pool',
          {| mBack := mBack q; mFront := node_to_pop; mCount := fetch_sub1 (mCount q) |})
  else Some (false, result, pool, q).

Definition NonAtomicPop := Pop.

(** [cMPSCLockFreeQueue<T, storage>::cMPSCLockFreeQueue()]: the local pool
    has [storage + 1] nodes, one of them for the sentinel. *)
Definition ctor_local (scheds : list tSchedule) (sa : tSchedule)
    (allocator : tPoolAllocator tElement) (storage : Z) (T_default : T)
    : option (tLockFreePool * cMPSCLockFreeQueue) :=
  mLocalPool ← Pool.ctor scheds allocator (storage + 1);
  ctor sa mLocalPool T_default.

End MPSCQueue.
End MPSCQueue.

(** ** Object representations of the element types of the tests *)

(** The [int] held by four bytes that hold the unsigned value [u]. *)
Definition to_int (u : Z) : Z :=
  let u := u mod 2 ^ 32 in
  if bool_decide (u < 2 ^ 31) then u else u - 2 ^ 32.

(** [detail::tLockFreeStackNode<int>]: sixteen bytes, the [int] in the
    first four, the tagged pointer in the last eight.  A free-list node laid
    over it has its index over the [int]; the bytes the union of the model
    does not keep read as zero.  The nodes of the queues have the same
    layout. *)
Definition stack_node_int_repr : ObjectRepr (Stack.tLockFreeStackNode Z) := {|
  sizeof := 16;
  sizeof_min := ltac:(done);
  as_node e := {| mNext := {| mIdx := Stack.mData e mod 2 ^ 32; mTag := 0 |} |};
  as_object n := {| Stack.mData := to_int (mIdx (mNext n)); Stack.mPrev := null |}
|}.

Definition queue_node_int_repr : ObjectRepr (Queue.tLockFreeQueueNode Z) := {|
  sizeof := 16;
  sizeof_min := ltac:(done);
  as_node e := {| mNext := {| mIdx := Queue.mData e mod 2 ^ 32; mTag := 0 |} |};
  as_object n := {| Queue.mData := to_int (mIdx (mNext n)); Queue.mPrev := null |}
|}.

Definition mpsc_node_int_repr : ObjectRepr (MPSCQueue.tMPSCLockFreeQueueNode Z) := {|
  sizeof := 16;
  sizeof_min := ltac:(done);
  as_node e := {| mNext := {| mIdx := MPSCQueue.mData e mod 2 ^ 32; mTag := 0 |} |};
  as_object n := {| MPSCQueue.mData := to_int (mIdx (mNext n)); MPSCQueue.mPrev := 0 |}
|}.

(** ** Well-formed pool objects *)

Module PoolInv.
Section PoolInv.
Context {T : Type} `{ObjectRepr T}.

(** What holds of every pool object: the slab has [mCapacity] slots and
    the fields of [mHead] hold values of their type [tIndex]. *)
Record pool_wf (p : cLockFreePool T) : Prop := {
  wf_capacity : 0 ≤ mCapacity p;
  wf_slots : Z.of_nat (length (mSlots p)) = mCapacity p;
  wf_head_idx : 0 ≤ mIdx (mHead p) < 2 ^ Pool.tIndex_bits;
  wf_head_tag : 0 ≤ mTag (mHead p) < 2 ^ Pool.tIndex_bits
}.

(** The walk [Full] makes, from [idx] along the [mNext.mIdx] fields: the
    slots visited, in order, and the index at which [IsNull] ends the walk.
    [None] when [fuel] slots do not reach such an index. *)
Fixpoint free_list_from (fuel : nat) (p : cLockFreePool T) (idx : Z)
    : option (list Z * Z) :=
  if Pool.IsNull p idx then Some ([], idx)
  else match fuel with
       | O => None
       | S fuel' =>
           node ← Pool.GetNode p idx;
           '(l, last) ← free_list_from fuel' p (mIdx (mNext node));
           Some (idx :: l, last)
       end.

(** The free-list of a pool: the walk from [mHead], which has at most
    [mCapacity] slots to visit. *)
Definition free_list (p : cLockFreePool T) : option (list Z * Z) :=
  free_list_from (Z.to_nat (mCapacity p)) p (mIdx (mHead p)).

(** The pool a constructor leaves behind: slot [i] is linked to slot [i-1],
    slot 0 ends the list, and the head is the last slot. *)
Definition initial_next (i : Z) : Z :=
  if bool_decide (i = 0) then Pool.NULL_IDX else i - 1.

Definition initial_slot (i : nat) : tSlot T :=
  AsNode {| mNext := {| mIdx := initial_next (Z.of_nat i); mTag := 0 |} |}.

Definition initial_pool (storage capacity : Z) : cLockFreePool T := {|
  mHead := {| mIdx := initial_next capacity; mTag := 0 |};
  mCapacity := capacity;
  mStorage := storage;
  mSlots := initial_slot <$> seq 0 (Z.to_nat capacity)
|}.

(** What a client of the pool does: the four calls of the public
    interface that move a slot between the free-list and the client, and the
    writes of a client into a slot it holds. *)
Inductive tPoolOp :=
| OpAcquirePtr (sched : tSchedule)
| OpAcquire (sched : tSchedule) (e : T)
| OpReleasePtr (sched : tSchedule) (ptr : Z)
| OpRelease (sched : tSchedule) (ptr : Z)
| OpAssign (ptr : Z) (e : T).

(** The pointers handed out and not yet given back, after an acquire that
    returned [ptr]. *)
Definition hold (held : gset Z) (ptr : Z) : gset Z :=
  if bool_decide (ptr ≠ 0) then {[ptr]} ∪ held else held.

(** One operation on a pool and the set of pointers its clients hold.  A
    release or a write is run for a pointer that is held only: the
    precondition of [ReleasePtr], and the ownership of a slot by the caller
    that acquired it. *)
Definition run_op (op : tPoolOp) (st : cLockFreePool T * gset Z)
    : option (cLockFreePool T * gset Z) :=
  let '(p, held) := st in
  match op with
  | OpAcquirePtr sched =>
      '(ptr, p') ← Pool.AcquirePtr sched p; Some (p', hold held ptr)
  | OpAcquire sched e =>
      '(ptr, p') ← Pool.Acquire sched p e; Some (p', hold held ptr)
  | OpReleasePtr sched ptr =>
      if bool_decide (ptr ∈ held)
      then p' ← Pool.ReleasePtr sched p ptr; Some (p', held ∖ {[ptr]})
      else None
  | OpRelease sched ptr =>
      if bool_decide (ptr ∈ held)
      then p' ← Pool.Release sched p ptr; Some (p', held ∖ {[ptr]})
      else None
  | OpAssign ptr e =>
      if bool_decide (ptr ∈ held)
      then p' ← Pool.store_object p ptr e; Some (p', held)
      else None
  end.

Fixpoint run_ops (ops : list tPoolOp) (st : cLockFreePool T * gset Z)
    : option (cLockFreePool T * gset Z) :=
  match ops with
  | [] => Some st
  | op :: ops' => st' ← run_op op st; run_ops ops' st'
  end.

(** The states a pool constructed with capacity [n] reaches. *)
Definition run (scheds : list tSchedule) (alloc : tPoolAllocator T) (n : Z)
    (ops : list tPoolOp) : option (cLockFreePool T * gset Z) :=
  p ← Pool.ctor scheds alloc n; run_ops ops (p, ∅).

(** The free-list as a relation: [free_chain p idx l] when the walk from
    [idx] visits the slots [l] and ends at [NULL_IDX]. *)
Inductive free_chain (p : cLockFreePool T) : Z → list Z → Prop :=
| free_chain_end : free_chain p Pool.NULL_IDX []
| free_chain_next idx node l :
    0 ≤ idx < mCapacity p →
    Pool.GetNode p idx = Some node →
    free_chain p (mIdx (mNext node)) l →
    free_chain p idx (idx :: l).

(** The invariant of a pool and the pointers held. *)
Record pool_inv (p : cLockFreePool T) (held : gset Z) (l : list Z) : Prop := {
  inv_wf : pool_wf p;
  inv_capacity : mCapacity p ≤ Pool.max_capacity;
  inv_storage : 0 < mStorage p;
  inv_chain : free_chain p (mIdx (mHead p)) l;
  inv_nodup : NoDup l;
  inv_free : ∀ i, 0 ≤ i < mCapacity p → (i ∈ l ↔ Pool.slot_ptr p i ∉ held);
  inv_held : ∀ ptr, ptr ∈ held → ∃ i, 0 ≤ i < mCapacity p ∧ ptr = Pool.slot_ptr p i
}.

(** [p'] is [p] with the content of slot [i] replaced by [s]. *)
Definition slot_update (p p' : cLockFreePool T) (i : Z) (s : tSlot T) : Prop :=
  mCapacity p' = mCapacity p ∧ mStorage p' = mStorage p ∧
  mSlots p' = <[Z.to_nat i := s]> (mSlots p).

(** An operation a client may run: it releases and writes what it holds. *)
Definition op_allowed (held : gset Z) (op : tPoolOp) : Prop :=
  match op with
  | OpAcquirePtr _ | OpAcquire _ _ => True
  | OpReleasePtr _ ptr | OpRelease _ ptr | OpAssign ptr _ => ptr ∈ held
  end.

(** [k] times an [AcquirePtr] and the [ReleasePtr] of the pointer it
    returned. *)
Fixpoint cycle (k : nat) (s1 s2 : tSchedule) (p : cLockFreePool T)
    : option (cLockFreePool T) :=
  match k with
  | O => Some p
  | S k' =>
      '(ptr, p1) ← Pool.AcquirePtr s1 p;
      p2 ← Pool.ReleasePtr s2 p1 ptr;
      cycle k' s1 s2 p2
  end.

(** The pointer an operation is given, if it is given one. *)
Definition op_target (op : tPoolOp) : option Z :=
  match op with
  | OpAcquirePtr _ | OpAcquire _ _ => None
  | OpReleasePtr _ ptr | OpRelease _ ptr | OpAssign ptr _ => Some ptr
  end.

End PoolInv.
End PoolInv.
Arguments PoolInv.tPoolOp T : clear implicits.

(** [int], the element type of the pool tests: four bytes, so that the
    index and the tag of a free-list node laid over it are its low and high
    halves (the layout is little-endian). *)
Definition int_as_node (e : Z) : tNode :=
  let u := e mod 2 ^ 32 in
  {| mNext := {| mIdx := u mod 2 ^ 16; mTag := u / 2 ^ 16 |} |}.

Definition node_as_int (n : tNode) : Z :=
  to_int (mIdx (mNext n) + 2 ^ 16 * mTag (mNext n)).

Definition int_repr : ObjectRepr Z := {|
  sizeof := 4;
  sizeof_min := ltac:(done);
  as_node := int_as_node;
  as_object := node_as_int
|}.

(** An allocator whose block is at [address] and holds zero bytes. *)
Definition zeroed_allocator {T} (address : Z) : tPoolAllocator T :=
  {| alloc_address := address;
     alloc_content := λ _, AsNode {| mNext := {| mIdx := 0; mTag := 0 |} |} |}.

(** The pool [cLockFreePool<int>(3)] of the single-threaded pool test, its
    slab at address 4096. *)
Definition int_pool_3 : cLockFreePool Z := {|
  mHead := {| mIdx := 2; mTag := 0 |};
  mCapacity := 3;
  mStorage := 4096;
  mSlots := [AsNode {| mNext := {| mIdx := 65535; mTag := 0 |} |};
             AsNode {| mNext := {| mIdx := 0; mTag := 0 |} |};
             AsNode {| mNext := {| mIdx := 1; mTag := 0 |} |}]
|}.

(** That pool with its slab at address [2^20]. *)
Definition int_pool_3_at_2_20 : cLockFreePool Z := {|
  mHead := mHead int_pool_3;
  mCapacity := mCapacity int_pool_3;
  mStorage := 1048576;
  mSlots := mSlots int_pool_3
|}.

(** A run of the pool of the tests: two acquires, a write into the slot
    of the second, the release of the first, and one more acquire. *)
Definition int_pool_3_ops : list (PoolInv.tPoolOp Z) :=
  [PoolInv.OpAcquire [] 42; PoolInv.OpAcquirePtr [true]; PoolInv.OpAssign 4100 (-7);
   PoolInv.OpRelease [true; true] 4104; PoolInv.OpAcquire [] 666].

Definition int_pool_3_after : cLockFreePool Z := {|
  mHead := {| mIdx := 0; mTag := 3 |};
  mCapacity := 3;
  mStorage := 4096;
  mSlots := [AsNode {| mNext := {| mIdx := 65535; mTag := 0 |} |};
             AsElement (-7); AsElement 666]
|}.

(** The pool of the tests after [Acquire(42)], a run from there that
    leaves the slot of the 42 alone, and the pool that run ends with. *)
Definition int_pool_3_one : cLockFreePool Z := {|
  mHead := {| mIdx := 1; mTag := 1 |};
  mCapacity := 3;
  mStorage := 4096;
  mSlots := [AsNode {| mNext := {| mIdx := 65535; mTag := 0 |} |};
             AsNode {| mNext := {| mIdx := 0; mTag := 0 |} |};
             AsElement 42]
|}.

Definition int_pool_3_one_ops : list (PoolInv.tPoolOp Z) :=
  [PoolInv.OpAcquire [true] 666; PoolInv.OpAssign 4100 7; PoolInv.OpRelease [] 4100;
   PoolInv.OpAcquirePtr []].

Definition int_pool_3_one_after : cLockFreePool Z := {|
  mHead := {| mIdx := 0; mTag := 3 |};
  mCapacity := 3;
  mStorage := 4096;
  mSlots := [AsNode {| mNext := {| mIdx := 65535; mTag := 0 |} |};
             AsNode {| mNext := {| mIdx := 0; mTag := 0 |} |};
             AsElement 42]
|}.

(** [int_pool_3_after] after one more [AcquirePtr()]. *)
Definition int_pool_3_taken : cLockFreePool Z := {|
  mHead := {| mIdx := 65535; mTag := 4 |};
  mCapacity := 3;
  mStorage := 4096;
  mSlots := [AsNode {| mNext := {| mIdx := 65535; mTag := 0 |} |};
             AsElement (-7); AsElement 666]
|}.

(** ** The containers behind one interface *)

(** The tests drive the three containers through the same calls; a
    container here is one of them together with the pool its nodes live
    in. *)
Inductive tContainer (T : Type) :=
| AStack (pool : cLockFreePool (Stack.tLockFreeStackNode T)) (s : Stack.cLockFreeStack)
| AQueue (pool : cLockFreePool (Queue.tLockFreeQueueNode T)) (q : Queue.cLockFreeQueue)
| AnMPSCQueue (pool : cLockFreePool (MPSCQueue.tMPSCLockFreeQueueNode T))
    (q : MPSCQueue.cMPSCLockFreeQueue).
Arguments AStack {T} pool s.
Arguments AQueue {T} pool q.
Arguments AnMPSCQueue {T} pool q.

Module Container.
Section Container.
Context {T : Type}
  `{ObjectRepr (Stack.tLockFreeStackNode T)}
  `{ObjectRepr (Queue.tLockFreeQueueNode T)}
  `{ObjectRepr (MPSCQueue.tMPSCLockFreeQueueNode T)}.

Definition Empty (c : tContainer T) : option bool :=
  match c with
  | AStack pool s => Some (Stack.Empty s)
  | AQueue pool q => Queue.Empty pool q
  | AnMPSCQueue pool q => MPSCQueue.Empty pool q
  end.

Definition Pop (sp sr : tSchedule) (c : tContainer T) (result : T)
    : option (bool * T * tContainer T) :=
  match c with
  | AStack pool s =>
      '(b, result', pool', s') ← Stack.Pop sp sr pool s result;
      Some (b, result', AStack pool' s')
  | AQueue pool q =>
      '(b, result', pool', q') ← Queue.Pop sp sr pool q result;
      Some (b, result', AQueue pool' q')
  | AnMPSCQueue pool q =>
      '(b, result', pool', q') ← MPSCQueue.Pop sr pool q result;
      Some (b, result', AnMPSCQueue pool' q')
  end.

End Container.
End Container.

(** [Push] on any of the three, and whether the pool behind the
    container has a free node. *)
Module ContainerPush.
Section ContainerPush.
Context {T : Type}
  `{ObjectRepr (Stack.tLockFreeStackNode T)}
  `{ObjectRepr (Queue.tLockFreeQueueNode T)}
  `{ObjectRepr (MPSCQueue.tMPSCLockFreeQueueNode T)}.

Definition pool_Empty (c : tContainer T) : bool :=
  match c with
  | AStack pool _ => Pool.Empty pool
  | AQueue pool _ => Pool.Empty pool
  | AnMPSCQueue pool _ => Pool.Empty pool
  end.

Definition Push (sa sl : tSchedule) (c : tContainer T) (x : T)
    : option (bool * tContainer T) :=
  match c with
  | AStack pool s =>
      '(b, pool', s') ← Stack.Push sa sl pool s x; Some (b, AStack pool' s')
  | AQueue pool q =>
      '(b, pool', q') ← Queue.Push sa pool q x; Some (b, AQueue pool' q')
  | AnMPSCQueue pool q =>
      '(b, pool', q') ← MPSCQueue.Push sa pool q x; Some (b, AnMPSCQueue pool' q')
  end.

End ContainerPush.
End ContainerPush.

(** ** Runs of a container and the bounded list they are compared with *)

(** The calls of the interface the three containers share.  [sa] is the
    schedule of the acquire loop of the pool, [sl] that of the link loop of
    the stack, [sp] that of the loop of [Pop], [sr] that of the release loop
    of the pool; a container takes the ones it has a loop for. *)
Inductive tOp (T : Type) :=
| OpPush (sa sl : tSchedule) (x : T)
| OpNonAtomicPush (sa : tSchedule) (x : T)
| OpPop (sp sr : tSchedule)
| OpNonAtomicPop (sr : tSchedule)
| OpEmpty.
Arguments OpPush {T} sa sl x.
Arguments OpNonAtomicPush {T} sa x.
Arguments OpPop {T} sp sr.
Arguments OpNonAtomicPop {T} sr.
Arguments OpEmpty {T}.

(** What a call returns; for a pop, the flag and the out-parameter after
    the call. *)
Inductive tOutcome (T : Type) :=
| Pushed (b : bool)
| Popped (b : bool) (result : T)
| IsEmpty (b : bool).
Arguments Pushed {T} b.
Arguments Popped {T} b result.
Arguments IsEmpty {T} b.

(** The model the containers are compared with: a list of at most
    [capacity] values, the next value to pop first, and the variable the
    pops are given as out-parameter. *)
Module ListModel.
Section ListModel.
Context {T : Type}.

Inductive tDiscipline := LIFO | FIFO.

Definition push (d : tDiscipline) (x : T) (xs : list T) : list T :=
  match d with LIFO => x :: xs | FIFO => xs ++ [x] end.

Definition step (d : tDiscipline) (capacity : nat) (op : tOp T) (st : list T * T)
    : tOutcome T * (list T * T) :=
  let '(xs, result) := st in
  match op with
  | OpPush _ _ x | OpNonAtomicPush _ x =>
      if bool_decide (length xs < capacity)%nat
      then (Pushed true, (push d x xs, result))
      else (Pushed false, (xs, result))
  | OpPop _ _ | OpNonAtomicPop _ =>
      match xs with
      | [] => (Popped false result, ([], result))
      | x :: xs' => (Popped true x, (xs', x))
      end
  | OpEmpty => (IsEmpty (match xs with [] => true | _ => false end), (xs, result))
  end.

Fixpoint run (d : tDiscipline) (capacity : nat) (ops : list (tOp T)) (st : list T * T)
    : list (tOutcome T) * (list T * T) :=
  match ops with
  | [] => ([], st)
  | op :: ops' =>
      let '(out, st') := step d capacity op st in
      let '(outs, st'') := run d capacity ops' st' in
      (out :: outs, st'')
  end.

(** Two such lists that draw on one bound: [which] tells the list a call
    is made on, and a push has the room the other list leaves. *)
Definition step_shared (capacity : nat) (call : bool * tOp T)
    (st : list T * list T * T) : tOutcome T * (list T * list T * T) :=
  let '(xsA, xsB, result) := st in
  if call.1
  then let '(out, (xsA', result')) :=
         step LIFO (capacity - length xsB) call.2 (xsA, result) in
       (out, (xsA', xsB, result'))
  else let '(out, (xsB', result')) :=
         step LIFO (capacity - length xsA) call.2 (xsB, result) in
       (out, (xsA, xsB', result')).

Fixpoint run_shared (capacity : nat) (calls : list (bool * tOp T))
    (st : list T * list T * T) : list (tOutcome T) * (list T * list T * T) :=
  match calls with
  | [] => ([], st)
  | call :: calls' =>
      let '(out, st') := step_shared capacity call st in
      let '(outs, st'') := run_shared capacity calls' st' in
      (out :: outs, st'')
  end.

End ListModel.
End ListModel.

(** ** The stack as a list *)

Module StackInv.
Section StackInv.
Context {T : Type} `{ObjectRepr (Stack.tLockFreeStackNode T)}.

(** The nodes linked from the node pointer [ptr] through [mPrev], down to
    the null pointer: the slots they occupy and the values they hold, the
    top of the stack first. *)
Inductive stack_chain (pool : cLockFreePool (Stack.tLockFreeStackNode T))
    : Z → list Z → list T → Prop :=
| stack_chain_bottom : stack_chain pool 0 [] []
| stack_chain_node i n slots xs :
    0 ≤ i < mCapacity pool →
    mSlots pool !! Z.to_nat i = Some (AsElement n) →
    stack_chain pool (GetPtr (Stack.mPrev n)) slots xs →
    stack_chain pool (Pool.slot_ptr pool i) (i :: slots) (Stack.mData n :: xs).

(** A stack that holds the values [xs] in the slots [slots] of a pool
    whose free-list is [l] and whose clients hold the pointers [held]: the
    nodes of the stack are distinct, held slots, and every node address fits
    the 48 bits of a tagged pointer. *)
Record stack_inv (pool : cLockFreePool (Stack.tLockFreeStackNode T))
    (s : Stack.cLockFreeStack) (held : gset Z) (l slots : list Z) (xs : list T)
    : Prop := {
  sinv_pool : PoolInv.pool_inv pool held l;
  sinv_address : Pool.slot_ptr pool (mCapacity pool) ≤ 2 ^ 48;
  sinv_chain : stack_chain pool (GetPtr (Stack.mTop s)) slots xs;
  sinv_nodup : NoDup slots;
  sinv_held : ∀ i, i ∈ slots → Pool.slot_ptr pool i ∈ held
}.

(** The single-threaded stack test on a stack with a local pool of three
    nodes.  [sch k] is the schedule of the [k]-th retry loop of the run; the
    out-parameter of [Pop] starts as 0 and is passed from call to call. *)
Definition single_thread_test (scheds : list tSchedule) (sch : nat → tSchedule)
    (alloc : tPoolAllocator (Stack.tLockFreeStackNode Z))
    `{ObjectRepr (Stack.tLockFreeStackNode Z)}
    : option (list bool * list (bool * Z)) :=
  '(pool, s) ← Stack.ctor_local scheds alloc 3;
  '(b1, pool, s) ← Stack.Push (sch 0%nat) (sch 1%nat) pool s 42;
  '(b2, pool, s) ← Stack.Push (sch 2%nat) (sch 3%nat) pool s 666;
  '(b3, pool, s) ← Stack.Push (sch 4%nat) (sch 5%nat) pool s 1337;
  '(b4, pool, s) ← Stack.Push (sch 6%nat) (sch 7%nat) pool s 1138;
  '(c1, r1, pool, s) ← Stack.Pop (sch 8%nat) (sch 9%nat) pool s 0;
  '(c2, r2, pool, s) ← Stack.Pop (sch 10%nat) (sch 11%nat) pool s r1;
  '(c3, r3, pool, s) ← Stack.Pop (sch 12%nat) (sch 13%nat) pool s r2;
  '(c4, r4, pool, s) ← Stack.Pop (sch 14%nat) (sch 15%nat) pool s r3;
  Some ([b1; b2; b3; b4], [(c1, r1); (c2, r2); (c3, r3); (c4, r4)]).

(** The states of a stack with a local pool of [capacity] nodes: every
    node of the pool is on the free-list or in the stack, and [mCount] is
    the number of values in the stack. *)
Definition local_inv (capacity : nat) (pool : cLockFreePool (Stack.tLockFreeStackNode T))
    (s : Stack.cLockFreeStack) (xs : list T) : Prop :=
  ∃ held l slots,
    stack_inv pool s held l slots xs ∧
    mCapacity pool = Z.of_nat capacity ∧
    (length l + length xs = capacity)%nat ∧
    Stack.mCount s = Z.of_nat (length xs).

(** One call on a stack, its pool and the variable given to the pops. *)
Definition run_op (op : tOp T)
    (st : cLockFreePool (Stack.tLockFreeStackNode T) * Stack.cLockFreeStack * T)
    : option (tOutcome T *
              (cLockFreePool (Stack.tLockFreeStackNode T) * Stack.cLockFreeStack * T)) :=
  let '(pool, s, result) := st in
  match op with
  | OpPush sa sl x =>
      '(b, pool', s') ← Stack.Push sa sl pool s x; Some (Pushed b, (pool', s', result))
  | OpNonAtomicPush sa x =>
      '(b, pool', s') ← Stack.NonAtomicPush sa pool s x;
      Some (Pushed b, (pool', s', result))
  | OpPop sp sr =>
      '(b, result', pool', s') ← Stack.Pop sp sr pool s result;
      Some (Popped b result', (pool', s', result'))
  | OpNonAtomicPop sr =>
      '(b, result', pool', s') ← Stack.NonAtomicPop sr pool s result;
      Some (Popped b result', (pool', s', result'))
  | OpEmpty => Some (IsEmpty (Stack.Empty s), (pool, s, result))
  end.

Fixpoint run_ops (ops : list (tOp T))
    (st : cLockFreePool (Stack.tLockFreeStackNode T) * Stack.cLockFreeStack * T)
    : option (list (tOutcome T) *
              (cLockFreePool (Stack.tLockFreeStackNode T) * Stack.cLockFreeStack * T)) :=
  match ops with
  | [] => Some ([], st)
  | op :: ops' =>
      '(out, st') ← run_op op st;
      '(outs, st'') ← run_ops ops' st';
      Some (out :: outs, st'')
  end.

(** The calls [ops] on a stack with a local pool of [CAPACITY] nodes. *)
Definition run (scheds : list tSchedule)
    (alloc : tPoolAllocator (Stack.tLockFreeStackNode T)) (CAPACITY : Z)
    (ops : list (tOp T)) (result : T)
    : option (list (tOutcome T) *
              (cLockFreePool (Stack.tLockFreeStackNode T) * Stack.cLockFreeStack * T)) :=
  '(pool, s) ← Stack.ctor_local scheds alloc CAPACITY;
  run_ops ops (pool, s, result).

(** Two stacks constructed on one pool of [n] nodes, the use the class
    with shared storage is made for: a call is made on the first stack when
    its flag is true and on the second otherwise. *)
Definition run_shared_op (call : bool * tOp T)
    (st : cLockFreePool (Stack.tLockFreeStackNode T) *
          Stack.cLockFreeStack * Stack.cLockFreeStack * T)
    : option (tOutcome T *
              (cLockFreePool (Stack.tLockFreeStackNode T) *
               Stack.cLockFreeStack * Stack.cLockFreeStack * T)) :=
  let '(pool, sA, sB, result) := st in
  if call.1
  then '(out, (pool', sA', result')) ← run_op call.2 (pool, sA, result);
       Some (out, (pool', sA', sB, result'))
  else '(out, (pool', sB', result')) ← run_op call.2 (pool, sB, result);
       Some (out, (pool', sA, sB', result')).

Fixpoint run_shared_ops (calls : list (bool * tOp T))
    (st : cLockFreePool (Stack.tLockFreeStackNode T) *
          Stack.cLockFreeStack * Stack.cLockFreeStack * T)
    : option (list (tOutcome T) *
              (cLockFreePool (Stack.tLockFreeStackNode T) *
               Stack.cLockFreeStack * Stack.cLockFreeStack * T)) :=
  match calls with
  | [] => Some ([], st)
  | call :: calls' =>
      '(out, st') ← run_shared_op call st;
      '(outs, st'') ← run_shared_ops calls' st';
      Some (out :: outs, st'')
  end.

Definition run_shared (scheds : list tSchedule)
    (alloc : tPoolAllocator (Stack.tLockFreeStackNode T)) (n : Z)
    (calls : list (bool * tOp T)) (result : T)
    : option (list (tOutcome T) *
              (cLockFreePool (Stack.tLockFreeStackNode T) *
               Stack.cLockFreeStack * Stack.cLockFreeStack * T)) :=
  pool ← Pool.ctor scheds alloc n;
  run_shared_ops calls (pool, Stack.ctor, Stack.ctor, result).

(** The states of two stacks on one pool of [capacity] nodes: they have no
    node in common, and every node of the pool is on the free-list or in one
    of them. *)
Definition shared_inv (capacity : nat) (pool : cLockFreePool (Stack.tLockFreeStackNode T))
    (sA sB : Stack.cLockFreeStack) (xsA xsB : list T) : Prop :=
  ∃ held l slotsA slotsB,
    stack_inv pool sA held l slotsA xsA ∧
    stack_inv pool sB held l slotsB xsB ∧
    (∀ i, i ∈ slotsA → i ∉ slotsB) ∧
    (length l + length xsA + length xsB = capacity)%nat.

End StackInv.
End StackInv.

(** ** The MPMC queue as a list *)

Module QueueInv.
Section QueueInv.
Context {T : Type} `{ObjectRepr (Queue.tLockFreeQueueNode T)}.

(** The nodes linked from the node pointer [ptr] through [mPrev], up to
    the sentinel, the node whose [mPrev] is null: the slots of the nodes
    before the sentinel and the values they hold, the front of the queue
    first, and the slot of the sentinel. *)
Inductive queue_chain (pool : cLockFreePool (Queue.tLockFreeQueueNode T))
    : Z → list Z → list T → Z → Prop :=
| queue_chain_sentinel b n :
    0 ≤ b < mCapacity pool →
    mSlots pool !! Z.to_nat b = Some (AsElement n) →
    GetPtr (Queue.mPrev n) = 0 →
    queue_chain pool (Pool.slot_ptr pool b) [] [] b
| queue_chain_node i n slots xs b :
    0 ≤ i < mCapacity pool →
    mSlots pool !! Z.to_nat i = Some (AsElement n) →
    GetPtr (Queue.mPrev n) ≠ 0 →
    queue_chain pool (GetPtr (Queue.mPrev n)) slots xs b →
    queue_chain pool (Pool.slot_ptr pool i) (i :: slots) (Queue.mData n :: xs) b.

(** A queue that holds the values [xs] in the slots [slots], its sentinel
    in slot [b], in a pool whose free-list is [l] and whose clients hold the
    pointers [held]. *)
Record queue_inv (pool : cLockFreePool (Queue.tLockFreeQueueNode T))
    (q : Queue.cLockFreeQueue) (held : gset Z) (l slots : list Z) (xs : list T) (b : Z)
    : Prop := {
  qinv_pool : PoolInv.pool_inv pool held l;
  qinv_address : Pool.slot_ptr pool (mCapacity pool) ≤ 2 ^ 48;
  qinv_chain : queue_chain pool (GetPtr (Queue.mFront q)) slots xs b;
  qinv_back : GetPtr (Queue.mBack q) = Pool.slot_ptr pool b;
  qinv_nodup : NoDup (b :: slots);
  qinv_held : ∀ i, i ∈ b :: slots → Pool.slot_ptr pool i ∈ held
}.

(** The single-threaded queue test on a queue with a local pool of
    three nodes and the sentinel.  [sch k] is the schedule of the [k]-th
    retry loop of the run. *)
Definition single_thread_test (scheds : list tSchedule) (sch : nat → tSchedule)
    (alloc : tPoolAllocator (Queue.tLockFreeQueueNode Z))
    `{ObjectRepr (Queue.tLockFreeQueueNode Z)}
    : option (list bool * list (bool * Z)) :=
  '(pool, q) ← Queue.ctor_local scheds (sch 0%nat) alloc 3;
  '(b1, pool, q) ← Queue.Push (sch 1%nat) pool q 42;
  '(b2, pool, q) ← Queue.Push (sch 2%nat) pool q 666;
  '(b3, pool, q) ← Queue.Push (sch 3%nat) pool q 1337;
  '(b4, pool, q) ← Queue.Push (sch 4%nat) pool q 1138;
  '(c1, r1, pool, q) ← Queue.Pop (sch 5%nat) (sch 6%nat) pool q 0;
  '(c2, r2, pool, q) ← Queue.Pop (sch 7%nat) (sch 8%nat) pool q r1;
  '(c3, r3, pool, q) ← Queue.Pop (sch 9%nat) (sch 10%nat) pool q r2;
  '(c4, r4, pool, q) ← Queue.Pop (sch 11%nat) (sch 12%nat) pool q r3;
  Some ([b1; b2; b3; b4], [(c1, r1); (c2, r2); (c3, r3); (c4, r4)]).

(** The states of a queue with a local pool of [storage + 1] nodes: every
    node of the pool is on the free-list, in the queue or its sentinel, and
    [mCount] is the number of values in the queue. *)
Definition local_inv (storage : nat) (pool : cLockFreePool (Queue.tLockFreeQueueNode T))
    (q : Queue.cLockFreeQueue) (xs : list T) : Prop :=
  ∃ held l slots b,
    queue_inv pool q held l slots xs b ∧
    mCapacity pool = Z.of_nat (S storage) ∧
    (length l + length xs = storage)%nat ∧
    Queue.mCount q = Z.of_nat (length xs).

(** One call on a queue, its pool and the variable given to the pops. *)
Definition run_op (op : tOp T)
    (st : cLockFreePool (Queue.tLockFreeQueueNode T) * Queue.cLockFreeQueue * T)
    : option (tOutcome T *
              (cLockFreePool (Queue.tLockFreeQueueNode T) * Queue.cLockFreeQueue * T)) :=
  let '(pool, q, result) := st in
  match op with
  | OpPush sa _ x =>
      '(b, pool', q') ← Queue.Push sa pool q x; Some (Pushed b, (pool', q', result))
  | OpNonAtomicPush sa x =>
      '(b, pool', q') ← Queue.NonAtomicPush sa pool q x;
      Some (Pushed b, (pool', q', result))
  | OpPop sp sr =>
      '(b, result', pool', q') ← Queue.Pop sp sr pool q result;
      Some (Popped b result', (pool', q', result'))
  | OpNonAtomicPop sr =>
      '(b, result', pool', q') ← Queue.NonAtomicPop sr pool q result;
      Some (Popped b result', (pool', q', result'))
  | OpEmpty => b ← Queue.Empty pool q; Some (IsEmpty b, (pool, q, result))
  end.

Fixpoint run_ops (ops : list (tOp T))
    (st : cLockFreePool (Queue.tLockFreeQueueNode T) * Queue.cLockFreeQueue * T)
    : option (list (tOutcome T) *
              (cLockFreePool (Queue.tLockFreeQueueNode T) * Queue.cLockFreeQueue * T)) :=
  match ops with
  | [] => Some ([], st)
  | op :: ops' =>
      '(out, st') ← run_op op st;
      '(outs, st'') ← run_ops ops' st';
      Some (out :: outs, st'')
  end.

(** The calls [ops] on a queue with local storage for [storage] values;
    [sa] is the schedule of the acquire of the sentinel. *)
Definition run (scheds : list tSchedule) (sa : tSchedule)
    (alloc : tPoolAllocator (Queue.tLockFreeQueueNode T)) (storage : Z)
    (ops : list (tOp T)) (result : T)
    : option (list (tOutcome T) *
              (cLockFreePool (Queue.tLockFreeQueueNode T) * Queue.cLockFreeQueue * T)) :=
  '(pool, q) ← Queue.ctor_local scheds sa alloc storage;
  run_ops ops (pool, q, result).

End QueueInv.
End QueueInv.

(** ** The MPSC queue as a list *)

Module MPSCInv.
Section MPSCInv.
Context {T : Type} `{ObjectRepr (MPSCQueue.tMPSCLockFreeQueueNode T)}.

(** The nodes linked from the node pointer [ptr] through [mPrev], up to
    the node whose [mPrev] is null, which is the back of the queue: the slots
    of the nodes before the back and what their [mData] holds, the node at
    [ptr] first, and the slot of the back and what its [mData] holds. *)
Inductive mpsc_chain (pool : cLockFreePool (MPSCQueue.tMPSCLockFreeQueueNode T))
    : Z → list Z → list T → Z → T → Prop :=
| mpsc_chain_back b n :
    0 ≤ b < mCapacity pool →
    mSlots pool !! Z.to_nat b = Some (AsElement n) →
    MPSCQueue.mPrev n = 0 →
    mpsc_chain pool (Pool.slot_ptr pool b) [] [] b (MPSCQueue.mData n)
| mpsc_chain_node i n slots ds b db :
    0 ≤ i < mCapacity pool →
    mSlots pool !! Z.to_nat i = Some (AsElement n) →
    MPSCQueue.mPrev n ≠ 0 →
    mpsc_chain pool (MPSCQueue.mPrev n) slots ds b db →
    mpsc_chain pool (Pool.slot_ptr pool i) (i :: slots) (MPSCQueue.mData n :: ds) b db.

(** The values of the queue are those of the nodes after the front node,
    which is the sentinel: its value has been popped, or never was one. *)
Definition contents (ds : list T) (db : T) : list T := tl (ds ++ [db]).

(** A queue whose nodes are those of such a chain from [mFront], in a
    pool whose free-list is [l] and whose clients hold the pointers
    [held]. *)
Record mpsc_inv (pool : cLockFreePool (MPSCQueue.tMPSCLockFreeQueueNode T))
    (q : MPSCQueue.cMPSCLockFreeQueue) (held : gset Z) (l slots : list Z)
    (ds : list T) (b : Z) (db : T) : Prop := {
  minv_pool : PoolInv.pool_inv pool held l;
  minv_chain : mpsc_chain pool (MPSCQueue.mFront q) slots ds b db;
  minv_back : MPSCQueue.mBack q = Pool.slot_ptr pool b;
  minv_nodup : NoDup (b :: slots);
  minv_held : ∀ i, i ∈ b :: slots → Pool.slot_ptr pool i ∈ held
}.

(** The states of a queue with a local pool of [storage + 1] nodes. *)
Definition local_inv (storage : nat)
    (pool : cLockFreePool (MPSCQueue.tMPSCLockFreeQueueNode T))
    (q : MPSCQueue.cMPSCLockFreeQueue) (xs : list T) : Prop :=
  ∃ held l slots ds b db,
    mpsc_inv pool q held l slots ds b db ∧
    xs = contents ds db ∧
    mCapacity pool = Z.of_nat (S storage) ∧
    (length l + length xs = storage)%nat ∧
    MPSCQueue.mCount q = Z.of_nat (length xs).

(** One call on a queue, its pool and the variable given to the pops. *)
Definition run_op (op : tOp T)
    (st : cLockFreePool (MPSCQueue.tMPSCLockFreeQueueNode T) *
          MPSCQueue.cMPSCLockFreeQueue * T)
    : option (tOutcome T *
              (cLockFreePool (MPSCQueue.tMPSCLockFreeQueueNode T) *
               MPSCQueue.cMPSCLockFreeQueue * T)) :=
  let '(pool, q, result) := st in
  match op with
  | OpPush sa _ x =>
      '(b, pool', q') ← MPSCQueue.Push sa pool q x; Some (Pushed b, (pool', q', result))
  | OpNonAtomicPush sa x =>
      '(b, pool', q') ← MPSCQueue.NonAtomicPush sa pool q x;
      Some (Pushed b, (pool', q', result))
  | OpPop _ sr =>
      '(b, result', pool', q') ← MPSCQueue.Pop sr pool q result;
      Some (Popped b result', (pool', q', result'))
  | OpNonAtomicPop sr =>
      '(b, result', pool', q') ← MPSCQueue.NonAtomicPop sr pool q result;
      Some (Popped b result', (pool', q', result'))
  | OpEmpty => b ← MPSCQueue.Empty pool q; Some (IsEmpty b, (pool, q, result))
  end.

Fixpoint run_ops (ops : list (tOp T))
    (st : cLockFreePool (MPSCQueue.tMPSCLockFreeQueueNode T) *
          MPSCQueue.cMPSCLockFreeQueue * T)
    : option (list (tOutcome T) *
              (cLockFreePool (MPSCQueue.tMPSCLockFreeQueueNode T) *
               MPSCQueue.cMPSCLockFreeQueue * T)) :=
  match ops with
  | [] => Some ([], st)
  | op :: ops' =>
      '(out, st') ← run_op op st;
      '(outs, st'') ← run_ops ops' st';
      Some (out :: outs, st'')
  end.

(** The calls [ops] on a queue with local storage for [storage] values;
    [sa] is the schedule of the acquire of the sentinel and [T_default] the
    value-initialised [T()] it is constructed with. *)
Definition run (scheds : list tSchedule) (sa : tSchedule)
    (alloc : tPoolAllocator (MPSCQueue.tMPSCLockFreeQueueNode T)) (storage : Z)
    (T_default : T) (ops : list (tOp T)) (result : T)
    : option (list (tOutcome T) *
              (cLockFreePool (MPSCQueue.tMPSCLockFreeQueueNode T) *
               MPSCQueue.cMPSCLockFreeQueue * T)) :=
  '(pool, q) ← MPSCQueue.ctor_local scheds sa alloc storage T_default;
  run_ops ops (pool, q, result).

End MPSCInv.
End MPSCInv.

(** ** Containers of the tests *)

(** The stack of the single-threaded test after [Push(42)], and the three
    containers right after construction, each on a pool whose slab is at
    address 4096. *)
Definition int_stack_empty : cLockFreePool (Stack.tLockFreeStackNode Z) * Stack.cLockFreeStack :=
  Eval vm_compute in
    default (PoolInv.initial_pool (H:=stack_node_int_repr) 4096 0, Stack.ctor)
      (Stack.ctor_local (H:=stack_node_int_repr) [] (zeroed_allocator 4096) 3).

Definition int_stack_one : cLockFreePool (Stack.tLockFreeStackNode Z) * Stack.cLockFreeStack :=
  Eval vm_compute in
    default int_stack_empty
      ('(b, pool, s) ← Stack.Push (H:=stack_node_int_repr) [] []
                         int_stack_empty.1 int_stack_empty.2 42;
       Some (pool, s)).

Definition int_queue_empty : cLockFreePool (Queue.tLockFreeQueueNode Z) * Queue.cLockFreeQueue :=
  Eval vm_compute in
    default (PoolInv.initial_pool (H:=queue_node_int_repr) 4096 0,
             {| Queue.mFront := null; Queue.mBack := null; Queue.mCount := 0 |})
      (Queue.ctor_local (H:=queue_node_int_repr) [] [] (zeroed_allocator 4096) 3).

Definition int_mpsc_queue_empty
    : cLockFreePool (MPSCQueue.tMPSCLockFreeQueueNode Z) * MPSCQueue.cMPSCLockFreeQueue :=
  Eval vm_compute in
    default (PoolInv.initial_pool (H:=mpsc_node_int_repr) 4096 0,
             {| MPSCQueue.mFront := 0; MPSCQueue.mBack := 0; MPSCQueue.mCount := 0 |})
      (pool ← Pool.ctor (H:=mpsc_node_int_repr) [] (zeroed_allocator 4096) 4;
       MPSCQueue.ctor (H:=mpsc_node_int_repr) [] pool 0).

(** A run of calls, and what it returns and leaves behind on a stack with
    a local pool of two nodes and on an MPMC queue with local storage for two
    values. *)
Definition int_container_ops : list (tOp Z) :=
  [OpEmpty; OpPush [] [true] 42; OpNonAtomicPush [true] 666; OpPush [] [] 1337; OpEmpty;
   OpPop [true] []; OpNonAtomicPop [true]; OpPush [true; true] [] 1138].

Definition int_stack_after
    : list (tOutcome Z) *
      (cLockFreePool (Stack.tLockFreeStackNode Z) * Stack.cLockFreeStack * Z) :=
  Eval vm_compute in
    default ([], (int_stack_empty, 0))
      (StackInv.run (H:=stack_node_int_repr) [] (zeroed_allocator 4096) 2 int_container_ops 0).

(** A top with the pointer of the top of [int_stack_one] and another tag,
    and the pool of [int_stack_one] after a node for 666 was acquired and
    given that top as its [mPrev], as by a push that loaded it. *)
Definition int_stale_top : tTaggedPtr :=
  Eval vm_compute in make (GetPtr (Stack.mTop int_stack_one.2)) 7.

(** The pool of [int_stack_one] after a node for 666 was acquired. *)
Definition int_stack_acquired : cLockFreePool (Stack.tLockFreeStackNode Z) :=
  Eval vm_compute in
    default int_stack_one.1
      ('(ptr, pool1) ← Pool.Acquire (H:=stack_node_int_repr) [] int_stack_one.1
                         (Stack.node_ctor 666);
       Some pool1).

Definition int_stack_linking : cLockFreePool (Stack.tLockFreeStackNode Z) :=
  Eval vm_compute in
    default int_stack_one.1
      ('(ptr, pool1) ← Pool.Acquire (H:=stack_node_int_repr) [] int_stack_one.1
                         (Stack.node_ctor 666);
       Stack.store_mPrev (H:=stack_node_int_repr) pool1 ptr int_stale_top).

(** Calls on two stacks that share a pool of three nodes. *)
Definition int_shared_calls : list (bool * tOp Z) :=
  [(true, OpPush [] [] 1); (false, OpPush [true] [] 2); (true, OpNonAtomicPush [] 3);
   (false, OpPush [] [true] 4); (true, OpPop [true] []); (false, OpPush [] [] 5);
   (false, OpPop [] [true]); (false, OpNonAtomicPop []); (false, OpPop [] []);
   (true, OpPop [] []); (true, OpEmpty)].

Definition int_queue_after
    : list (tOutcome Z) *
      (cLockFreePool (Queue.tLockFreeQueueNode Z) * Queue.cLockFreeQueue * Z) :=
  Eval vm_compute in
    default ([], (int_queue_empty, 0))
      (QueueInv.run (H:=queue_node_int_repr) [] [] (zeroed_allocator 4096) 2
         int_container_ops 0).

(** The three containers on pools that have no free node: a stack with a
    local pool of no node, and the two queues with local pools of one node,
    which their sentinels occupy. *)
Definition int_stack_exhausted
    : cLockFreePool (Stack.tLockFreeStackNode Z) * Stack.cLockFreeStack :=
  Eval vm_compute in
    default int_stack_empty
      (Stack.ctor_local (H:=stack_node_int_repr) [] (zeroed_allocator 4096) 0).

Definition int_queue_exhausted
    : cLockFreePool (Queue.tLockFreeQueueNode Z) * Queue.cLockFreeQueue :=
  Eval vm_compute in
    default int_queue_empty
      (Queue.ctor_local (H:=queue_node_int_repr) [] [] (zeroed_allocator 4096) 0).

Definition int_mpsc_queue_exhausted
    : cLockFreePool (MPSCQueue.tMPSCLockFreeQueueNode Z) * MPSCQueue.cMPSCLockFreeQueue :=
  Eval vm_compute in
    default int_mpsc_queue_empty
      (pool ← Pool.ctor (H:=mpsc_node_int_repr) [] (zeroed_allocator 4096) 1;
       MPSCQueue.ctor (H:=mpsc_node_int_repr) [] pool 0).

(** * Properties *)

(** Reduction of the binds of the option monad. *)
Tactic Notation "bind_simpl" := cbn [mbind option_bind].
Tactic Notation "bind_simpl" "in" hyp(H) := cbn [mbind option_bind] in H.

(** ** The line of the debug output *)

(** X1.  Whatever [vsnprintf_s] returned, [WriteLine] puts the new line and
    the terminating NUL inside its buffer of 1024 characters: the new line
    at the length that was written when that is at most 1022, and at 1022
    otherwise, also when the output was truncated or the call failed (a
    negative result); the characters before the new line are left as they
    were. *)
Theorem WriteLine_fix_up_in_bounds (buffer : list Z) (vsnprintf_result : Z) :
  Z.of_nat (length buffer) = Debug.large_enough →
  ∃ i buffer',
    Debug.fix_up buffer vsnprintf_result = Some (i, buffer') ∧
    0 ≤ i ≤ 1022 ∧
    (0 ≤ vsnprintf_result ≤ 1022 → i = vsnprintf_result) ∧
    (vsnprintf_result < 0 ∨ 1022 < vsnprintf_result → i = 1022) ∧
    buffer' !! Z.to_nat i = Some 10 ∧ buffer' !! Z.to_nat (i + 1) = Some 0 ∧
    length buffer' = length buffer ∧
    take (Z.to_nat i) buffer' = take (Z.to_nat i) buffer.
Proof.
  unfold Debug.large_enough. intros Hlen. unfold Debug.fix_up.
  set (num_written := if bool_decide (0 ≤ vsnprintf_result) then vsnprintf_result
                      else Debug.large_enough - 1).
  set (i := Z.min (Z.max 0 num_written)
              (Debug.large_enough - Debug.room_for_new_line_and_terminating_nul)).
  assert (0 ≤ i ≤ 1022) as Hi
    by (unfold i, Debug.large_enough, Debug.room_for_new_line_and_terminating_nul; lia).
  unfold Debug.store_char. rewrite bool_decide_eq_true_2 by lia. bind_simpl.
  rewrite bool_decide_eq_true_2 by (rewrite length_insert; lia). bind_simpl.
  eexists _, _. split; [done|]. split; [done|].
  split; [|split; [|split; [|split; [|split]]]].
  - intros Hr. unfold i, num_written, Debug.large_enough,
      Debug.room_for_new_line_and_terminating_nul.
    rewrite bool_decide_eq_true_2 by lia. lia.
  - intros Hr. unfold i, num_written, Debug.large_enough,
      Debug.room_for_new_line_and_terminating_nul.
    case_bool_decide; lia.
  - rewrite list_lookup_insert_ne by lia. apply list_lookup_insert_eq. lia.
  - apply list_lookup_insert_eq. rewrite length_insert. lia.
  - by rewrite !length_insert.
  - rewrite !take_insert_ge by lia. done.
Qed.

Lemma WriteLine_fix_up_in_bounds_witness :
  Z.of_nat (length (replicate 1024 65)) = Debug.large_enough ∧
  ∃ i buffer',
    Debug.fix_up (replicate 1024 65) (-1) = Some (i, buffer') ∧
    0 ≤ i ≤ 1022 ∧
    (0 ≤ -1 ≤ 1022 → i = -1) ∧
    (-1 < 0 ∨ 1022 < -1 → i = 1022) ∧
    buffer' !! Z.to_nat i = Some 10 ∧ buffer' !! Z.to_nat (i + 1) = Some 0 ∧
    length buffer' = length (replicate 1024 65) ∧
    take (Z.to_nat i) buffer' = take (Z.to_nat i) (replicate 1024 65).
Proof.
  split; [reflexivity|].
  apply (WriteLine_fix_up_in_bounds (replicate 1024 65) (-1)). reflexivity.
Defined.

Section PoolFacts.
Context {T : Type} `{ObjectRepr T}.

Local Abbreviation pool := (cLockFreePool T).

Lemma tIndex_bits_cases : Pool.tIndex_bits = 16 ∨ Pool.tIndex_bits = 32.
Proof. unfold Pool.tIndex_bits. case_bool_decide; auto. Qed.

Lemma tIndex_pow_ge : 65536 ≤ 2 ^ Pool.tIndex_bits.
Proof. destruct tIndex_bits_cases as [-> | ->]; lia. Qed.

Lemma to_tIndex_range z : 0 ≤ Pool.to_tIndex z < 2 ^ Pool.tIndex_bits.
Proof. unfold Pool.to_tIndex. apply Z.mod_pos_bound. pose proof tIndex_pow_ge. lia. Qed.

Lemma to_tIndex_small z : 0 ≤ z < 2 ^ Pool.tIndex_bits → Pool.to_tIndex z = z.
Proof. intros. unfold Pool.to_tIndex. by apply Z.mod_small. Qed.

Lemma NULL_IDX_range : 0 ≤ Pool.NULL_IDX < 2 ^ Pool.tIndex_bits.
Proof. unfold Pool.NULL_IDX, Pool.tIndex_max. pose proof tIndex_pow_ge. lia. Qed.

Lemma to_tIndex_NULL_IDX : Pool.to_tIndex Pool.NULL_IDX = Pool.NULL_IDX.
Proof. apply to_tIndex_small, NULL_IDX_range. Qed.

(** *** The retry loops do not depend on the schedule *)

Lemma compare_exchange_weak_spurious {A} `{EqDecision A} (cell expected desired : A) :
  compare_exchange_weak true cell expected desired = (false, cell, cell).
Proof. reflexivity. Qed.

Lemma compare_exchange_weak_same {A} `{EqDecision A} (cell desired : A) :
  compare_exchange_weak false cell cell desired = (true, desired, cell).
Proof. unfold compare_exchange_weak. by rewrite bool_decide_eq_true_2. Qed.

Lemma compare_exchange_weak_success {A} `{EqDecision A} b (cell expected desired c' e' : A) :
  compare_exchange_weak b cell expected desired = (true, c', e') →
  b = false ∧ cell = expected ∧ c' = desired ∧ e' = expected.
Proof.
  unfold compare_exchange_weak. destruct b; simpl; [congruence|].
  case_bool_decide; intros; simplify_eq; auto.
Qed.

Lemma compare_exchange_weak_failure {A} `{EqDecision A} b (cell expected desired c' e' : A) :
  compare_exchange_weak b cell expected desired = (false, c', e') →
  c' = cell ∧ e' = cell.
Proof.
  unfold compare_exchange_weak. destruct (negb b && _); intros; simplify_eq; auto.
Qed.

Lemma compare_exchange_weak_differs {A} `{EqDecision A} b (cell expected desired : A) :
  expected ≠ cell → compare_exchange_weak b cell expected desired = (false, cell, cell).
Proof.
  intros Hne. unfold compare_exchange_weak.
  rewrite (bool_decide_eq_false_2 (cell = expected)) by (intros ->; done).
  by rewrite andb_false_r.
Qed.

Lemma set_mHead_same (p : pool) : Pool.set_mHead p (mHead p) = p.
Proof. by destruct p. Qed.

Lemma AcquireIdx_spec sched (p : pool) :
  Pool.AcquireIdx sched p =
    if Pool.IsNull p (mIdx (mHead p)) then Some (Pool.NULL_IDX, p)
    else node ← Pool.GetNode p (mIdx (mHead p));
         Some (mIdx (mHead p),
               Pool.set_mHead p
                 (Pool.mk_tIndexTag (mIdx (mNext node)) (mTag (mHead p) + 1))).
Proof.
  unfold Pool.AcquireIdx.
  induction sched as [|b sched IH]; simpl.
  - destruct (Pool.IsNull _ _); [done|].
    destruct (Pool.GetNode _ _); [simpl|done].
    by rewrite compare_exchange_weak_same.
  - destruct (Pool.IsNull p (mIdx (mHead p))) eqn:Hnull; [done|].
    destruct (Pool.GetNode p (mIdx (mHead p))) as [node|] eqn:Hnode; [simpl|done].
    destruct b.
    + by rewrite compare_exchange_weak_spurious, set_mHead_same, IH.
    + by rewrite compare_exchange_weak_same.
Qed.

Lemma store_mNext_mIdx_twice (p p1 : pool) index idx :
  Pool.store_mNext_mIdx p index idx = Some p1 →
  Pool.store_mNext_mIdx p1 index idx = Some p1.
Proof.
  unfold Pool.store_mNext_mIdx, Pool.GetNode. intros Hs.
  destruct (mSlots p !! Z.to_nat index) as [s|] eqn:Hl; simplify_eq/=.
  rewrite list_lookup_insert_eq by (by eapply lookup_lt_Some).
  simpl. by rewrite list_insert_insert_eq.
Qed.

Lemma ReleaseIdx_loop_spec sched (p : pool) index :
  Pool.ReleaseIdx_loop sched p index (mHead p) =
    p1 ← Pool.store_mNext_mIdx p index (mIdx (mHead p));
    Some (Pool.set_mHead p1 (Pool.mk_tIndexTag index (mTag (mHead p)))).
Proof.
  revert p. induction sched as [|b sched IH]; intros p; simpl.
  - destruct (Pool.store_mNext_mIdx _ _ _) as [p1|] eqn:Hs; [simpl|done].
    replace (mHead p1) with (mHead p)
      by (unfold Pool.store_mNext_mIdx in Hs; destruct (Pool.GetNode _ _); by simplify_eq/=).
    by rewrite compare_exchange_weak_same.
  - destruct (Pool.store_mNext_mIdx _ _ _) as [p1|] eqn:Hs; [simpl|done].
    assert (mHead p1 = mHead p) as Hh
      by (unfold Pool.store_mNext_mIdx in Hs; destruct (Pool.GetNode _ _); by simplify_eq/=).
    destruct b.
    + rewrite compare_exchange_weak_spurious, set_mHead_same.
      rewrite IH, Hh, (store_mNext_mIdx_twice _ _ _ _ Hs). done.
    + rewrite Hh. by rewrite compare_exchange_weak_same.
Qed.

Lemma ReleaseIdx_spec sched (p : pool) index :
  Pool.ReleaseIdx sched p index =
    if Pool.IsNull p index then Some p
    else p1 ← Pool.store_mNext_mIdx p index (mIdx (mHead p));
         Some (Pool.set_mHead p1 (Pool.mk_tIndexTag index (mTag (mHead p)))).
Proof.
  unfold Pool.ReleaseIdx. destruct (Pool.IsNull _ _); [done|].
  apply ReleaseIdx_loop_spec.
Qed.

(** *** Tags of the pool head *)

(** Whatever value of [head_tmp] an iteration of the acquire loop works
    from, a head it writes carries the tag of the head it replaces plus
    one. *)
Lemma AcquireIdx_loop_tag sched (p p' : pool) head_tmp idx :
  Pool.AcquireIdx_loop sched p head_tmp = Some (idx, p') →
  p' = p ∨ mTag (mHead p') = Pool.to_tIndex (mTag (mHead p) + 1).
Proof.
  revert p head_tmp. induction sched as [|b sched IH]; intros p head_tmp; simpl.
  - destruct (Pool.IsNull _ _); [intros; simplify_eq; auto|].
    destruct (Pool.GetNode _ _); [simpl|done].
    destruct (compare_exchange_weak _ _ _ _) as [[[] c'] e'] eqn:Hcas; [|done].
    apply compare_exchange_weak_success in Hcas as (_ & -> & -> & _).
    intros; simplify_eq. by right.
  - destruct (Pool.IsNull _ _); [intros; simplify_eq; auto|].
    destruct (Pool.GetNode _ _); [simpl|done].
    destruct (compare_exchange_weak _ _ _ _) as [[[] c'] e'] eqn:Hcas.
    + apply compare_exchange_weak_success in Hcas as (_ & -> & -> & _).
      intros; simplify_eq. by right.
    + apply compare_exchange_weak_failure in Hcas as [-> ->].
      rewrite set_mHead_same. apply IH.
Qed.

(** C6.  On a pool whose free-list is not empty, [AcquireIdx] returns the
    index of the head and writes a head whose tag is the tag of the head it
    replaced plus one, in the arithmetic of the tag type (so plus one exactly
    below the largest tag); [ReleaseIdx] returns, leaves the tag of the head
    as it was and, when the index is one of a slot, writes that index with the
    tag of the head it replaced. *)
Theorem pool_head_tag_policy sched (p : pool) (index : Z) :
  PoolInv.pool_wf p →
  0 ≤ index →
  (Pool.IsNull p (mIdx (mHead p)) = false →
   ∃ p', Pool.AcquireIdx sched p = Some (mIdx (mHead p), p') ∧
         mTag (mHead p') = (mTag (mHead p) + 1) mod 2 ^ Pool.tIndex_bits ∧
         (mTag (mHead p) < Pool.tIndex_max → mTag (mHead p') = mTag (mHead p) + 1)) ∧
  (∃ p', Pool.ReleaseIdx sched p index = Some p' ∧
         mTag (mHead p') = mTag (mHead p) ∧
         (Pool.IsNull p index = false →
          mHead p' = {| mIdx := Pool.to_tIndex index; mTag := mTag (mHead p) |})).
Proof.
  intros [Hcap Hlen Hidx Htag] Hindex. split.
  - intros Hnull. rewrite AcquireIdx_spec, Hnull.
    unfold Pool.IsNull in Hnull. apply bool_decide_eq_false in Hnull.
    destruct (lookup_lt_is_Some_2 (mSlots p) (Z.to_nat (mIdx (mHead p)))) as [s Hs]; [lia|].
    unfold Pool.GetNode. rewrite Hs. simpl. eexists; split; [done|]. simpl.
    split; [done|]. intros Hmax. unfold Pool.to_tIndex, Pool.tIndex_max in *.
    apply Z.mod_small. lia.
  - rewrite ReleaseIdx_spec. destruct (Pool.IsNull p index) eqn:Hnull.
    + eexists; split; [done|]. split; [done|]. done.
    + unfold Pool.IsNull in Hnull. apply bool_decide_eq_false in Hnull.
      destruct (lookup_lt_is_Some_2 (mSlots p) (Z.to_nat index)) as [s Hs]; [lia|].
      unfold Pool.store_mNext_mIdx, Pool.GetNode. rewrite Hs. simpl.
      eexists; split; [done|]. simpl. rewrite (to_tIndex_small (mTag _)) by done.
      split; [done|]. intros _. unfold Pool.mk_tIndexTag.
      by rewrite (to_tIndex_small (mTag _)).
Qed.


(** *** Construction *)

Lemma max_capacity_bounds : 65534 ≤ Pool.max_capacity ∧ Pool.max_capacity < Pool.NULL_IDX.
Proof.
  unfold Pool.max_capacity, Pool.NULL_IDX, Pool.tIndex_max.
  pose proof tIndex_pow_ge. lia.
Qed.

Lemma sizeof_pos : 0 < sizeof.
Proof. pose proof sizeof_min. lia. Qed.

Lemma ptr_diff_slot_ptr (p : pool) i : Pool.ptr_diff p (Pool.slot_ptr p i) = i.
Proof.
  unfold Pool.ptr_diff, Pool.slot_ptr. pose proof sizeof_pos.
  replace (mStorage p + i * sizeof - mStorage p) with (i * sizeof) by lia.
  apply Z.div_mul. lia.
Qed.

(** A pointer into the bytes of slot [i], and be it a slot before the
    slab, has index [i]. *)
Lemma ptr_diff_floor (p : pool) i ptr :
  Pool.slot_ptr p i ≤ ptr < Pool.slot_ptr p (i + 1) → Pool.ptr_diff p ptr = i.
Proof.
  unfold Pool.ptr_diff, Pool.slot_ptr. pose proof sizeof_pos. intros Hptr.
  symmetry. apply (Z.div_unique_pos _ _ i (ptr - mStorage p - i * sizeof)); lia.
Qed.

Lemma ReleasePtr_floor sched (p : pool) i ptr :
  Pool.slot_ptr p i ≤ ptr < Pool.slot_ptr p (i + 1) →
  Pool.ReleasePtr sched p ptr = Pool.ReleasePtr sched p (Pool.slot_ptr p i).
Proof.
  intros Hptr. unfold Pool.ReleasePtr.
  by rewrite (ptr_diff_floor p i ptr Hptr), ptr_diff_slot_ptr.
Qed.

Lemma insert_middle {A} (l1 l2 : list A) (x y : A) (i : nat) :
  i = length l1 → <[i := y]> (l1 ++ x :: l2) = l1 ++ y :: l2.
Proof.
  intros ->. rewrite insert_app_r_alt by lia. by rewrite Nat.sub_diag.
Qed.

Lemma ReleaseAllPtrs_loop_spec scheds n (i : nat) storage capacity
    (done rest : list (tSlot T)) :
  length done = i → length rest = n →
  capacity = Z.of_nat (i + n) → capacity ≤ Pool.max_capacity →
  Pool.ReleaseAllPtrs_loop scheds n (Z.of_nat i)
    {| mHead := {| mIdx := PoolInv.initial_next (Z.of_nat i); mTag := 0 |};
       mCapacity := capacity; mStorage := storage; mSlots := done ++ rest |} =
  Some {| mHead := {| mIdx := PoolInv.initial_next capacity; mTag := 0 |};
          mCapacity := capacity; mStorage := storage;
          mSlots := done ++ (PoolInv.initial_slot <$> seq i n) |}.
Proof.
  revert scheds i done rest.
  induction n as [|n IH]; intros scheds i done rest Hdone Hrest -> Hcap.
  - destruct rest; [|done]. simpl. by rewrite Nat.add_0_r.
  - destruct rest as [|s rest]; [done|]. simpl in Hrest.
    pose proof max_capacity_bounds as [_ Hmax]. pose proof NULL_IDX_range as Hnull.
    assert (Pool.to_tIndex (Z.of_nat i) = Z.of_nat i) as Hi
      by (apply to_tIndex_small; lia).
    cbn [Pool.ReleaseAllPtrs_loop]. rewrite Hi.
    unfold Pool.store_mNext, Pool.GetNode, Pool.set_mSlots.
    cbn [mSlots mHead mCapacity mStorage].
    rewrite Nat2Z.id, (list_lookup_middle done rest s i) by done.
    rewrite (insert_middle done rest) by done.
    cbn [mbind option_bind fmap option_fmap option_map].
    unfold Pool.ReleasePtr. rewrite ptr_diff_slot_ptr, Hi, ReleaseIdx_spec.
    unfold Pool.IsNull. cbn [mCapacity].
    rewrite bool_decide_eq_false_2 by lia.
    unfold Pool.store_mNext_mIdx, Pool.GetNode, Pool.set_mSlots, Pool.set_mHead.
    cbn [mSlots mHead mCapacity mStorage].
    rewrite Nat2Z.id, (list_lookup_middle done rest _ i) by done.
    cbn [mbind option_bind fmap option_fmap option_map Pool.node_view mNext mTag mIdx
         mSlots mHead mCapacity mStorage].
    rewrite (insert_middle done rest) by done.
    unfold Pool.mk_tIndexTag.
    rewrite Hi, (to_tIndex_small 0) by lia.
    specialize (IH (tl scheds) (S i) (done ++ [PoolInv.initial_slot i]) rest).
    rewrite length_app, Hdone in IH. simpl in IH.
    replace (Z.of_nat i + 1) with (Z.of_nat (S i)) by lia.
    replace (i + S n)%nat with (S i + n)%nat in * by lia.
    rewrite <- (assoc_L (++)) in IH. simpl in IH.
    assert (PoolInv.initial_next (Z.of_nat (S i)) = Z.of_nat i) as Hnext
      by (unfold PoolInv.initial_next; rewrite bool_decide_eq_false_2 by lia; lia).
    rewrite Hnext in IH. unfold PoolInv.initial_slot at 1 in IH.
    rewrite <- (assoc_L (++)) in IH. simpl in *.
    apply IH; lia.
Qed.

Lemma ctor_spec scheds (alloc : tPoolAllocator T) n :
  0 ≤ n →
  Pool.ctor scheds alloc n =
    Some (PoolInv.initial_pool (alloc_address alloc) (Z.min n Pool.max_capacity)).
Proof.
  intros Hn. unfold Pool.ctor, Pool.AllocateStorage. cbn [mStorage].
  rewrite bool_decide_eq_false_2 by (intros ?; done).
  unfold allocate, Pool.ReleaseAllPtrs, Pool.set_mHead. cbn [mCapacity mStorage mSlots mHead].
  pose proof max_capacity_bounds as [Hmax _].
  set (capacity := Z.min n Pool.max_capacity).
  unfold Pool.mk_tIndexTag. rewrite to_tIndex_NULL_IDX, (to_tIndex_small 0)
    by (pose proof tIndex_pow_ge; lia).
  pose proof (ReleaseAllPtrs_loop_spec scheds (Z.to_nat capacity) 0
                (alloc_address alloc) capacity []
                (alloc_content alloc <$> seq 0 (Z.to_nat capacity))) as Hloop.
  change (Z.of_nat 0) with 0 in Hloop. change ([] ++ ?l) with l in Hloop.
  assert (PoolInv.initial_next 0 = Pool.NULL_IDX) as Hinit by done.
  rewrite Hinit in Hloop. rewrite Hloop; [done|done|..].
  - by rewrite length_fmap, length_seq.
  - lia.
  - lia.
Qed.

Lemma initial_pool_lookup storage capacity (i : nat) :
  Z.of_nat i < capacity →
  mSlots (PoolInv.initial_pool (T:=T) storage capacity) !! i = Some (PoolInv.initial_slot i).
Proof.
  intros Hi. unfold PoolInv.initial_pool. cbn [mSlots].
  rewrite list_lookup_fmap, lookup_seq_lt by lia. done.
Qed.

Lemma free_list_from_initial storage capacity (k fuel : nat) :
  capacity ≤ Pool.max_capacity → Z.of_nat k ≤ capacity → (k ≤ fuel)%nat →
  PoolInv.free_list_from fuel (PoolInv.initial_pool (T:=T) storage capacity)
    (PoolInv.initial_next (Z.of_nat k)) =
  Some (reverse (seqZ 0 (Z.of_nat k)), Pool.NULL_IDX).
Proof.
  intros Hcap. pose proof max_capacity_bounds as [_ Hmax].
  revert fuel. induction k as [|k IH]; intros fuel Hk Hfuel.
  - change (PoolInv.initial_next (Z.of_nat 0)) with Pool.NULL_IDX.
    destruct fuel; simpl; unfold Pool.IsNull; cbn [mCapacity PoolInv.initial_pool];
      by rewrite bool_decide_eq_true_2 by lia.
  - destruct fuel as [|fuel]; [lia|].
    assert (PoolInv.initial_next (Z.of_nat (S k)) = Z.of_nat k) as ->
      by (unfold PoolInv.initial_next; rewrite bool_decide_eq_false_2 by lia; lia).
    simpl. unfold Pool.IsNull at 1. cbn [mCapacity PoolInv.initial_pool].
    rewrite bool_decide_eq_false_2 by lia.
    unfold Pool.GetNode. rewrite Nat2Z.id, initial_pool_lookup by lia.
    cbn [fmap option_fmap option_map mbind option_bind Pool.node_view PoolInv.initial_slot
         mNext mIdx].
    rewrite IH by lia. bind_simpl.
    by rewrite seqZ_S, reverse_snoc.
Qed.

Lemma free_list_initial storage capacity :
  0 ≤ capacity ≤ Pool.max_capacity →
  PoolInv.free_list (PoolInv.initial_pool (T:=T) storage capacity) =
    Some (reverse (seqZ 0 capacity), Pool.NULL_IDX).
Proof.
  intros [Hc Hcap]. unfold PoolInv.free_list. cbn [mCapacity mHead mIdx PoolInv.initial_pool].
  pose proof (free_list_from_initial storage capacity (Z.to_nat capacity)
                (Z.to_nat capacity)) as Hwalk.
  rewrite Z2Nat.id in Hwalk by done. apply Hwalk; lia.
Qed.

(** C4, as the code has it.  The constructor clamps the requested capacity
    to the largest index minus one: [2^32 - 2] for elements of eight bytes
    or more, [2^16 - 2] for smaller ones; [NULL_IDX] is the largest index. *)
Theorem pool_capacity_clamp scheds (alloc : tPoolAllocator T) (n : Z) :
  0 ≤ n →
  ∃ p, Pool.ctor scheds alloc n = Some p ∧
       (8 ≤ sizeof → Pool.GetCapacity p = Z.min n (2 ^ 32 - 2) ∧
                      Pool.NULL_IDX = 2 ^ 32 - 1) ∧
       (sizeof < 8 → Pool.GetCapacity p = Z.min n (2 ^ 16 - 2) ∧
                     Pool.NULL_IDX = 2 ^ 16 - 1).
Proof.
  intros Hn. rewrite ctor_spec by done. eexists; split; [done|].
  unfold Pool.GetCapacity, Pool.NULL_IDX, Pool.max_capacity, Pool.tIndex_max, Pool.tIndex_bits.
  cbn [mCapacity PoolInv.initial_pool].
  split; intros Hs.
  - rewrite bool_decide_eq_true_2 by done. split; f_equal; lia.
  - rewrite bool_decide_eq_false_2 by lia. split; f_equal; lia.
Qed.

(** C8, as the code has it.  After construction with capacity [n] every
    slot is on the free-list, in descending order of index: the walk from the
    head visits slot [n-1] first and slot 0 last, then ends at [NULL_IDX]; the
    first acquire returns slot [n-1]. *)
Theorem pool_initial_free_list scheds (alloc : tPoolAllocator T) (n : Z) sched :
  0 ≤ n →
  ∃ p, Pool.ctor scheds alloc n = Some p ∧
       PoolInv.free_list p = Some (reverse (seqZ 0 (mCapacity p)), Pool.NULL_IDX) ∧
       (∀ i, 0 ≤ i < mCapacity p → i ∈ reverse (seqZ 0 (mCapacity p))) ∧
       (0 < n →
        ∃ p', Pool.AcquirePtr sched p = Some (Pool.slot_ptr p (mCapacity p - 1), p')).
Proof.
  intros Hn. rewrite ctor_spec by done. eexists; split; [done|].
  pose proof max_capacity_bounds as [Hmax Hnull].
  set (capacity := Z.min n Pool.max_capacity).
  assert (0 ≤ capacity ≤ Pool.max_capacity) as Hc by lia.
  split; [|split].
  - by apply free_list_initial.
  - intros i Hi. cbn [mCapacity PoolInv.initial_pool] in *.
    rewrite elem_of_reverse, elem_of_seqZ. lia.
  - intros Hpos. cbn [mCapacity PoolInv.initial_pool].
    unfold Pool.AcquirePtr. rewrite AcquireIdx_spec.
    cbn [mHead mIdx mCapacity PoolInv.initial_pool].
    assert (PoolInv.initial_next capacity = capacity - 1) as ->
      by (unfold PoolInv.initial_next; rewrite bool_decide_eq_false_2 by lia; lia).
    unfold Pool.IsNull. cbn [mCapacity PoolInv.initial_pool].
    rewrite bool_decide_eq_false_2 by lia.
    unfold Pool.GetNode.
    rewrite (initial_pool_lookup _ _ (Z.to_nat (capacity - 1))) by lia.
    cbn [fmap option_fmap option_map mbind option_bind].
    rewrite bool_decide_eq_true_2 by lia. eexists. done.
Qed.

(** C9.  A pool constructed with capacity 0 is empty and full at once, and
    [AcquirePtr] returns the null pointer. *)
Theorem pool_capacity_zero scheds (alloc : tPoolAllocator T) sched :
  ∃ p, Pool.ctor scheds alloc 0 = Some p ∧
       Pool.Empty p = true ∧ Pool.Full p = Some true ∧
       Pool.AcquirePtr sched p = Some (0, p).
Proof.
  rewrite ctor_spec by done. eexists; split; [done|].
  pose proof max_capacity_bounds as [Hmax Hnull]. pose proof NULL_IDX_range.
  rewrite Z.min_l by lia.
  assert (Pool.IsNull (PoolInv.initial_pool (T:=T) (alloc_address alloc) 0)
            (PoolInv.initial_next 0) = true) as Hempty.
  { unfold Pool.IsNull. cbn [mCapacity PoolInv.initial_pool].
    change (PoolInv.initial_next 0) with Pool.NULL_IDX.
    rewrite bool_decide_eq_true_2; [done|lia]. }
  split; [exact Hempty|]. split; [done|].
  unfold Pool.AcquirePtr. rewrite AcquireIdx_spec.
  cbn [mHead mIdx PoolInv.initial_pool]. rewrite Hempty.
  bind_simpl. by rewrite bool_decide_eq_false_2 by (intros ?; done).
Qed.

(** *** The free-list invariant *)

Lemma slot_ptr_inj (p : pool) i j : Pool.slot_ptr p i = Pool.slot_ptr p j → i = j.
Proof. unfold Pool.slot_ptr. pose proof sizeof_pos. nia. Qed.

Lemma slot_ptr_nonnull (p : pool) i : 0 < mStorage p → 0 ≤ i → Pool.slot_ptr p i ≠ 0.
Proof. unfold Pool.slot_ptr. pose proof sizeof_pos. nia. Qed.

Lemma slot_ptr_range (p : pool) i :
  0 < mStorage p → Pool.slot_ptr p (mCapacity p) ≤ 2 ^ 48 →
  0 ≤ i < mCapacity p → 0 < Pool.slot_ptr p i < 2 ^ 48.
Proof. unfold Pool.slot_ptr. pose proof sizeof_pos. nia. Qed.

Lemma slot_of_ptr_slot_ptr (p : pool) i :
  0 ≤ i < Z.of_nat (length (mSlots p)) →
  Pool.slot_of_ptr p (Pool.slot_ptr p i) = Some (Z.to_nat i).
Proof.
  intros Hi. unfold Pool.slot_of_ptr, Pool.slot_ptr. pose proof sizeof_pos.
  replace (mStorage p + i * sizeof - mStorage p) with (i * sizeof) by lia.
  rewrite Z.mod_mul, Z.div_mul by lia.
  rewrite bool_decide_eq_true_2; [done|]. split; [nia|]. split; [done|lia].
Qed.

Lemma free_chain_inv (p : pool) idx l :
  PoolInv.free_chain p idx l →
  (idx = Pool.NULL_IDX ∧ l = []) ∨
  (0 ≤ idx < mCapacity p ∧
   ∃ node l', l = idx :: l' ∧ Pool.GetNode p idx = Some node ∧
              PoolInv.free_chain p (mIdx (mNext node)) l').
Proof. destruct 1; [by left|right]. split; [done|]. eauto. Qed.

Lemma free_chain_range (p : pool) idx l :
  PoolInv.free_chain p idx l → ∀ i, i ∈ l → 0 ≤ i < mCapacity p.
Proof.
  induction 1 as [|idx node l Hidx Hnode Hchain IH]; intros i Hi.
  - by apply elem_of_nil in Hi.
  - apply elem_of_cons in Hi as [->|Hi]; auto.
Qed.

Lemma free_chain_start_range (p : pool) idx l :
  mCapacity p ≤ Pool.max_capacity →
  PoolInv.free_chain p idx l → 0 ≤ idx < 2 ^ Pool.tIndex_bits.
Proof.
  intros Hcap Hchain. pose proof max_capacity_bounds. pose proof NULL_IDX_range.
  apply free_chain_inv in Hchain as [[-> _]|[? _]]; lia.
Qed.

Lemma free_chain_slots (p p' : pool) idx l :
  mCapacity p' = mCapacity p → mSlots p' = mSlots p →
  PoolInv.free_chain p idx l → PoolInv.free_chain p' idx l.
Proof.
  intros Hcap Hslots. induction 1 as [|idx node l Hidx Hnode Hchain IH]; [constructor|].
  econstructor; [by rewrite Hcap | | done].
  unfold Pool.GetNode in *. by rewrite Hslots.
Qed.

Lemma free_chain_frame (p p' : pool) idx l (i : Z) s :
  0 ≤ i → i ∉ l →
  mCapacity p' = mCapacity p → mSlots p' = <[Z.to_nat i := s]> (mSlots p) →
  PoolInv.free_chain p idx l → PoolInv.free_chain p' idx l.
Proof.
  intros Hi Hnotin Hcap Hslots.
  induction 1 as [|idx node l Hidx Hnode Hchain IH]; [constructor|].
  apply not_elem_of_cons in Hnotin as [Hne Hnotin].
  econstructor; [by rewrite Hcap | | by apply IH].
  unfold Pool.GetNode in *. rewrite Hslots, list_lookup_insert_ne; [done|lia].
Qed.

Lemma free_chain_length (p : pool) idx l :
  0 ≤ mCapacity p →
  PoolInv.free_chain p idx l → NoDup l → Z.of_nat (length l) ≤ mCapacity p.
Proof.
  intros Hcap Hchain Hnodup.
  assert (l ⊆+ seqZ 0 (mCapacity p)) as Hsub.
  { apply NoDup_submseteq; [done|]. intros i Hi.
    apply elem_of_seqZ. pose proof (free_chain_range _ _ _ Hchain i Hi). lia. }
  apply submseteq_length in Hsub. rewrite length_seqZ in Hsub. lia.
Qed.

Lemma free_chain_walk (p : pool) idx l fuel :
  mCapacity p ≤ Pool.max_capacity →
  PoolInv.free_chain p idx l → (length l ≤ fuel)%nat →
  PoolInv.free_list_from fuel p idx = Some (l, Pool.NULL_IDX).
Proof.
  intros Hcap Hchain. pose proof max_capacity_bounds as [_ Hmax].
  revert fuel. induction Hchain as [|idx node l Hidx Hnode Hchain IH]; intros fuel Hfuel.
  - destruct fuel; simpl; unfold Pool.IsNull; by rewrite bool_decide_eq_true_2 by lia.
  - destruct fuel as [|fuel]; simpl in Hfuel; [lia|].
    simpl. unfold Pool.IsNull. rewrite bool_decide_eq_false_2 by lia.
    rewrite Hnode. simpl. by rewrite IH by lia.
Qed.

Lemma free_chain_initial storage capacity (k : nat) :
  Z.of_nat k ≤ capacity →
  PoolInv.free_chain (PoolInv.initial_pool (T:=T) storage capacity)
    (PoolInv.initial_next (Z.of_nat k)) (reverse (seqZ 0 (Z.of_nat k))).
Proof.
  induction k as [|k IH]; intros Hk.
  - constructor.
  - assert (PoolInv.initial_next (Z.of_nat (S k)) = Z.of_nat k) as ->
      by (unfold PoolInv.initial_next; rewrite bool_decide_eq_false_2 by lia; lia).
    rewrite seqZ_S, reverse_snoc, Z.add_0_l.
    econstructor.
    + cbn [mCapacity PoolInv.initial_pool]. lia.
    + unfold Pool.GetNode. rewrite Nat2Z.id, initial_pool_lookup by lia. done.
    + apply IH. lia.
Qed.

Lemma pool_inv_initial storage capacity :
  0 < storage → 0 ≤ capacity ≤ Pool.max_capacity →
  PoolInv.pool_inv (PoolInv.initial_pool (T:=T) storage capacity) ∅
    (reverse (seqZ 0 capacity)).
Proof.
  intros Hstorage [Hc Hcap].
  pose proof max_capacity_bounds as [_ Hmax]. pose proof NULL_IDX_range.
  split; cbn [mCapacity mStorage mHead mIdx mTag mSlots PoolInv.initial_pool]; try done.
  - split; cbn [mCapacity mStorage mHead mIdx mTag mSlots PoolInv.initial_pool].
    + done.
    + rewrite length_fmap, length_seq. lia.
    + unfold PoolInv.initial_next. case_bool_decide; lia.
    + lia.
  - pose proof (free_chain_initial storage capacity (Z.to_nat capacity)) as Hchain.
    rewrite Z2Nat.id in Hchain by done. apply Hchain. lia.
  - rewrite reverse_Permutation. apply NoDup_seqZ.
  - intros i Hi. rewrite elem_of_reverse, elem_of_seqZ.
    split; [intros _; apply not_elem_of_empty | lia].
Qed.

Lemma AcquirePtr_inv sched (p : pool) held l :
  PoolInv.pool_inv p held l →
  ∃ ptr p', Pool.AcquirePtr sched p = Some (ptr, p') ∧
    ((l = [] ∧ ptr = 0 ∧ p' = p) ∨
     (∃ h l', l = h :: l' ∧ ptr = Pool.slot_ptr p h ∧ ptr ≠ 0 ∧ (ptr ∉ held) ∧
              (∃ head', p' = Pool.set_mHead p head') ∧
              PoolInv.pool_inv p' ({[ptr]} ∪ held) l')).
Proof.
  intros [[Hcap0 Hlen Hidx Htag] Hcap Hstorage Hchain Hnodup Hfree Hheld].
  pose proof max_capacity_bounds as [_ Hmax]. pose proof NULL_IDX_range as Hnull.
  unfold Pool.AcquirePtr. rewrite AcquireIdx_spec.
  apply free_chain_inv in Hchain as [[Hhead ->]|[Hhead (node & l' & -> & Hnode & Hchain)]].
  - unfold Pool.IsNull. rewrite bool_decide_eq_true_2 by lia. bind_simpl.
    rewrite bool_decide_eq_false_2 by (intros ?; done).
    eexists _, _. split; [done|]. by left.
  - unfold Pool.IsNull. rewrite bool_decide_eq_false_2 by lia.
    rewrite Hnode. bind_simpl.
    rewrite bool_decide_eq_true_2 by lia.
    eexists _, _. split; [done|]. right. exists (mIdx (mHead p)), l'.
    set (h := mIdx (mHead p)) in *.
    apply NoDup_cons in Hnodup as [Hh Hnodup].
    assert (Pool.slot_ptr p h ∉ held) as Hnotheld
      by (apply Hfree; [done|apply elem_of_cons; by left]).
    change (Pool.slot_ptr (Pool.set_mHead p ?x) h) with (Pool.slot_ptr p h).
    split; [done|]. split; [done|]. split; [by apply slot_ptr_nonnull; lia|].
    split; [done|]. split; [by eexists|].
    pose proof (free_chain_start_range _ _ _ Hcap Hchain) as Hnext.
    split; cbn [mCapacity mStorage mHead mSlots Pool.set_mHead Pool.mk_tIndexTag mIdx mTag];
      try done.
    + split; cbn [mCapacity mStorage mHead mSlots Pool.set_mHead Pool.mk_tIndexTag mIdx mTag];
        auto using to_tIndex_range.
    + rewrite to_tIndex_small by done. by eapply free_chain_slots; [| |exact Hchain].
    + intros i Hi. unfold Pool.slot_ptr in *.
      cbn [mCapacity mStorage mHead mSlots Pool.set_mHead].
      specialize (Hfree i Hi). rewrite elem_of_cons in Hfree.
      rewrite not_elem_of_union, not_elem_of_singleton. split.
      * intros Hin. split; [|apply Hfree; by right].
        intros Heq. assert (i = h) as -> by (pose proof sizeof_pos; nia). done.
      * intros [Hne Hni]. apply Hfree in Hni as [->|]; done.
    + intros ptr Hptr. unfold Pool.slot_ptr in *.
      cbn [mCapacity mStorage mHead mSlots Pool.set_mHead].
      apply elem_of_union in Hptr as [Hptr|Hptr]; [|by apply Hheld].
      apply elem_of_singleton in Hptr as ->. by exists h.
Qed.

Lemma store_object_inv (p : pool) held l ptr e :
  PoolInv.pool_inv p held l → ptr ∈ held →
  ∃ p', Pool.store_object p ptr e = Some p' ∧
        (∃ i, 0 ≤ i < mCapacity p ∧ ptr = Pool.slot_ptr p i ∧
              PoolInv.slot_update p p' i (AsElement e)) ∧
        PoolInv.pool_inv p' held l.
Proof.
  intros [[Hcap0 Hlen Hidx Htag] Hcap Hstorage Hchain Hnodup Hfree Hheld] Hptr.
  destruct (Hheld ptr Hptr) as (i & Hi & ->).
  unfold Pool.store_object. rewrite slot_of_ptr_slot_ptr by lia. bind_simpl.
  eexists. split; [done|]. split; [by exists i|].
  assert (i ∉ l) as Hnotin by (intros Hin; by apply (Hfree i Hi) in Hin).
  split; cbn [mCapacity mStorage mHead mSlots Pool.set_mSlots]; try done.
  - split; cbn [mCapacity mStorage mHead mSlots Pool.set_mSlots]; try done.
    by rewrite length_insert.
  - by eapply (free_chain_frame p _ _ _ i); [lia| | | |exact Hchain].
Qed.

Lemma ReleasePtr_inv sched (p : pool) held l ptr :
  PoolInv.pool_inv p held l → ptr ∈ held →
  ∃ p' i, Pool.ReleasePtr sched p ptr = Some p' ∧ ptr = Pool.slot_ptr p i ∧
          0 ≤ i < mCapacity p ∧
          (∃ n, PoolInv.slot_update p p' i (AsNode n)) ∧
          PoolInv.pool_inv p' (held ∖ {[ptr]}) (i :: l).
Proof.
  intros [[Hcap0 Hlen Hidx Htag] Hcap Hstorage Hchain Hnodup Hfree Hheld] Hptr.
  pose proof max_capacity_bounds as [_ Hmax]. pose proof NULL_IDX_range as Hnull.
  destruct (Hheld ptr Hptr) as (i & Hi & ->).
  assert (i ∉ l) as Hnotin by (intros Hin; by apply (Hfree i Hi) in Hin).
  unfold Pool.ReleasePtr.
  rewrite ptr_diff_slot_ptr, to_tIndex_small, ReleaseIdx_spec by lia.
  unfold Pool.IsNull. rewrite bool_decide_eq_false_2 by lia.
  destruct (lookup_lt_is_Some_2 (mSlots p) (Z.to_nat i)) as [s Hs]; [lia|].
  unfold Pool.store_mNext_mIdx, Pool.GetNode. rewrite Hs.
  cbn [fmap option_fmap option_map mbind option_bind].
  eexists _, i. split; [done|]. split; [done|]. split; [done|].
  split; [by eexists|].
  split; cbn [mCapacity mStorage mHead mSlots Pool.set_mSlots Pool.set_mHead
              Pool.mk_tIndexTag mIdx mTag]; try done.
  - split; cbn [mCapacity mStorage mHead mSlots Pool.set_mSlots Pool.set_mHead
                Pool.mk_tIndexTag mIdx mTag]; auto using to_tIndex_range.
    by rewrite length_insert.
  - rewrite to_tIndex_small by lia. econstructor.
    + cbn [mCapacity Pool.set_mSlots Pool.set_mHead]. lia.
    + unfold Pool.GetNode. cbn [mSlots Pool.set_mSlots Pool.set_mHead].
      rewrite list_lookup_insert_eq by lia. done.
    + cbn [Pool.node_view mNext mIdx].
      by eapply (free_chain_frame p _ _ _ i); [lia| | | |exact Hchain].
  - by apply NoDup_cons.
  - intros j Hj. unfold Pool.slot_ptr in *.
    cbn [mCapacity mStorage mHead mSlots Pool.set_mSlots Pool.set_mHead].
    specialize (Hfree j Hj).
    rewrite elem_of_cons, not_elem_of_difference, elem_of_singleton. split.
    + intros [->|Hin]; [by right|]. left. by apply Hfree.
    + intros [Hni|Heq]; [right; by apply Hfree|].
      left. pose proof sizeof_pos. nia.
  - intros ptr Hin. unfold Pool.slot_ptr in *.
    cbn [mCapacity mStorage mHead mSlots Pool.set_mSlots Pool.set_mHead].
    apply elem_of_difference in Hin as [Hin _]. by apply Hheld.
Qed.

Lemma Acquire_inv sched (p : pool) held l e :
  PoolInv.pool_inv p held l →
  ∃ ptr p', Pool.Acquire sched p e = Some (ptr, p') ∧
    ((l = [] ∧ ptr = 0 ∧ p' = p) ∨
     (∃ h l', l = h :: l' ∧ 0 ≤ h < mCapacity p ∧ ptr = Pool.slot_ptr p h ∧
              ptr ≠ 0 ∧ (ptr ∉ held) ∧
              mCapacity p' = mCapacity p ∧ mStorage p' = mStorage p ∧
              mSlots p' = <[Z.to_nat h := AsElement e]> (mSlots p) ∧
              PoolInv.pool_inv p' ({[ptr]} ∪ held) l')).
Proof.
  intros Hinv. unfold Pool.Acquire.
  destruct (AcquirePtr_inv sched p held l Hinv)
    as (ptr & p' & -> & [(-> & -> & ->)|(h & l' & -> & -> & Hnn & Hnh & [hd ->] & Hinv')]);
    bind_simpl.
  - eexists _, _. split; [done|]. by left.
  - rewrite bool_decide_eq_true_2 by done.
    destruct (store_object_inv _ _ l' (Pool.slot_ptr p h) e Hinv')
      as (p'' & -> & (i & Hi & Hptr & Hc & Hs & Hslots) & Hinv'');
      [apply elem_of_union_l; by apply elem_of_singleton|].
    bind_simpl. eexists _, _. split; [done|]. right. exists h, l'.
    change (Pool.slot_ptr (Pool.set_mHead p hd) i) with (Pool.slot_ptr p i) in Hptr.
    apply slot_ptr_inj in Hptr as <-.
    cbn [mCapacity mStorage mSlots Pool.set_mHead] in *.
    pose proof (free_chain_range _ _ _ (PoolInv.inv_chain _ _ _ Hinv) h) as Hh.
    split; [done|]. split; [apply Hh, elem_of_cons; by left|]. done.
Qed.

Lemma slot_of_ptr_Some (p : pool) ptr (i : nat) :
  Pool.slot_of_ptr p ptr = Some i →
  ptr = Pool.slot_ptr p (Z.of_nat i) ∧ (i < length (mSlots p))%nat.
Proof.
  unfold Pool.slot_of_ptr, Pool.slot_ptr. pose proof sizeof_pos as Hs.
  case_bool_decide as Hd; [|done]. destruct Hd as (Hd0 & Hmod & Hlt).
  intros [= <-].
  pose proof (Z.div_pos (ptr - mStorage p) (sizeof (T:=T)) Hd0 Hs) as Hq.
  assert (sizeof (T:=T) ≠ 0) as Hnz by lia.
  pose proof (Z.div_mod (ptr - mStorage p) (sizeof (T:=T)) Hnz) as Hdm.
  rewrite Z2Nat.id by done. split; [lia|lia].
Qed.

Lemma load_object_slot (p : pool) i s :
  0 ≤ i → mSlots p !! Z.to_nat i = Some s →
  Pool.load_object p (Pool.slot_ptr p i) = Some (Pool.object_view s).
Proof.
  intros Hi Hs. unfold Pool.load_object.
  rewrite slot_of_ptr_slot_ptr by (apply lookup_lt_Some in Hs; lia).
  bind_simpl. by rewrite Hs.
Qed.

(** The release of a pointer through which an element can be read
    returns. *)
Lemma Release_load_object sr (p : pool) ptr :
  is_Some (Pool.load_object p ptr) → is_Some (Pool.Release sr p ptr).
Proof.
  unfold Pool.load_object. intros [e He].
  destruct (Pool.slot_of_ptr p ptr) as [i|] eqn:Hi; [|done].
  apply slot_of_ptr_Some in Hi as [-> Hi].
  unfold Pool.Release, Pool.ReleasePtr. rewrite ptr_diff_slot_ptr, ReleaseIdx_spec.
  destruct (Pool.IsNull _ _); [done|].
  unfold Pool.store_mNext_mIdx, Pool.GetNode.
  destruct (lookup_lt_is_Some_2 (mSlots p) (Z.to_nat (Pool.to_tIndex (Z.of_nat i))))
    as [slot ->]; [|done].
  pose proof (to_tIndex_range (Z.of_nat i)) as Hrange.
  pose proof tIndex_pow_ge as Hpow.
  assert (Pool.to_tIndex (Z.of_nat i) ≤ Z.of_nat i); [|lia].
  unfold Pool.to_tIndex. apply Z.mod_le; lia.
Qed.

(** The pointer [Acquire] returns, when it is not null, is the address of a
    slot, which holds the element. *)
Lemma Acquire_slot sa (p p1 : pool) e ptr :
  Pool.Acquire sa p e = Some (ptr, p1) → ptr ≠ 0 →
  ∃ i : nat, ptr = Pool.slot_ptr p1 (Z.of_nat i) ∧ mSlots p1 !! i = Some (AsElement e).
Proof.
  unfold Pool.Acquire. intros Hacq Hnn.
  destruct (Pool.AcquirePtr sa p) as [[ptr' p']|]; [|done]. bind_simpl in Hacq.
  rewrite bool_decide_eq_true_2 in Hacq by (intros ->; by injection Hacq as <- _).
  unfold Pool.store_object in Hacq.
  destruct (Pool.slot_of_ptr p' ptr') as [i|] eqn:Hi; [|done]. bind_simpl in Hacq.
  injection Hacq as <- <-.
  apply slot_of_ptr_Some in Hi as [Hptr Hi].
  exists i. split; [done|]. cbn [mSlots Pool.set_mSlots]. by apply list_lookup_insert_eq.
Qed.

Lemma store_object_slot (p : pool) i s e :
  0 ≤ i → mSlots p !! Z.to_nat i = Some s →
  Pool.store_object p (Pool.slot_ptr p i) e =
    Some (Pool.set_mSlots p (<[Z.to_nat i := AsElement e]> (mSlots p))).
Proof.
  intros Hi Hs. unfold Pool.store_object.
  by rewrite slot_of_ptr_slot_ptr by (apply lookup_lt_Some in Hs; lia).
Qed.

Lemma store_object_held (p : pool) held l i e :
  PoolInv.pool_inv p held l → 0 ≤ i < mCapacity p → Pool.slot_ptr p i ∈ held →
  Pool.store_object p (Pool.slot_ptr p i) e =
    Some (Pool.set_mSlots p (<[Z.to_nat i := AsElement e]> (mSlots p))) ∧
  PoolInv.pool_inv (Pool.set_mSlots p (<[Z.to_nat i := AsElement e]> (mSlots p))) held l.
Proof.
  intros Hinv Hi Hheld.
  pose proof (PoolInv.wf_slots _ (PoolInv.inv_wf _ _ _ Hinv)) as Hlen.
  destruct (lookup_lt_is_Some_2 (mSlots p) (Z.to_nat i)) as [s Hs]; [lia|].
  destruct (store_object_inv p held l _ e Hinv Hheld) as (p' & Hstore & _ & Hinv').
  rewrite (store_object_slot p i s e (proj1 Hi) Hs) in Hstore |- *.
  injection Hstore as <-. done.
Qed.

Lemma set_mSlots_same (p : pool) : Pool.set_mSlots p (mSlots p) = p.
Proof. by destruct p. Qed.

Lemma hold_nonnull (held : gset Z) ptr : ptr ≠ 0 → PoolInv.hold held ptr = {[ptr]} ∪ held.
Proof. intros. unfold PoolInv.hold. by rewrite bool_decide_eq_true_2. Qed.

(** An allowed operation returns, and keeps the invariant. *)
Lemma run_op_total op (p : pool) held l :
  PoolInv.pool_inv p held l → PoolInv.op_allowed held op →
  ∃ p' held' l', PoolInv.run_op op (p, held) = Some (p', held') ∧
                 PoolInv.pool_inv p' held' l'.
Proof.
  intros Hinv Hallowed. destruct op as [sched|sched e|sched ptr|sched ptr|ptr e];
    cbn [PoolInv.run_op PoolInv.op_allowed] in *.
  - destruct (AcquirePtr_inv sched p held l Hinv)
      as (ptr & p' & -> & [(-> & -> & ->)|(h & l' & -> & _ & Hnn & _ & _ & Hinv')]);
      bind_simpl.
    + eexists _, _, _. split; [done|]. done.
    + rewrite hold_nonnull by done. eauto.
  - unfold Pool.Acquire.
    destruct (AcquirePtr_inv sched p held l Hinv)
      as (ptr & p' & -> & [(-> & -> & ->)|(h & l' & -> & _ & Hnn & _ & _ & Hinv')]);
      bind_simpl.
    + eexists _, _, _. split; [done|]. done.
    + rewrite bool_decide_eq_true_2 by done.
      destruct (store_object_inv p' _ l' ptr e Hinv') as (p'' & -> & _ & Hinv'');
        [apply elem_of_union_l; by apply elem_of_singleton|].
      bind_simpl. rewrite hold_nonnull by done. eauto.
  - rewrite bool_decide_eq_true_2 by done.
    destruct (ReleasePtr_inv sched p held l ptr Hinv Hallowed)
      as (p' & i & -> & _ & _ & _ & Hinv').
    bind_simpl. eauto.
  - rewrite bool_decide_eq_true_2 by done. unfold Pool.Release.
    destruct (ReleasePtr_inv sched p held l ptr Hinv Hallowed)
      as (p' & i & -> & _ & _ & _ & Hinv').
    bind_simpl. eauto.
  - rewrite bool_decide_eq_true_2 by done.
    destruct (store_object_inv p held l ptr e Hinv Hallowed) as (p' & -> & _ & Hinv').
    bind_simpl. eauto.
Qed.

Lemma run_op_allowed op (p : pool) held st :
  PoolInv.run_op op (p, held) = Some st → PoolInv.op_allowed held op.
Proof.
  destruct op; cbn [PoolInv.run_op PoolInv.op_allowed]; try done;
    by case_bool_decide.
Qed.

Lemma run_ops_inv ops (p p' : pool) held held' l :
  PoolInv.pool_inv p held l →
  PoolInv.run_ops ops (p, held) = Some (p', held') →
  ∃ l', PoolInv.pool_inv p' held' l'.
Proof.
  revert p held l. induction ops as [|op ops IH]; intros p held l Hinv Hrun.
  - cbn [PoolInv.run_ops] in Hrun. simplify_eq. eauto.
  - cbn [PoolInv.run_ops] in Hrun.
    destruct (PoolInv.run_op op (p, held)) as [[p1 held1]|] eqn:Hop;
      bind_simpl in Hrun; [|done].
    destruct (run_op_total op p held l Hinv (run_op_allowed _ _ _ _ Hop))
      as (p1' & held1' & l1 & Hop' & Hinv1).
    rewrite Hop in Hop'. simplify_eq. eauto.
Qed.

(** C3.  In every state a pool reaches from its construction by acquires,
    releases of held pointers and writes into held slots, the walk from the
    head along the next indices ends at [NULL_IDX], visits no slot twice, and
    visits exactly the slots that are not held. *)
Theorem free_list_invariant scheds (alloc : tPoolAllocator T) (n : Z)
    (ops : list (PoolInv.tPoolOp T)) (p : pool) (held : gset Z) :
  0 ≤ n → 0 < alloc_address alloc →
  PoolInv.run scheds alloc n ops = Some (p, held) →
  ∃ l, PoolInv.free_list p = Some (l, Pool.NULL_IDX) ∧
       NoDup l ∧
       (∀ i, i ∈ l → 0 ≤ i < mCapacity p) ∧
       (∀ i, 0 ≤ i < mCapacity p → (i ∈ l ↔ Pool.slot_ptr p i ∉ held)).
Proof.
  intros Hn Halloc. unfold PoolInv.run. rewrite ctor_spec by done.
  bind_simpl. intros Hrun.
  pose proof max_capacity_bounds as [Hmax _].
  eapply run_ops_inv in Hrun as [l Hinv]; [|apply pool_inv_initial; [done|lia]].
  exists l. destruct Hinv as [[Hcap0 Hlen Hidx Htag] Hcap Hstorage Hchain Hnodup Hfree Hheld].
  split; [|split; [done|split; [|done]]].
  - apply free_chain_walk; [done..|].
    pose proof (free_chain_length _ _ _ Hcap0 Hchain Hnodup). lia.
  - by eapply free_chain_range.
Qed.

(** *** What the operations leave alone *)

Lemma AcquirePtr_capacity sched (p p' : pool) ptr :
  Pool.AcquirePtr sched p = Some (ptr, p') → mCapacity p' = mCapacity p.
Proof.
  unfold Pool.AcquirePtr. rewrite AcquireIdx_spec.
  destruct (Pool.IsNull p _); bind_simpl; [by intros [= _ <-]|].
  destruct (Pool.GetNode p _); bind_simpl; [|done]. by intros [= _ <-].
Qed.

Lemma store_object_capacity (p p' : pool) ptr e :
  Pool.store_object p ptr e = Some p' → mCapacity p' = mCapacity p.
Proof.
  unfold Pool.store_object. destruct (Pool.slot_of_ptr p ptr); bind_simpl; [|done].
  by intros [= <-].
Qed.

Lemma Acquire_capacity sched (p p' : pool) e ptr :
  Pool.Acquire sched p e = Some (ptr, p') → mCapacity p' = mCapacity p.
Proof.
  unfold Pool.Acquire.
  destruct (Pool.AcquirePtr sched p) as [[q p1]|] eqn:Hacq; bind_simpl; [|done].
  apply AcquirePtr_capacity in Hacq. case_bool_decide.
  - destruct (Pool.store_object p1 q e) as [p2|] eqn:Hstore; bind_simpl; [|done].
    apply store_object_capacity in Hstore. intros [= _ <-]. congruence.
  - intros [= _ <-]. done.
Qed.

Lemma ReleasePtr_capacity sched (p p' : pool) ptr :
  Pool.ReleasePtr sched p ptr = Some p' → mCapacity p' = mCapacity p.
Proof.
  unfold Pool.ReleasePtr. rewrite ReleaseIdx_spec.
  destruct (Pool.IsNull p _); [by intros [= <-]|].
  unfold Pool.store_mNext_mIdx. destruct (Pool.GetNode p _); bind_simpl; [|done].
  by intros [= <-].
Qed.

(** [AcquirePtr] on a pool whose [Empty()] is true. *)
Lemma AcquirePtr_Empty sched (p : pool) :
  Pool.Empty p = true → Pool.AcquirePtr sched p = Some (0, p).
Proof.
  unfold Pool.Empty. intros Hempty. unfold Pool.AcquirePtr.
  rewrite AcquireIdx_spec, Hempty. bind_simpl.
  by rewrite bool_decide_eq_false_2 by (intros ?; done).
Qed.

Lemma Acquire_Empty sched (p : pool) e :
  Pool.Empty p = true → Pool.Acquire sched p e = Some (0, p).
Proof.
  intros Hempty. unfold Pool.Acquire. rewrite AcquirePtr_Empty by done. bind_simpl.
  by rewrite bool_decide_eq_false_2 by (intros ?; done).
Qed.

Lemma max_capacity_lt : Pool.max_capacity < 2 ^ 32 - 1.
Proof.
  unfold Pool.max_capacity, Pool.tIndex_max.
  destruct tIndex_bits_cases as [-> | ->]; lia.
Qed.

(** *** Clients of a pool in a reachable state *)

Lemma union_difference_singleton (held : gset Z) x :
  x ∉ held → ({[x]} ∪ held) ∖ {[x]} = held.
Proof.
  intros Hx. apply set_eq. intros y.
  rewrite elem_of_difference, elem_of_union, elem_of_singleton. split.
  - by intros [[->|?] ?].
  - intros Hy. split; [by right|]. by intros ->.
Qed.

Lemma run_inv scheds (alloc : tPoolAllocator T) n ops (p : pool) held :
  0 ≤ n → 0 < alloc_address alloc →
  PoolInv.run scheds alloc n ops = Some (p, held) →
  ∃ l, PoolInv.pool_inv p held l.
Proof.
  intros Hn Halloc. unfold PoolInv.run. rewrite ctor_spec by done.
  bind_simpl. intros Hrun. pose proof max_capacity_bounds as [Hmax _].
  eapply run_ops_inv in Hrun; [done|apply pool_inv_initial; [done|lia]].
Qed.

Lemma Manages_slot_ptr (p : pool) i :
  0 ≤ i < mCapacity p → Pool.Manages p (Pool.slot_ptr p i) = true.
Proof.
  intros Hi. unfold Pool.Manages, Pool.slot_ptr. pose proof sizeof_pos.
  rewrite !bool_decide_eq_true_2 by nia. done.
Qed.

Lemma Empty_free_chain (p : pool) held l :
  PoolInv.pool_inv p held l → Pool.Empty p = bool_decide (l = []).
Proof.
  intros [_ Hcap _ Hchain _ _ _]. pose proof max_capacity_bounds as [_ Hmax].
  unfold Pool.Empty, Pool.IsNull.
  apply free_chain_inv in Hchain as [[-> ->]|[Hhead (node & l' & -> & _)]].
  - rewrite !bool_decide_eq_true_2; [done..|lia].
  - rewrite !bool_decide_eq_false_2; [done..|lia].
Qed.

Lemma free_chain_head (p : pool) idx h l :
  PoolInv.free_chain p idx (h :: l) → idx = h.
Proof. intros Hchain. by apply free_chain_inv in Hchain as [[_ ?]|[_ (? & ? & [= -> _] & _)]]. Qed.

Lemma AcquirePtr_tag sched (p p' : pool) ptr :
  Pool.AcquirePtr sched p = Some (ptr, p') → ptr ≠ 0 →
  mTag (mHead p') = Pool.to_tIndex (mTag (mHead p) + 1).
Proof.
  unfold Pool.AcquirePtr. rewrite AcquireIdx_spec.
  destruct (Pool.IsNull p _); bind_simpl.
  - rewrite bool_decide_eq_false_2 by (intros ?; done). by intros [= <- _].
  - destruct (Pool.GetNode p _) as [node|]; bind_simpl; [|done].
    by intros [= _ <-].
Qed.

Lemma ReleasePtr_tag sched (p p' : pool) ptr :
  PoolInv.pool_wf p → Pool.ReleasePtr sched p ptr = Some p' →
  mTag (mHead p') = mTag (mHead p).
Proof.
  intros [_ _ _ Htag]. unfold Pool.ReleasePtr. rewrite ReleaseIdx_spec.
  destruct (Pool.IsNull p _); [by intros [= <-]|].
  destruct (Pool.store_mNext_mIdx p _ _) as [p1|] eqn:Hstore; bind_simpl; [|done].
  intros [= <-]. cbn [mHead Pool.set_mHead Pool.mk_tIndexTag mTag].
  by apply to_tIndex_small.
Qed.

Lemma free_list_chain (p : pool) held l :
  PoolInv.pool_inv p held l → PoolInv.free_list p = Some (l, Pool.NULL_IDX).
Proof.
  intros [[Hcap0 _ _ _] Hcap _ Hchain Hnodup _ _].
  apply free_chain_walk; [done..|].
  pose proof (free_chain_length _ _ _ Hcap0 Hchain Hnodup). lia.
Qed.

(** The walk of [Full] along a free-list. *)
Lemma Full_loop_chain (p : pool) l n cur :
  mCapacity p ≤ Pool.max_capacity →
  PoolInv.free_chain p (mIdx cur) l →
  Pool.Full_loop n p cur = Some (bool_decide (n ≤ length l)%nat).
Proof.
  intros Hcap. pose proof max_capacity_bounds as [_ Hmax].
  revert l cur. induction n as [|n IH]; intros l cur Hchain.
  - cbn [Pool.Full_loop]. by rewrite bool_decide_eq_true_2 by lia.
  - cbn [Pool.Full_loop]. unfold Pool.IsNull.
    apply free_chain_inv in Hchain as [[Hnull ->]|[Hidx (node & l' & -> & Hnode & Hchain)]].
    + rewrite bool_decide_eq_true_2 by lia.
      by rewrite bool_decide_eq_false_2 by (simpl; lia).
    + rewrite bool_decide_eq_false_2 by lia. rewrite Hnode. bind_simpl.
      rewrite (IH l' _ Hchain). f_equal. apply bool_decide_ext. simpl. lia.
Qed.

Lemma Full_pool_inv (p : pool) held l :
  PoolInv.pool_inv p held l →
  Pool.Full p = Some (bool_decide (Z.to_nat (mCapacity p) ≤ length l)%nat).
Proof. intros Hinv. unfold Pool.Full. apply Full_loop_chain; apply Hinv. Qed.

(** The free-list has every slot exactly when no pointer is held. *)
Lemma all_free_iff (p : pool) held l :
  PoolInv.pool_inv p held l → (mCapacity p ≤ Z.of_nat (length l) ↔ held = ∅).
Proof.
  intros [[Hcap0 _ _ _] Hcap _ Hchain Hnodup Hfree Hheld].
  pose proof (free_chain_range _ _ _ Hchain) as Hrange. split.
  - intros Hlen.
    assert (l ≡ₚ seqZ 0 (mCapacity p)) as Hperm.
    { apply submseteq_length_Permutation.
      - apply NoDup_submseteq; [done|]. intros i Hi. apply elem_of_seqZ.
        specialize (Hrange i Hi). lia.
      - rewrite length_seqZ. lia. }
    apply elem_of_equiv_empty_L. intros ptr Hptr.
    destruct (Hheld ptr Hptr) as (i & Hi & ->).
    assert (i ∈ l) as Hin by (rewrite Hperm; apply elem_of_seqZ; lia).
    by apply (Hfree i Hi) in Hin.
  - intros ->.
    assert (seqZ 0 (mCapacity p) ⊆+ l) as Hsub.
    { apply NoDup_submseteq; [apply NoDup_seqZ|]. intros i Hi.
      apply elem_of_seqZ in Hi. apply Hfree; [lia|]. apply not_elem_of_empty. }
    apply submseteq_length in Hsub. rewrite length_seqZ in Hsub. lia.
Qed.

(** X2.  In every reachable state [AcquirePtr] returns: either the null
    pointer, with the pool unchanged and [Empty()] true, or the address of a
    slot of the slab that no client holds, which [Manages] accepts; the
    capacity, the storage and the content of the slab stay as they were. *)
Theorem pool_acquire_fresh scheds (alloc : tPoolAllocator T) (n : Z)
    (ops : list (PoolInv.tPoolOp T)) (p : pool) (held : gset Z) sched :
  0 ≤ n → 0 < alloc_address alloc →
  PoolInv.run scheds alloc n ops = Some (p, held) →
  ∃ ptr p', Pool.AcquirePtr sched p = Some (ptr, p') ∧
    (ptr = 0 → p' = p ∧ Pool.Empty p = true) ∧
    (ptr ≠ 0 →
       (ptr ∉ held) ∧ Pool.Manages p ptr = true ∧ Pool.Empty p = false ∧
       (∃ i, 0 ≤ i < mCapacity p ∧ ptr = Pool.slot_ptr p i) ∧
       mCapacity p' = mCapacity p ∧ mStorage p' = mStorage p ∧ mSlots p' = mSlots p).
Proof.
  intros Hn Halloc Hrun. destruct (run_inv _ _ _ _ _ _ Hn Halloc Hrun) as [l Hinv].
  pose proof (Empty_free_chain _ _ _ Hinv) as Hempty.
  pose proof (free_chain_range _ _ _ (PoolInv.inv_chain _ _ _ Hinv)) as Hrange.
  destruct (AcquirePtr_inv sched p held l Hinv)
    as (ptr & p' & Hacq & [(-> & -> & ->)|(h & l' & -> & -> & Hnn & Hnh & [hd ->] & _)]).
  - exists 0, p. split; [done|]. split; [|done]. intros _. by rewrite Hempty.
  - eexists _, _. split; [exact Hacq|]. split; [done|]. intros _.
    assert (0 ≤ h < mCapacity p) as Hh by (apply Hrange, elem_of_cons; by left).
    split; [done|]. split; [by apply Manages_slot_ptr|].
    split; [by rewrite Hempty|]. split; [by exists h|]. done.
Qed.

(** X3.  In every reachable state [Full()] returns, and it returns true
    exactly when no pointer handed out by the pool is still held. *)
Theorem pool_full_iff_none_held scheds (alloc : tPoolAllocator T) (n : Z)
    (ops : list (PoolInv.tPoolOp T)) (p : pool) (held : gset Z) :
  0 ≤ n → 0 < alloc_address alloc →
  PoolInv.run scheds alloc n ops = Some (p, held) →
  Pool.Full p = Some (bool_decide (held = ∅)).
Proof.
  intros Hn Halloc Hrun. destruct (run_inv _ _ _ _ _ _ Hn Halloc Hrun) as [l Hinv].
  unfold Pool.Full.
  rewrite (Full_loop_chain p l) by apply Hinv. f_equal. apply bool_decide_ext.
  rewrite <- (all_free_iff p held l Hinv).
  pose proof (PoolInv.wf_capacity _ (PoolInv.inv_wf _ _ _ Hinv)). lia.
Qed.

(** X4.  In every reachable state [Empty()] is true exactly when every
    slot of the slab is held by a client. *)
Theorem pool_empty_iff_all_held scheds (alloc : tPoolAllocator T) (n : Z)
    (ops : list (PoolInv.tPoolOp T)) (p : pool) (held : gset Z) :
  0 ≤ n → 0 < alloc_address alloc →
  PoolInv.run scheds alloc n ops = Some (p, held) →
  Pool.Empty p = true ↔ ∀ i, 0 ≤ i < mCapacity p → Pool.slot_ptr p i ∈ held.
Proof.
  intros Hn Halloc Hrun. destruct (run_inv _ _ _ _ _ _ Hn Halloc Hrun) as [l Hinv].
  rewrite (Empty_free_chain _ _ _ Hinv), bool_decide_eq_true.
  pose proof (free_chain_range _ _ _ (PoolInv.inv_chain _ _ _ Hinv)) as Hrange.
  pose proof (PoolInv.inv_free _ _ _ Hinv) as Hfree. split.
  - intros -> i Hi. destruct (decide (Pool.slot_ptr p i ∈ held)) as [|Hni]; [done|].
    apply (Hfree i Hi) in Hni. by apply elem_of_nil in Hni.
  - intros Hall. destruct l as [|h l]; [done|].
    assert (h ∈ h :: l) as Hin by (apply elem_of_cons; by left).
    pose proof (Hrange h Hin) as Hh. apply (Hfree h Hh) in Hin.
    destruct Hin. by apply Hall.
Qed.

(** X5.  The free-list is last in, first out: in every reachable state the
    release of a held pointer returns and leaves a pool that is not empty,
    and the next [AcquirePtr] returns that very pointer. *)
Theorem pool_release_then_acquire scheds (alloc : tPoolAllocator T) (n : Z)
    (ops : list (PoolInv.tPoolOp T)) (p : pool) (held : gset Z) ptr s1 s2 :
  0 ≤ n → 0 < alloc_address alloc →
  PoolInv.run scheds alloc n ops = Some (p, held) →
  ptr ∈ held →
  ∃ p1 p2, Pool.ReleasePtr s1 p ptr = Some p1 ∧ Pool.Empty p1 = false ∧
           Pool.AcquirePtr s2 p1 = Some (ptr, p2).
Proof.
  intros Hn Halloc Hrun Hptr. destruct (run_inv _ _ _ _ _ _ Hn Halloc Hrun) as [l Hinv].
  destruct (ReleasePtr_inv s1 p held l ptr Hinv Hptr)
    as (p1 & i & Hrel & -> & Hi & [node (Hc & Hs & Hslots)] & Hinv1).
  destruct (AcquirePtr_inv s2 p1 _ _ Hinv1)
    as (ptr' & p2 & Hacq & [(? & _)|(h & l' & [= <- <-] & -> & _)]); [done|].
  exists p1, p2. split; [done|]. split; [by rewrite (Empty_free_chain _ _ _ Hinv1)|].
  rewrite Hacq. unfold Pool.slot_ptr. by rewrite Hs.
Qed.

(** X6.  An acquire followed by the release of the pointer it returned
    gives back the free-list there was before, with the same head slot; the
    tag of the head is one more, modulo the range of the tag type. *)
Theorem pool_acquire_then_release scheds (alloc : tPoolAllocator T) (n : Z)
    (ops : list (PoolInv.tPoolOp T)) (p p1 : pool) (held : gset Z) ptr s1 s2 :
  0 ≤ n → 0 < alloc_address alloc →
  PoolInv.run scheds alloc n ops = Some (p, held) →
  Pool.AcquirePtr s1 p = Some (ptr, p1) → ptr ≠ 0 →
  ∃ p2, Pool.ReleasePtr s2 p1 ptr = Some p2 ∧
        PoolInv.free_list p2 = PoolInv.free_list p ∧
        mIdx (mHead p2) = mIdx (mHead p) ∧
        mTag (mHead p2) = (mTag (mHead p) + 1) mod 2 ^ Pool.tIndex_bits.
Proof.
  intros Hn Halloc Hrun Hacq Hnn.
  destruct (run_inv _ _ _ _ _ _ Hn Halloc Hrun) as [l Hinv].
  pose proof (AcquirePtr_tag _ _ _ _ Hacq Hnn) as Htag1.
  destruct (AcquirePtr_inv s1 p held l Hinv)
    as (ptr' & p1' & Hacq' & [(_ & -> & _)|(h & l' & -> & -> & _ & Hnh & [hd ->] & Hinv1)]);
    rewrite Hacq in Hacq'; simplify_eq.
  destruct (ReleasePtr_inv s2 _ _ l' (Pool.slot_ptr p h) Hinv1)
    as (p2 & i & Hrel & Hptr & Hi & _ & Hinv2);
    [apply elem_of_union_l; by apply elem_of_singleton|].
  change (Pool.slot_ptr (Pool.set_mHead p hd) i) with (Pool.slot_ptr p i) in Hptr.
  apply slot_ptr_inj in Hptr as <-.
  rewrite union_difference_singleton in Hinv2 by done.
  exists p2. split; [done|].
  split; [by rewrite (free_list_chain _ _ _ Hinv2), (free_list_chain _ _ _ Hinv)|].
  split.
  - rewrite (free_chain_head _ _ _ _ (PoolInv.inv_chain _ _ _ Hinv2)).
    by rewrite (free_chain_head _ _ _ _ (PoolInv.inv_chain _ _ _ Hinv)).
  - rewrite (ReleasePtr_tag _ _ _ _ (PoolInv.inv_wf _ _ _ Hinv1) Hrel). exact Htag1.
Qed.

Lemma load_object_update (p p' : pool) i j s :
  PoolInv.slot_update p p' j s → 0 ≤ i → 0 ≤ j → i ≠ j →
  Pool.load_object p' (Pool.slot_ptr p i) = Pool.load_object p (Pool.slot_ptr p i).
Proof.
  intros (_ & Hst & Hsl) Hi Hj Hne. pose proof sizeof_pos.
  unfold Pool.load_object, Pool.slot_of_ptr, Pool.slot_ptr.
  rewrite Hst, Hsl, length_insert.
  replace (mStorage p + i * sizeof - mStorage p) with (i * sizeof) by lia.
  rewrite Z.div_mul by lia. case_bool_decide; [|done]. bind_simpl.
  rewrite list_lookup_insert_ne; [done|lia].
Qed.

(** An operation that is not given [ptr] leaves the slot at [ptr] alone. *)
Lemma run_op_frame op (p p' : pool) held held' l ptr e :
  PoolInv.pool_inv p held l → ptr ∈ held → PoolInv.op_target op ≠ Some ptr →
  Pool.load_object p ptr = Some e →
  PoolInv.run_op op (p, held) = Some (p', held') →
  ptr ∈ held' ∧ Pool.load_object p' ptr = Some e.
Proof.
  intros Hinv Hptr Htarget Hload Hop.
  pose proof (run_op_allowed _ _ _ _ Hop) as Hallowed.
  destruct (PoolInv.inv_held _ _ _ Hinv ptr Hptr) as (i & Hi & ->).
  destruct op as [sched|sched e'|sched ptr'|sched ptr'|ptr' e'];
    cbn [PoolInv.run_op PoolInv.op_allowed PoolInv.op_target] in *.
  - destruct (AcquirePtr_inv sched p held l Hinv)
      as (q & p1 & Hacq & [(-> & -> & ->)|(h & l' & -> & -> & Hnn & _ & [hd ->] & _)]);
      rewrite Hacq in Hop; bind_simpl in Hop; simplify_eq; [done|].
    rewrite hold_nonnull by done. split; [by apply elem_of_union_r|done].
  - destruct (Acquire_inv sched p held l e' Hinv)
      as (q & p1 & Hacq & [(-> & -> & ->)|(h & l' & -> & Hh & -> & Hnn & Hnh & Hc & Hs & Hsl & _)]);
      rewrite Hacq in Hop; bind_simpl in Hop; simplify_eq; [done|].
    rewrite hold_nonnull by done. split; [by apply elem_of_union_r|].
    rewrite <- Hload. apply (load_object_update p p' i h (AsElement e')); [done|lia|lia|].
    intros ->. done.
  - rewrite bool_decide_eq_true_2 in Hop by done.
    destruct (ReleasePtr_inv sched p held l ptr' Hinv Hallowed)
      as (p1 & j & Hrel & -> & Hj & [node Hupd] & _).
    rewrite Hrel in Hop. bind_simpl in Hop. simplify_eq.
    assert (i ≠ j) as Hne by (intros ->; done).
    split; [apply elem_of_difference; split; [done|]; by apply not_elem_of_singleton;
            intros ?%slot_ptr_inj|].
    rewrite <- Hload. by apply (load_object_update p p' i j (AsNode node)); [|lia|lia|].
  - rewrite bool_decide_eq_true_2 in Hop by done. unfold Pool.Release in Hop.
    destruct (ReleasePtr_inv sched p held l ptr' Hinv Hallowed)
      as (p1 & j & Hrel & -> & Hj & [node Hupd] & _).
    rewrite Hrel in Hop. bind_simpl in Hop. simplify_eq.
    assert (i ≠ j) as Hne by (intros ->; done).
    split; [apply elem_of_difference; split; [done|]; by apply not_elem_of_singleton;
            intros ?%slot_ptr_inj|].
    rewrite <- Hload. by apply (load_object_update p p' i j (AsNode node)); [|lia|lia|].
  - rewrite bool_decide_eq_true_2 in Hop by done.
    destruct (store_object_inv p held l ptr' e' Hinv Hallowed)
      as (p1 & Hstore & (j & Hj & -> & Hupd) & _).
    rewrite Hstore in Hop. bind_simpl in Hop. simplify_eq.
    assert (i ≠ j) as Hne by (intros ->; done).
    split; [done|].
    rewrite <- Hload. by apply (load_object_update p p' i j (AsElement e')); [|lia|lia|].
Qed.

Lemma run_ops_frame ops (p p' : pool) held held' l ptr e :
  PoolInv.pool_inv p held l → ptr ∈ held →
  Forall (λ op, PoolInv.op_target op ≠ Some ptr) ops →
  Pool.load_object p ptr = Some e →
  PoolInv.run_ops ops (p, held) = Some (p', held') →
  ptr ∈ held' ∧ Pool.load_object p' ptr = Some e.
Proof.
  revert p held l. induction ops as [|op ops IH]; intros p held l Hinv Hptr Hall Hload Hrun.
  - cbn [PoolInv.run_ops] in Hrun. by simplify_eq.
  - apply Forall_cons in Hall as [Hop Hall]. cbn [PoolInv.run_ops] in Hrun.
    destruct (PoolInv.run_op op (p, held)) as [[p1 held1]|] eqn:Hrun1;
      bind_simpl in Hrun; [|done].
    destruct (run_op_frame _ _ _ _ _ _ _ _ Hinv Hptr Hop Hload Hrun1) as [Hptr1 Hload1].
    destruct (run_op_total op p held l Hinv (run_op_allowed _ _ _ _ Hrun1))
      as (p1' & held1' & l1 & Hrun1' & Hinv1).
    rewrite Hrun1 in Hrun1'. simplify_eq. eauto.
Qed.

(** X7.  The element [Acquire] constructs in the slot it hands out is read
    back through the pointer, and it stays there through every later
    operation on the pool that is not given that pointer: acquires, and
    releases and writes through other pointers. *)
Theorem acquired_element_kept scheds (alloc : tPoolAllocator T) (n : Z)
    (ops1 ops2 : list (PoolInv.tPoolOp T)) (p p1 p2 : pool) (held held2 : gset Z)
    sched (e : T) ptr :
  0 ≤ n → 0 < alloc_address alloc →
  PoolInv.run scheds alloc n ops1 = Some (p, held) →
  Pool.Acquire sched p e = Some (ptr, p1) → ptr ≠ 0 →
  Forall (λ op, PoolInv.op_target op ≠ Some ptr) ops2 →
  PoolInv.run_ops ops2 (p1, {[ptr]} ∪ held) = Some (p2, held2) →
  Pool.load_object p1 ptr = Some e ∧ ptr ∈ held2 ∧ Pool.load_object p2 ptr = Some e.
Proof.
  intros Hn Halloc Hrun Hacq Hnn Hall Hrun2.
  destruct (run_inv _ _ _ _ _ _ Hn Halloc Hrun) as [l Hinv].
  destruct (Acquire_inv sched p held l e Hinv)
    as (q & p1' & Hacq' & [(_ & -> & _)|(h & l' & -> & Hh & -> & _ & _ & Hc & Hs & Hsl & Hinv1)]);
    rewrite Hacq in Hacq'; injection Hacq' as -> <-; [done|].
  assert (Pool.load_object p1 (Pool.slot_ptr p h) = Some e) as Hload.
  { replace (Pool.slot_ptr p h) with (Pool.slot_ptr p1 h)
      by (unfold Pool.slot_ptr; by rewrite Hs).
    rewrite (load_object_slot p1 h (AsElement e)); [done|lia|].
    rewrite Hsl. apply list_lookup_insert_eq.
    pose proof (PoolInv.wf_slots _ (PoolInv.inv_wf _ _ _ Hinv)). lia. }
  split; [done|].
  eapply run_ops_frame; [exact Hinv1| |done..].
  apply elem_of_union_l. by apply elem_of_singleton.
Qed.


(** X9.  [ReleasePtr] does not look whether the slot is free already.  When
    a held pointer is released twice the slot is linked to itself at the
    head of the free-list, and the next two [AcquirePtr] both return that
    pointer. *)
Theorem pool_double_release scheds (alloc : tPoolAllocator T) (n : Z)
    (ops : list (PoolInv.tPoolOp T)) (p : pool) (held : gset Z) ptr s1 s2 s3 s4 :
  0 ≤ n → 0 < alloc_address alloc →
  PoolInv.run scheds alloc n ops = Some (p, held) →
  ptr ∈ held →
  ∃ p1 p2 p3 p4 node,
    Pool.ReleasePtr s1 p ptr = Some p1 ∧ Pool.ReleasePtr s2 p1 ptr = Some p2 ∧
    Pool.GetNode p2 (mIdx (mHead p2)) = Some node ∧
    mIdx (mNext node) = mIdx (mHead p2) ∧
    Pool.AcquirePtr s3 p2 = Some (ptr, p3) ∧ Pool.AcquirePtr s4 p3 = Some (ptr, p4).
Proof.
  intros Hn Halloc Hrun Hptr. destruct (run_inv _ _ _ _ _ _ Hn Halloc Hrun) as [l Hinv].
  destruct (ReleasePtr_inv s1 p held l ptr Hinv Hptr)
    as (p1 & i & Hrel & -> & Hi & [node (Hc & Hs & Hslots)] & Hinv1).
  pose proof max_capacity_bounds as [_ Hmax]. pose proof NULL_IDX_range as Hnull.
  pose proof (PoolInv.inv_capacity _ _ _ Hinv) as Hcap.
  pose proof (PoolInv.wf_slots _ (PoolInv.inv_wf _ _ _ Hinv)) as Hlen.
  pose proof (free_chain_head _ _ _ _ (PoolInv.inv_chain _ _ _ Hinv1)) as Hhead.
  assert (Pool.slot_ptr p i = Pool.slot_ptr p1 i) as Hp1
    by (unfold Pool.slot_ptr; by rewrite Hs).
  assert (Pool.to_tIndex i = i) as Hti by (apply to_tIndex_small; lia).
  destruct (lookup_lt_is_Some_2 (mSlots p1) (Z.to_nat i)) as [s1' Hs1];
    [rewrite Hslots, length_insert; lia|].
  set (slots2 := <[Z.to_nat i := AsNode {| mNext := {| mIdx := i; mTag := mTag (mNext (Pool.node_view s1')) |} |}]> (mSlots p1)).
  set (p2 := Pool.set_mHead (Pool.set_mSlots p1 slots2)
               (Pool.mk_tIndexTag i (mTag (mHead p1)))).
  assert (Pool.ReleasePtr s2 p1 (Pool.slot_ptr p i) = Some p2) as Hrel2.
  { rewrite Hp1. unfold Pool.ReleasePtr.
    rewrite ptr_diff_slot_ptr, Hti, ReleaseIdx_spec.
    unfold Pool.IsNull. rewrite bool_decide_eq_false_2 by lia.
    unfold Pool.store_mNext_mIdx, Pool.GetNode. rewrite Hs1, Hhead.
    cbn [fmap option_fmap option_map mbind option_bind]. done. }
  assert (Pool.GetNode p2 i =
          Some {| mNext := {| mIdx := i; mTag := mTag (mNext (Pool.node_view s1')) |} |})
    as Hnode2.
  { unfold Pool.GetNode, p2, slots2. cbn [mSlots Pool.set_mHead Pool.set_mSlots].
    rewrite list_lookup_insert_eq; [done|]. apply lookup_lt_Some in Hs1. lia. }
  assert (∀ sched tag, let q := Pool.set_mHead p2 (Pool.mk_tIndexTag i tag) in
            Pool.AcquirePtr sched q =
              Some (Pool.slot_ptr p i,
                    Pool.set_mHead p2 (Pool.mk_tIndexTag i (Pool.to_tIndex tag + 1))))
    as Hacq.
  { intros sched tag q. unfold Pool.AcquirePtr. rewrite AcquireIdx_spec.
    unfold Pool.IsNull, q.
    cbn [mHead mCapacity Pool.set_mHead Pool.set_mSlots Pool.mk_tIndexTag mIdx mTag].
    rewrite Hti. rewrite bool_decide_eq_false_2 by (change (mCapacity p2) with (mCapacity p1); lia).
    change (Pool.GetNode (Pool.set_mHead p2 ?h) i) with (Pool.GetNode p2 i).
    rewrite Hnode2. bind_simpl. cbn [mNext mIdx].
    rewrite bool_decide_eq_true_2 by lia.
    unfold Pool.slot_ptr. change (mStorage (Pool.set_mHead _ _)) with (mStorage p1).
    by rewrite Hs. }
  eexists p1, p2, _, _, _. split; [done|]. split; [done|].
  assert (mIdx (mHead p2) = i) as Hhead2 by (unfold p2; cbn; exact Hti).
  rewrite Hhead2. split; [exact Hnode2|]. split; [done|].
  split.
  - specialize (Hacq s3 (mTag (mHead p1))). cbn zeta in Hacq.
    replace (Pool.set_mHead p2 (Pool.mk_tIndexTag i (mTag (mHead p1)))) with p2 in Hacq
      by done.
    exact Hacq.
  - apply Hacq.
Qed.

Lemma cycle_inv k s1 s2 (p : pool) held h l :
  PoolInv.pool_inv p held (h :: l) →
  ∃ p', PoolInv.cycle k s1 s2 p = Some p' ∧ PoolInv.pool_inv p' held (h :: l) ∧
        mTag (mHead p') = (mTag (mHead p) + Z.of_nat k) mod 2 ^ Pool.tIndex_bits.
Proof.
  revert p. induction k as [|k IH]; intros p Hinv.
  - exists p. split; [done|]. split; [done|].
    rewrite Z.add_0_r, Z.mod_small; [done|]. apply Hinv.
  - cbn [PoolInv.cycle].
    destruct (AcquirePtr_inv s1 p held (h :: l) Hinv)
      as (ptr & p1 & Hacq & [(? & _)|(h' & l' & [= <- <-] & -> & Hnn & Hnh & [hd ->] & Hinv1)]);
      [done|].
    pose proof (AcquirePtr_tag _ _ _ _ Hacq Hnn) as Htag1.
    rewrite Hacq. bind_simpl.
    destruct (ReleasePtr_inv s2 _ _ l (Pool.slot_ptr p h) Hinv1)
      as (p2 & i & Hrel & Hptr & Hi & _ & Hinv2);
      [apply elem_of_union_l; by apply elem_of_singleton|].
    change (Pool.slot_ptr (Pool.set_mHead p hd) i) with (Pool.slot_ptr p i) in Hptr.
    apply slot_ptr_inj in Hptr as <-.
    rewrite union_difference_singleton in Hinv2 by done.
    pose proof (ReleasePtr_tag _ _ _ _ (PoolInv.inv_wf _ _ _ Hinv1) Hrel) as Htag2.
    rewrite Hrel. bind_simpl.
    destruct (IH p2 Hinv2) as (p' & Hcycle & Hinv' & Htag').
    exists p'. split; [done|]. split; [done|].
    rewrite Htag', Htag2, Htag1. unfold Pool.to_tIndex.
    rewrite Zplus_mod_idemp_l. f_equal. lia.
Qed.

(** X10.  The tag that guards the head of the free-list has a period: [k]
    times an acquire and the release of the pointer it returned leave the
    free-list as it was and the tag of the head [k] further, modulo [2^w] for
    a tag of [w] bits; after [2^w] of them the head is the very value it
    was, and an exchange that expects the head loaded before them would
    succeed. *)
Theorem pool_tag_period scheds (alloc : tPoolAllocator T) (n : Z)
    (ops : list (PoolInv.tPoolOp T)) (p : pool) (held : gset Z) s1 s2 (k : nat) :
  0 ≤ n → 0 < alloc_address alloc →
  PoolInv.run scheds alloc n ops = Some (p, held) →
  Pool.Empty p = false →
  ∃ p', PoolInv.cycle k s1 s2 p = Some p' ∧
        PoolInv.free_list p' = PoolInv.free_list p ∧
        mIdx (mHead p') = mIdx (mHead p) ∧
        mTag (mHead p') = (mTag (mHead p) + Z.of_nat k) mod 2 ^ Pool.tIndex_bits ∧
        (Z.of_nat k = 2 ^ Pool.tIndex_bits → mHead p' = mHead p).
Proof.
  intros Hn Halloc Hrun Hempty.
  destruct (run_inv _ _ _ _ _ _ Hn Halloc Hrun) as [l Hinv].
  rewrite (Empty_free_chain _ _ _ Hinv) in Hempty.
  destruct l as [|h l]; [done|].
  destruct (cycle_inv k s1 s2 p held h l Hinv) as (p' & Hcycle & Hinv' & Htag).
  exists p'. split; [done|].
  split; [by rewrite (free_list_chain _ _ _ Hinv'), (free_list_chain _ _ _ Hinv)|].
  assert (mIdx (mHead p') = mIdx (mHead p)) as Hidx.
  { rewrite (free_chain_head _ _ _ _ (PoolInv.inv_chain _ _ _ Hinv')).
    by rewrite (free_chain_head _ _ _ _ (PoolInv.inv_chain _ _ _ Hinv)). }
  split; [done|]. split; [done|]. intros Hk.
  rewrite Hk in Htag.
  replace (mTag (mHead p) + 2 ^ Pool.tIndex_bits)
    with (mTag (mHead p) + 1 * 2 ^ Pool.tIndex_bits) in Htag by lia.
  rewrite Z_mod_plus_full, Z.mod_small in Htag
    by apply (PoolInv.wf_head_tag _ (PoolInv.inv_wf _ _ _ Hinv)).
  destruct (mHead p'), (mHead p). simpl in *. congruence.
Qed.

(** X11.  The retry loops of the pool when another thread has replaced the
    head since this one loaded it: [head_tmp] is the head that was loaded and
    [mHead p] the head there is now.  The first exchange fails, whatever the
    schedule and also when only the tag differs, and the loop goes on as the
    operation does that starts from the head there is now: nothing of the
    stale head is left in the result. *)
Theorem pool_stale_head_retry b sched (p : pool) (head_tmp : tIndexTag) (index : Z) :
  head_tmp ≠ mHead p →
  Pool.IsNull p (mIdx head_tmp) = false → is_Some (Pool.GetNode p (mIdx head_tmp)) →
  Pool.IsNull p index = false → is_Some (Pool.GetNode p index) →
  Pool.AcquireIdx_loop (b :: sched) p head_tmp = Pool.AcquireIdx sched p ∧
  Pool.ReleaseIdx_loop (b :: sched) p index head_tmp = Pool.ReleaseIdx sched p index.
Proof.
  intros Hne Hnull [node Hnode] Hindex [n Hn]. split.
  - cbn [Pool.AcquireIdx_loop]. rewrite Hnull, Hnode. bind_simpl. cbn [hd].
    rewrite compare_exchange_weak_differs by done.
    by rewrite set_mHead_same.
  - unfold Pool.ReleaseIdx. rewrite Hindex. cbn [Pool.ReleaseIdx_loop].
    unfold Pool.store_mNext_mIdx at 1. rewrite Hn. bind_simpl. cbn [hd].
    set (p1 := Pool.set_mSlots p _).
    change (mHead p1) with (mHead p).
    rewrite compare_exchange_weak_differs by done.
    change (Pool.set_mHead p1 (mHead p)) with (Pool.set_mHead p1 (mHead p1)).
    rewrite set_mHead_same.
    change (mHead p) with (mHead p1) at 1. rewrite !ReleaseIdx_loop_spec.
    change (mHead p1) with (mHead p).
    unfold Pool.store_mNext_mIdx, Pool.GetNode in *.
    destruct (mSlots p !! Z.to_nat index) as [slot|] eqn:Hslot; [|done].
    apply lookup_lt_Some in Hslot as Hlt.
    subst p1. cbn [mSlots Pool.set_mSlots].
    rewrite list_lookup_insert_eq by done.
    cbn [fmap option_fmap option_map mbind option_bind Pool.node_view mNext mTag] in *.
    rewrite list_insert_insert_eq. by simplify_eq.
Qed.

(** X12.  A move hands the whole state of the source to the pool assigned
    to and leaves the source as a pool of capacity 0: empty and full at once,
    its [AcquirePtr] returns the null pointer and its [ReleasePtr] does
    nothing, whatever the pointer. *)
Theorem pool_move_assign sched (this rhs : pool) (ptr : Z) :
  ∃ rhs', Pool.move_assign this rhs = (rhs, rhs') ∧
          Pool.GetCapacity rhs' = 0 ∧ Pool.Empty rhs' = true ∧
          Pool.Full rhs' = Some true ∧
          Pool.AcquirePtr sched rhs' = Some (0, rhs') ∧
          Pool.ReleasePtr sched rhs' ptr = Some rhs'.
Proof.
  pose proof NULL_IDX_range as Hnull. pose proof to_tIndex_NULL_IDX as Hn.
  eexists. split; [by destruct rhs|]. split; [done|].
  assert (∀ q : pool, mCapacity q = 0 → mIdx (mHead q) = Pool.NULL_IDX →
            Pool.AcquirePtr sched q = Some (0, q)) as Hacq.
  { intros q Hq Hh. unfold Pool.AcquirePtr. rewrite AcquireIdx_spec.
    unfold Pool.IsNull. rewrite bool_decide_eq_true_2 by lia. bind_simpl.
    by rewrite bool_decide_eq_false_2 by (intros ?; done). }
  split; [|split; [done|split]].
  - unfold Pool.Empty, Pool.IsNull. cbn. rewrite Hn. apply bool_decide_eq_true_2. lia.
  - apply Hacq; [done|]. cbn. exact Hn.
  - unfold Pool.ReleasePtr. rewrite ReleaseIdx_spec. unfold Pool.IsNull.
    rewrite bool_decide_eq_true_2; [done|]. cbn [mCapacity].
    pose proof (to_tIndex_range (Pool.ptr_diff
      {| mHead := Pool.mk_tIndexTag Pool.NULL_IDX 0; mCapacity := 0; mStorage := 0;
         mSlots := [] |} ptr)). lia.
Qed.

End PoolFacts.

Section IntPoolExamples.
Local Existing Instance int_repr.

Lemma int_pool_3_wf : PoolInv.pool_wf int_pool_3.
Proof. split; vm_compute; intuition congruence. Qed.

Lemma pool_head_tag_policy_witness :
  PoolInv.pool_wf int_pool_3 ∧ 0 ≤ 1 ∧
  (Pool.IsNull int_pool_3 (mIdx (mHead int_pool_3)) = false →
   ∃ p', Pool.AcquireIdx [true] int_pool_3 = Some (mIdx (mHead int_pool_3), p') ∧
         mTag (mHead p') = (mTag (mHead int_pool_3) + 1) mod 2 ^ Pool.tIndex_bits ∧
         (mTag (mHead int_pool_3) < Pool.tIndex_max →
          mTag (mHead p') = mTag (mHead int_pool_3) + 1)) ∧
  (∃ p', Pool.ReleaseIdx [true] int_pool_3 1 = Some p' ∧
         mTag (mHead p') = mTag (mHead int_pool_3) ∧
         (Pool.IsNull int_pool_3 1 = false →
          mHead p' = {| mIdx := Pool.to_tIndex 1; mTag := mTag (mHead int_pool_3) |})).
Proof.
  split; [exact int_pool_3_wf|]. split; [lia|].
  apply (pool_head_tag_policy [true] int_pool_3 1); [exact int_pool_3_wf | lia].
Defined.


(** Pointers that are not the address of an element: five bytes below the
    slab the index is [-2], which is 65534 as a [tIndex], and nothing is
    released; a pointer further below whose index is 2 as a [tIndex], and one
    into the bytes of slot 2, release slot 2. *)
Example ReleasePtr_not_an_element :
  Pool.ptr_diff int_pool_3 4091 = -2 ∧
  Pool.to_tIndex (T:=Z) (Pool.ptr_diff int_pool_3 4091) = 65534 ∧
  Pool.ptr_diff int_pool_3_at_2_20 786441 = -65534 ∧
  Pool.to_tIndex (T:=Z) (Pool.ptr_diff int_pool_3_at_2_20 786441) = 2 ∧
  Pool.ReleasePtr [] int_pool_3_at_2_20 786441
    = Pool.ReleasePtr [] int_pool_3_at_2_20 (Pool.slot_ptr int_pool_3_at_2_20 2) ∧
  Pool.ReleasePtr [] int_pool_3 4105
    = Pool.ReleasePtr [] int_pool_3 (Pool.slot_ptr int_pool_3 2).
Proof. repeat split; vm_compute; reflexivity. Qed.

Example int_pool_3_ctor : Pool.ctor [] (zeroed_allocator 4096) 3 = Some int_pool_3.
Proof. reflexivity. Qed.

Lemma pool_capacity_clamp_witness :
  0 ≤ 3 ∧
  ∃ p, Pool.ctor [] (zeroed_allocator 4096) 3 = Some p ∧
       (8 ≤ sizeof (T:=Z) → Pool.GetCapacity p = Z.min 3 (2 ^ 32 - 2) ∧
                             Pool.NULL_IDX (T:=Z) = 2 ^ 32 - 1) ∧
       (sizeof (T:=Z) < 8 → Pool.GetCapacity p = Z.min 3 (2 ^ 16 - 2) ∧
                            Pool.NULL_IDX (T:=Z) = 2 ^ 16 - 1).
Proof.
  split; [lia|]. apply (pool_capacity_clamp [] (zeroed_allocator 4096) 3). lia.
Defined.

Lemma pool_initial_free_list_witness :
  0 ≤ 3 ∧
  ∃ p, Pool.ctor [] (zeroed_allocator 4096) 3 = Some p ∧
       PoolInv.free_list p = Some (reverse (seqZ 0 (mCapacity p)), Pool.NULL_IDX (T:=Z)) ∧
       (∀ i, 0 ≤ i < mCapacity p → i ∈ reverse (seqZ 0 (mCapacity p))) ∧
       (0 < 3 →
        ∃ p', Pool.AcquirePtr [] p = Some (Pool.slot_ptr p (mCapacity p - 1), p')).
Proof.
  split; [lia|]. apply (pool_initial_free_list [] (zeroed_allocator 4096) 3 []). lia.
Defined.

(** With capacity 3 the walk from the head visits 2, 1, 0, and the first
    acquire returns slot 2. *)
Lemma pool_initial_order_counterexample :
  Pool.ctor [] (zeroed_allocator 4096) 3 = Some int_pool_3 ∧
  fst <$> PoolInv.free_list int_pool_3 = Some [2; 1; 0] ∧
  fst <$> PoolInv.free_list int_pool_3 ≠ Some (seqZ 0 3) ∧
  fst <$> Pool.AcquirePtr [] int_pool_3 = Some (Pool.slot_ptr int_pool_3 2) ∧
  fst <$> Pool.AcquirePtr [] int_pool_3 ≠ Some (Pool.slot_ptr int_pool_3 0).
Proof. vm_compute. repeat split; congruence. Qed.

Lemma free_list_invariant_witness :
  0 ≤ 3 ∧ 0 < alloc_address (zeroed_allocator (T:=Z) 4096) ∧
  PoolInv.run [] (zeroed_allocator 4096) 3 int_pool_3_ops
    = Some (int_pool_3_after, {[4100; 4104]}) ∧
  ∃ l, PoolInv.free_list int_pool_3_after = Some (l, Pool.NULL_IDX (T:=Z)) ∧
       NoDup l ∧
       (∀ i, i ∈ l → 0 ≤ i < mCapacity int_pool_3_after) ∧
       (∀ i, 0 ≤ i < mCapacity int_pool_3_after →
             (i ∈ l ↔ Pool.slot_ptr int_pool_3_after i ∉ ({[4100; 4104]} : gset Z))).
Proof.
  split; [lia|]. split; [simpl; lia|]. split; [vm_compute; reflexivity|].
  apply (free_list_invariant [] (zeroed_allocator 4096) 3 int_pool_3_ops
           int_pool_3_after {[4100; 4104]}); [lia | simpl; lia | vm_compute; reflexivity].
Defined.

Lemma pool_acquire_fresh_witness :
  0 ≤ 3 ∧ 0 < alloc_address (zeroed_allocator (T:=Z) 4096) ∧
  PoolInv.run [] (zeroed_allocator 4096) 3 int_pool_3_ops
    = Some (int_pool_3_after, {[4100; 4104]}) ∧
  ∃ ptr p', Pool.AcquirePtr [true] int_pool_3_after = Some (ptr, p') ∧
    (ptr = 0 → p' = int_pool_3_after ∧ Pool.Empty int_pool_3_after = true) ∧
    (ptr ≠ 0 →
       (ptr ∉ ({[4100; 4104]} : gset Z)) ∧ Pool.Manages int_pool_3_after ptr = true ∧
       Pool.Empty int_pool_3_after = false ∧
       (∃ i, 0 ≤ i < mCapacity int_pool_3_after ∧ ptr = Pool.slot_ptr int_pool_3_after i) ∧
       mCapacity p' = mCapacity int_pool_3_after ∧
       mStorage p' = mStorage int_pool_3_after ∧ mSlots p' = mSlots int_pool_3_after).
Proof.
  split; [lia|]. split; [simpl; lia|]. split; [vm_compute; reflexivity|].
  apply (pool_acquire_fresh [] (zeroed_allocator 4096) 3 int_pool_3_ops
           int_pool_3_after {[4100; 4104]} [true]);
    [lia | simpl; lia | vm_compute; reflexivity].
Defined.

Lemma pool_full_iff_none_held_witness :
  0 ≤ 3 ∧ 0 < alloc_address (zeroed_allocator (T:=Z) 4096) ∧
  PoolInv.run [] (zeroed_allocator 4096) 3 int_pool_3_ops
    = Some (int_pool_3_after, {[4100; 4104]}) ∧
  Pool.Full int_pool_3_after = Some (bool_decide (({[4100; 4104]} : gset Z) = ∅)).
Proof.
  split; [lia|]. split; [simpl; lia|]. split; [vm_compute; reflexivity|].
  apply (pool_full_iff_none_held [] (zeroed_allocator 4096) 3 int_pool_3_ops
           int_pool_3_after {[4100; 4104]});
    [lia | simpl; lia | vm_compute; reflexivity].
Defined.

Lemma pool_empty_iff_all_held_witness :
  0 ≤ 3 ∧ 0 < alloc_address (zeroed_allocator (T:=Z) 4096) ∧
  PoolInv.run [] (zeroed_allocator 4096) 3 int_pool_3_ops
    = Some (int_pool_3_after, {[4100; 4104]}) ∧
  (Pool.Empty int_pool_3_after = true ↔
   ∀ i, 0 ≤ i < mCapacity int_pool_3_after →
        Pool.slot_ptr int_pool_3_after i ∈ ({[4100; 4104]} : gset Z)).
Proof.
  split; [lia|]. split; [simpl; lia|]. split; [vm_compute; reflexivity|].
  apply (pool_empty_iff_all_held [] (zeroed_allocator 4096) 3 int_pool_3_ops
           int_pool_3_after {[4100; 4104]});
    [lia | simpl; lia | vm_compute; reflexivity].
Defined.

Lemma pool_release_then_acquire_witness :
  0 ≤ 3 ∧ 0 < alloc_address (zeroed_allocator (T:=Z) 4096) ∧
  PoolInv.run [] (zeroed_allocator 4096) 3 int_pool_3_ops
    = Some (int_pool_3_after, {[4100; 4104]}) ∧
  4100 ∈ ({[4100; 4104]} : gset Z) ∧
  ∃ p1 p2, Pool.ReleasePtr [true] int_pool_3_after 4100 = Some p1 ∧
           Pool.Empty p1 = false ∧ Pool.AcquirePtr [] p1 = Some (4100, p2).
Proof.
  split; [lia|]. split; [simpl; lia|]. split; [vm_compute; reflexivity|].
  split; [vm_compute; reflexivity|].
  apply (pool_release_then_acquire [] (zeroed_allocator 4096) 3 int_pool_3_ops
           int_pool_3_after {[4100; 4104]} 4100 [true] []);
    [lia | simpl; lia | vm_compute; reflexivity | vm_compute; reflexivity].
Defined.

Lemma pool_acquire_then_release_witness :
  0 ≤ 3 ∧ 0 < alloc_address (zeroed_allocator (T:=Z) 4096) ∧
  PoolInv.run [] (zeroed_allocator 4096) 3 int_pool_3_ops
    = Some (int_pool_3_after, {[4100; 4104]}) ∧
  Pool.AcquirePtr [] int_pool_3_after = Some (4096, int_pool_3_taken) ∧ 4096 ≠ 0 ∧
  ∃ p2, Pool.ReleasePtr [true] int_pool_3_taken 4096 = Some p2 ∧
        PoolInv.free_list p2 = PoolInv.free_list int_pool_3_after ∧
        mIdx (mHead p2) = mIdx (mHead int_pool_3_after) ∧
        mTag (mHead p2) = (mTag (mHead int_pool_3_after) + 1) mod 2 ^ Pool.tIndex_bits.
Proof.
  split; [lia|]. split; [simpl; lia|]. split; [vm_compute; reflexivity|].
  split; [vm_compute; reflexivity|]. split; [lia|].
  apply (pool_acquire_then_release [] (zeroed_allocator 4096) 3 int_pool_3_ops
           int_pool_3_after int_pool_3_taken {[4100; 4104]} 4096 [] [true]);
    [lia | simpl; lia | vm_compute; reflexivity | vm_compute; reflexivity | lia].
Defined.

Lemma acquired_element_kept_witness :
  0 ≤ 3 ∧ 0 < alloc_address (zeroed_allocator (T:=Z) 4096) ∧
  PoolInv.run [] (zeroed_allocator 4096) 3 [] = Some (int_pool_3, ∅) ∧
  Pool.Acquire [] int_pool_3 42 = Some (4104, int_pool_3_one) ∧ 4104 ≠ 0 ∧
  Forall (λ op, PoolInv.op_target op ≠ Some 4104) int_pool_3_one_ops ∧
  PoolInv.run_ops int_pool_3_one_ops (int_pool_3_one, {[4104]} ∪ ∅)
    = Some (int_pool_3_one_after, {[4100; 4104]}) ∧
  Pool.load_object int_pool_3_one 4104 = Some 42 ∧
  4104 ∈ ({[4100; 4104]} : gset Z) ∧
  Pool.load_object int_pool_3_one_after 4104 = Some 42.
Proof.
  assert (Forall (λ op, PoolInv.op_target op ≠ Some 4104) int_pool_3_one_ops) as Hops
    by (repeat constructor; simpl; congruence).
  split; [lia|]. split; [simpl; lia|]. split; [vm_compute; reflexivity|].
  split; [vm_compute; reflexivity|]. split; [lia|]. split; [exact Hops|].
  split; [vm_compute; reflexivity|].
  apply (acquired_element_kept [] (zeroed_allocator 4096) 3 [] int_pool_3_one_ops
           int_pool_3 int_pool_3_one int_pool_3_one_after ∅ {[4100; 4104]} [] 42 4104);
    [lia | simpl; lia | vm_compute; reflexivity | vm_compute; reflexivity | lia
    | exact Hops | vm_compute; reflexivity].
Defined.

Lemma pool_stale_head_retry_witness :
  {| mIdx := 0; mTag := 2 |} ≠ mHead int_pool_3_after ∧
  Pool.IsNull int_pool_3_after (mIdx {| mIdx := 0; mTag := 2 |}) = false ∧
  is_Some (Pool.GetNode int_pool_3_after (mIdx {| mIdx := 0; mTag := 2 |})) ∧
  Pool.IsNull int_pool_3_after 1 = false ∧
  is_Some (Pool.GetNode int_pool_3_after 1) ∧
  Pool.AcquireIdx_loop [true; true] int_pool_3_after {| mIdx := 0; mTag := 2 |}
    = Pool.AcquireIdx [true] int_pool_3_after ∧
  Pool.ReleaseIdx_loop [true; true] int_pool_3_after 1 {| mIdx := 0; mTag := 2 |}
    = Pool.ReleaseIdx [true] int_pool_3_after 1.
Proof.
  assert ({| mIdx := 0; mTag := 2 |} ≠ mHead int_pool_3_after) as Hne
    by (vm_compute; congruence).
  split; [exact Hne|]. split; [reflexivity|]. split; [by eexists|].
  split; [reflexivity|]. split; [by eexists|].
  apply (pool_stale_head_retry true [true] int_pool_3_after {| mIdx := 0; mTag := 2 |} 1);
    [exact Hne | reflexivity | by eexists | reflexivity | by eexists].
Defined.

Lemma pool_tag_period_witness :
  0 ≤ 3 ∧ 0 < alloc_address (zeroed_allocator (T:=Z) 4096) ∧
  PoolInv.run [] (zeroed_allocator 4096) 3 int_pool_3_ops
    = Some (int_pool_3_after, {[4100; 4104]}) ∧
  Pool.Empty int_pool_3_after = false ∧
  ∃ p', PoolInv.cycle 5 [true] [] int_pool_3_after = Some p' ∧
        PoolInv.free_list p' = PoolInv.free_list int_pool_3_after ∧
        mIdx (mHead p') = mIdx (mHead int_pool_3_after) ∧
        mTag (mHead p')
          = (mTag (mHead int_pool_3_after) + Z.of_nat 5) mod 2 ^ Pool.tIndex_bits ∧
        (Z.of_nat 5 = 2 ^ Pool.tIndex_bits → mHead p' = mHead int_pool_3_after).
Proof.
  split; [lia|]. split; [simpl; lia|]. split; [vm_compute; reflexivity|].
  split; [reflexivity|].
  apply (pool_tag_period [] (zeroed_allocator 4096) 3 int_pool_3_ops
           int_pool_3_after {[4100; 4104]} [true] [] 5);
    [lia | simpl; lia | vm_compute; reflexivity | reflexivity].
Defined.

Lemma pool_double_release_witness :
  0 ≤ 3 ∧ 0 < alloc_address (zeroed_allocator (T:=Z) 4096) ∧
  PoolInv.run [] (zeroed_allocator 4096) 3 int_pool_3_ops
    = Some (int_pool_3_after, {[4100; 4104]}) ∧
  4100 ∈ ({[4100; 4104]} : gset Z) ∧
  ∃ p1 p2 p3 p4 node,
    Pool.ReleasePtr [] int_pool_3_after 4100 = Some p1 ∧
    Pool.ReleasePtr [true] p1 4100 = Some p2 ∧
    Pool.GetNode p2 (mIdx (mHead p2)) = Some node ∧
    mIdx (mNext node) = mIdx (mHead p2) ∧
    Pool.AcquirePtr [] p2 = Some (4100, p3) ∧ Pool.AcquirePtr [true] p3 = Some (4100, p4).
Proof.
  split; [lia|]. split; [simpl; lia|]. split; [vm_compute; reflexivity|].
  split; [vm_compute; reflexivity|].
  apply (pool_double_release [] (zeroed_allocator 4096) 3 int_pool_3_ops
           int_pool_3_after {[4100; 4104]} 4100 [] [true] [] [true]);
    [lia | simpl; lia | vm_compute; reflexivity | vm_compute; reflexivity].
Defined.

End IntPoolExamples.

Section CapacityExamples.
Local Existing Instance int_repr.
Local Existing Instance stack_node_int_repr.

(** The capacity asked for is one more than the constructor grants, for
    either width of the index. *)
Lemma pool_capacity_counterexample :
  (8 ≤ sizeof (T:=Stack.tLockFreeStackNode Z) ∧
   Pool.GetCapacity <$>
     Pool.ctor (T:=Stack.tLockFreeStackNode Z) [] (zeroed_allocator 4096) (2 ^ 32 - 1)
   ≠ Some (Z.min (2 ^ 32 - 1) (2 ^ 32 - 1))) ∧
  (sizeof (T:=Z) < 8 ∧
   Pool.GetCapacity <$> Pool.ctor (T:=Z) [] (zeroed_allocator 4096) (2 ^ 16 - 1)
   ≠ Some (Z.min (2 ^ 16 - 1) (2 ^ 16 - 1))).
Proof.
  split; (split; [done|]); rewrite ctor_spec by lia;
    unfold Pool.GetCapacity; cbn [fmap option_fmap option_map mCapacity PoolInv.initial_pool];
    intros Heq; injection Heq as Heq; revert Heq;
    unfold Pool.max_capacity, Pool.tIndex_max, Pool.tIndex_bits; congruence.
Qed.

End CapacityExamples.

(** ** Tagged pointers *)

Lemma GetTag_PackTaggedPtr ptr tag :
  GetTag (PackTaggedPtr ptr tag) = tag mod 2 ^ 16.
Proof.
  unfold GetTag, PackTaggedPtr, store_mTag, to_tTag. cbn [mPackedPtr].
  rewrite Z.shiftr_lor, Z.land_ones by lia.
  rewrite Z.shiftr_div_pow2 by lia.
  rewrite Z.div_small by (apply Z.mod_pos_bound; lia).
  rewrite Z.shiftr_shiftl_l by lia. simpl. by rewrite Z.lor_0_l.
Qed.

Lemma GetPtr_PackTaggedPtr ptr tag :
  0 ≤ ptr < 2 ^ 48 → GetPtr (PackTaggedPtr ptr tag) = ptr.
Proof.
  intros Hptr. unfold GetPtr, PackTaggedPtr, store_mTag, to_tTag. cbn [mPackedPtr].
  change VIRTUAL_ADDRESS_MASK with (Z.ones 48).
  rewrite (Z.mod_small ptr) by lia.
  rewrite Z.land_lor_distr_l, <- Z.land_assoc, Z.land_diag.
  rewrite (Z.land_ones ptr), (Z.mod_small ptr) by lia.
  rewrite (Z.land_ones (_ ≪ 48)), Z.shiftl_mul_pow2, Z.mod_mul by lia.
  apply Z.lor_0_r.
Qed.

Lemma GetTag_range t : 0 ≤ mPackedPtr t < 2 ^ 64 → 0 ≤ GetTag t < 2 ^ 16.
Proof.
  intros Ht. unfold GetTag. rewrite Z.shiftr_div_pow2 by lia. split.
  - apply Z.div_pos; lia.
  - apply Z.div_lt_upper_bound; lia.
Qed.

Lemma GetTag_make ptr tag : GetTag (make ptr tag) = tag mod 2 ^ 16.
Proof. apply GetTag_PackTaggedPtr. Qed.

Lemma GetTag_Set ptr tag : GetTag (Set_ ptr tag) = tag mod 2 ^ 16.
Proof. apply GetTag_PackTaggedPtr. Qed.

Lemma GetPtr_PackTaggedPtr_mod ptr tag :
  GetPtr (PackTaggedPtr ptr tag) = ptr mod 2 ^ 48.
Proof.
  unfold GetPtr, PackTaggedPtr, store_mTag, to_tTag. cbn [mPackedPtr].
  change VIRTUAL_ADDRESS_MASK with (Z.ones 48).
  rewrite Z.land_lor_distr_l, <- Z.land_assoc, Z.land_diag.
  rewrite (Z.land_ones (ptr mod 2 ^ 64)) by lia.
  rewrite (Z.land_ones (_ ≪ 48)), Z.shiftl_mul_pow2, Z.mod_mul by lia.
  rewrite Z.lor_0_r. apply Z.mod_mod_divide. exists (2 ^ 16). lia.
Qed.

(** X13.  Packing and unpacking a tagged pointer: [GetPtr] returns the low
    48 bits of the pointer that was packed and [GetTag] the tag, as a
    [uint16_t]; the conversion to [bool] looks at the pointer bits only, and
    so does not tell a null pointer with a tag from a null pointer without
    one.  [Set] packs as the constructor does, and the default constructor
    gives the null pointer with tag 0. *)
Theorem tagged_ptr_unpack ptr tag :
  GetPtr (make ptr tag) = ptr mod 2 ^ 48 ∧
  GetTag (make ptr tag) = tag mod 2 ^ 16 ∧
  to_bool (make ptr tag) = bool_decide (ptr mod 2 ^ 48 ≠ 0) ∧
  Set_ ptr tag = make ptr tag ∧
  make 0 0 = null.
Proof.
  unfold to_bool, make, Set_. rewrite GetPtr_PackTaggedPtr_mod, GetTag_PackTaggedPtr.
  done.
Qed.

(** X14.  Two tagged pointers are the same 64-bit word only when both the
    pointers and the tags are the same: a [compare_exchange_weak] that does
    not fail spuriously succeeds against a cell exactly in that case, so a
    tag that has moved on makes it fail although the pointer is back. *)
Theorem tagged_ptr_compare p1 t1 p2 t2 (desired : tTaggedPtr) :
  0 ≤ p1 < 2 ^ 48 → 0 ≤ p2 < 2 ^ 48 → 0 ≤ t1 < 2 ^ 16 → 0 ≤ t2 < 2 ^ 16 →
  (make p1 t1 = make p2 t2 ↔ p1 = p2 ∧ t1 = t2) ∧
  (compare_exchange_weak false (make p1 t1) (make p2 t2) desired).1.1 =
    bool_decide (p1 = p2 ∧ t1 = t2).
Proof.
  intros Hp1 Hp2 Ht1 Ht2.
  assert (make p1 t1 = make p2 t2 ↔ p1 = p2 ∧ t1 = t2) as Hiff.
  { split; [|by intros [-> ->]]. intros Heq. split.
    - apply (f_equal GetPtr) in Heq. unfold make in Heq.
      rewrite !GetPtr_PackTaggedPtr_mod, !Z.mod_small in Heq by lia. done.
    - apply (f_equal GetTag) in Heq.
      rewrite !GetTag_make, !Z.mod_small in Heq by lia. done. }
  split; [done|]. unfold compare_exchange_weak. cbn [negb andb].
  case_bool_decide as Heq.
  - apply Hiff in Heq. by rewrite bool_decide_eq_true_2.
  - rewrite bool_decide_eq_false_2; [done|]. by rewrite <- Hiff.
Qed.

Lemma tagged_ptr_compare_witness :
  0 ≤ 4096 < 2 ^ 48 ∧ 0 ≤ 4096 < 2 ^ 48 ∧ 0 ≤ 7 < 2 ^ 16 ∧ 0 ≤ 8 < 2 ^ 16 ∧
  (make 4096 7 = make 4096 8 ↔ 4096 = 4096 ∧ 7 = 8) ∧
  (compare_exchange_weak false (make 4096 7) (make 4096 8) null).1.1 =
    bool_decide (4096 = 4096 ∧ 7 = 8).
Proof.
  split; [lia|]. split; [lia|]. split; [lia|]. split; [lia|].
  apply (tagged_ptr_compare 4096 7 4096 8 null); lia.
Defined.

(** ** The stack *)

Section StackFacts.
Context {T : Type} `{ObjectRepr (Stack.tLockFreeStackNode T)}.

Local Abbreviation tElement := (Stack.tLockFreeStackNode T).
Local Abbreviation tLockFreePool := (cLockFreePool tElement).

Lemma stack_eta (s : Stack.cLockFreeStack) :
  {| Stack.mTop := Stack.mTop s; Stack.mCount := Stack.mCount s |} = s.
Proof. by destruct s. Qed.

Lemma Stack_Pop_spec sp sr (pool : tLockFreePool) s (result : T) :
  Stack.Pop sp sr pool s result =
    if bool_decide (GetPtr (Stack.mTop s) = 0) then Some (false, result, pool, s)
    else
      n ← Pool.load_object pool (GetPtr (Stack.mTop s));
      pool' ← Pool.Release sr pool (GetPtr (Stack.mTop s));
      Some (true, Stack.mData n, pool',
            {| Stack.mTop := make (GetPtr (Stack.mPrev n)) (GetTag (Stack.mTop s) + 1);
               Stack.mCount := fetch_sub1 (Stack.mCount s) |}).
Proof.
  unfold Stack.Pop. induction sp as [|b sp IH]; cbn [Stack.Pop_loop hd].
  - case_bool_decide; [done|].
    destruct (Pool.load_object _ _) as [n|] eqn:Hn; [|done]. bind_simpl.
    rewrite compare_exchange_weak_same. by rewrite Hn.
  - case_bool_decide; [done|].
    destruct (Pool.load_object _ _) as [n|] eqn:Hn; [|done]. bind_simpl.
    destruct b.
    + by rewrite compare_exchange_weak_spurious, stack_eta, IH.
    + rewrite compare_exchange_weak_same. by rewrite Hn.
Qed.

Lemma GetPtr_range t : 0 ≤ GetPtr t < 2 ^ 48.
Proof.
  unfold GetPtr. change VIRTUAL_ADDRESS_MASK with (Z.ones 48).
  rewrite Z.land_ones by lia. apply Z.mod_pos_bound. lia.
Qed.

Lemma GetPtr_make ptr tag : 0 ≤ ptr < 2 ^ 48 → GetPtr (make ptr tag) = ptr.
Proof. apply GetPtr_PackTaggedPtr. Qed.

Lemma Stack_store_mPrev_slot (pool : tLockFreePool) i slot t :
  0 ≤ i → mSlots pool !! Z.to_nat i = Some slot →
  Stack.store_mPrev pool (Pool.slot_ptr pool i) t =
    Some (Pool.set_mSlots pool
            (<[Z.to_nat i := AsElement (Stack.set_mPrev (Pool.object_view slot) t)]>
               (mSlots pool))).
Proof.
  intros Hi Hs. unfold Stack.store_mPrev.
  rewrite (load_object_slot pool i slot) by done. bind_simpl.
  by apply (store_object_slot pool i slot).
Qed.

Lemma LinkTopNodeAtomically_loop_slot sched (pool : tLockFreePool) s i n :
  0 ≤ i → mSlots pool !! Z.to_nat i = Some (AsElement n) →
  Stack.mPrev n = Stack.mTop s →
  Stack.LinkTopNodeAtomically_loop sched pool s (Pool.slot_ptr pool i) =
    Some (pool, {| Stack.mTop := Set_ (Pool.slot_ptr pool i) (GetTag (Stack.mTop s));
                   Stack.mCount := Stack.mCount s |}).
Proof.
  intros Hi Hs Hprev. induction sched as [|b sched IH];
    cbn [Stack.LinkTopNodeAtomically_loop hd];
    rewrite (load_object_slot pool i _ Hi Hs); cbn [mbind option_bind Pool.object_view];
    rewrite Hprev.
  - by rewrite compare_exchange_weak_same.
  - destruct b; [|by rewrite compare_exchange_weak_same].
    rewrite compare_exchange_weak_spurious, stack_eta.
    rewrite (Stack_store_mPrev_slot pool i _ _ Hi Hs). cbn [mbind option_bind Pool.object_view].
    replace (Stack.set_mPrev n (Stack.mTop s)) with n
      by (destruct n; cbn in *; by subst).
    by rewrite list_insert_id, set_mSlots_same.
Qed.

Lemma LinkTopNodeAtomically_slot sched (pool : tLockFreePool) s i slot :
  0 ≤ i → mSlots pool !! Z.to_nat i = Some slot →
  Stack.LinkTopNodeAtomically sched pool s (Pool.slot_ptr pool i) =
    Some (Pool.set_mSlots pool
            (<[Z.to_nat i :=
                 AsElement (Stack.set_mPrev (Pool.object_view slot) (Stack.mTop s))]>
               (mSlots pool)),
          {| Stack.mTop := Set_ (Pool.slot_ptr pool i) (GetTag (Stack.mTop s));
             Stack.mCount := fetch_add1 (Stack.mCount s) |}).
Proof.
  intros Hi Hs. unfold Stack.LinkTopNodeAtomically.
  rewrite (Stack_store_mPrev_slot pool i slot) by done. bind_simpl.
  set (pool1 := Pool.set_mSlots pool _).
  change (Pool.slot_ptr pool i) with (Pool.slot_ptr pool1 i).
  rewrite (LinkTopNodeAtomically_loop_slot sched pool1 s i
             (Stack.set_mPrev (Pool.object_view slot) (Stack.mTop s))).
  - done.
  - done.
  - subst pool1. cbn [mSlots Pool.set_mSlots].
    apply list_lookup_insert_eq. by apply lookup_lt_Some in Hs.
  - done.
Qed.

(** The link loop, whatever its schedule, stores the top in [mPrev] and
    makes the node the top, with the tag of the top it replaced; the
    non-atomic calls of the tests do the same. *)
Lemma LinkTopNodeAtomically_spec sched (pool : tLockFreePool) s new_node :
  Stack.LinkTopNodeAtomically sched pool s new_node =
    pool1 ← Stack.store_mPrev pool new_node (Stack.mTop s);
    Some (pool1, {| Stack.mTop := Set_ new_node (GetTag (Stack.mTop s));
                    Stack.mCount := fetch_add1 (Stack.mCount s) |}).
Proof.
  destruct (Pool.slot_of_ptr pool new_node) as [i|] eqn:Hi.
  - apply slot_of_ptr_Some in Hi as [-> Hi].
    destruct (lookup_lt_is_Some_2 (mSlots pool) i Hi) as [slot Hslot].
    rewrite <- (Nat2Z.id i) in Hslot.
    rewrite (LinkTopNodeAtomically_slot sched pool s _ slot) by (done || lia).
    by rewrite (Stack_store_mPrev_slot pool _ slot) by (done || lia).
  - unfold Stack.LinkTopNodeAtomically, Stack.store_mPrev, Pool.load_object.
    by rewrite Hi.
Qed.

Lemma LinkTopNodeNonAtomically_spec sched (pool : tLockFreePool) s new_node :
  Stack.LinkTopNodeNonAtomically pool s new_node =
  Stack.LinkTopNodeAtomically sched pool s new_node.
Proof.
  rewrite LinkTopNodeAtomically_spec. unfold Stack.LinkTopNodeNonAtomically.
  destruct (Pool.slot_of_ptr pool new_node) as [i|] eqn:Hi.
  - apply slot_of_ptr_Some in Hi as [-> Hi].
    destruct (lookup_lt_is_Some_2 (mSlots pool) i Hi) as [slot Hslot].
    rewrite <- (Nat2Z.id i) in Hslot.
    rewrite (Stack_store_mPrev_slot pool _ slot) by (done || lia).
    bind_simpl.
    set (pool1 := Pool.set_mSlots pool _).
    change (Pool.slot_ptr pool (Z.of_nat i)) with (Pool.slot_ptr pool1 (Z.of_nat i)).
    rewrite (load_object_slot pool1 _
               (AsElement (Stack.set_mPrev (Pool.object_view slot) (Stack.mTop s)))).
    + cbn [mbind option_bind Pool.object_view Stack.set_mPrev Stack.mPrev].
      unfold make, Set_. reflexivity.
    + lia.
    + subst pool1. cbn [mSlots Pool.set_mSlots]. rewrite Nat2Z.id in *.
      by apply list_lookup_insert_eq.
  - unfold Stack.store_mPrev, Pool.load_object. by rewrite Hi.
Qed.

Lemma Stack_NonAtomicPush_Push sa sl (pool : tLockFreePool) s (x : T) :
  Stack.NonAtomicPush sa pool s x = Stack.Push sa sl pool s x.
Proof.
  unfold Stack.NonAtomicPush, Stack.Push.
  destruct (Pool.Acquire _ _ _) as [[new_node pool1]|]; [|done]. bind_simpl.
  case_bool_decide; [|done]. by rewrite (LinkTopNodeNonAtomically_spec sl).
Qed.

Lemma Stack_NonAtomicPop_Pop sp sr (pool : tLockFreePool) s (result : T) :
  Stack.NonAtomicPop sr pool s result = Stack.Pop sp sr pool s result.
Proof.
  rewrite Stack_Pop_spec. unfold Stack.NonAtomicPop. by case_bool_decide.
Qed.

(** *** The stack holds a list *)

Lemma stack_chain_frame (pool pool' : tLockFreePool) ptr slots xs i slot :
  0 ≤ i → i ∉ slots → PoolInv.slot_update pool pool' i slot →
  StackInv.stack_chain pool ptr slots xs → StackInv.stack_chain pool' ptr slots xs.
Proof.
  intros Hi Hnotin (Hcap & Hstorage & Hslots).
  induction 1 as [|j n slots xs Hj Hn Hchain IH]; [constructor|].
  apply not_elem_of_cons in Hnotin as [Hne Hnotin].
  replace (Pool.slot_ptr pool j) with (Pool.slot_ptr pool' j)
    by (unfold Pool.slot_ptr; by rewrite Hstorage).
  constructor; [by rewrite Hcap | | by apply IH].
  rewrite Hslots, list_lookup_insert_ne; [done|lia].
Qed.

Lemma stack_chain_bottom_inv (pool : tLockFreePool) ptr xs :
  StackInv.stack_chain pool ptr [] xs → ptr = 0 ∧ xs = [].
Proof. by inversion 1. Qed.

Lemma stack_chain_node_inv (pool : tLockFreePool) ptr i slots xs :
  StackInv.stack_chain pool ptr (i :: slots) xs →
  ∃ n xs', ptr = Pool.slot_ptr pool i ∧ xs = Stack.mData n :: xs' ∧
           0 ≤ i < mCapacity pool ∧
           mSlots pool !! Z.to_nat i = Some (AsElement n) ∧
           StackInv.stack_chain pool (GetPtr (Stack.mPrev n)) slots xs'.
Proof. inversion 1; subst. eauto 10. Qed.

Lemma Stack_Push_full sa sl (pool : tLockFreePool) s held slots xs x :
  StackInv.stack_inv pool s held [] slots xs →
  Stack.Push sa sl pool s x = Some (false, pool, s).
Proof.
  intros [Hpool _ _ _ _]. unfold Stack.Push.
  destruct (Acquire_inv sa pool held [] (Stack.node_ctor x) Hpool)
    as (ptr & p' & -> & [(_ & -> & ->)|(h & l' & ? & _)]); [|done].
  bind_simpl. by rewrite bool_decide_eq_false_2 by (intros ?; done).
Qed.

Lemma Stack_Push_ok sa sl (pool : tLockFreePool) s held h l slots xs x :
  StackInv.stack_inv pool s held (h :: l) slots xs →
  ∃ pool' s', Stack.Push sa sl pool s x = Some (true, pool', s') ∧
    StackInv.stack_inv pool' s' ({[Pool.slot_ptr pool h]} ∪ held) l (h :: slots) (x :: xs).
Proof.
  intros [Hpool Haddr Hchain Hnodup Hheld]. unfold Stack.Push.
  destruct (Acquire_inv sa pool held (h :: l) (Stack.node_ctor x) Hpool)
    as (ptr & pool1 & -> & [(? & _)|(h' & l' & [= <- <-] & Hh & -> & Hnn & Hnh &
                                     Hcap1 & Hstorage1 & Hslots1 & Hpool1)]); [done|].
  bind_simpl. rewrite bool_decide_eq_true_2 by done.
  pose proof (PoolInv.wf_slots _ (PoolInv.inv_wf _ _ _ Hpool)) as Hlen.
  assert (Pool.slot_ptr pool h = Pool.slot_ptr pool1 h) as Hptr
    by (unfold Pool.slot_ptr; by rewrite Hstorage1).
  assert (mSlots pool1 !! Z.to_nat h = Some (AsElement (Stack.node_ctor x))) as Hslot1
    by (rewrite Hslots1; apply list_lookup_insert_eq; lia).
  rewrite Hptr, (LinkTopNodeAtomically_slot sl pool1 s h _ (proj1 Hh) Hslot1).
  cbn [mbind option_bind Pool.object_view]. eexists _, _. split; [done|].
  rewrite <- Hptr.
  set (n := Stack.set_mPrev (Stack.node_ctor x) (Stack.mTop s)).
  set (pool2 := Pool.set_mSlots pool1 _).
  assert (PoolInv.slot_update pool pool2 h (AsElement n)) as Hupd.
  { split; [done|]. split; [done|]. subst pool2. cbn [mSlots Pool.set_mSlots].
    by rewrite Hslots1, list_insert_insert_eq. }
  assert (h ∉ slots) as Hnotin by (intros Hin; by apply Hheld in Hin).
  pose proof (slot_ptr_range pool h (PoolInv.inv_storage _ _ _ Hpool) Haddr Hh) as Hrange.
  split.
  - destruct (store_object_inv pool1 _ l (Pool.slot_ptr pool1 h) n Hpool1)
      as (p' & Hstore & _ & Hinv');
      [rewrite <- Hptr; by apply elem_of_union_l, elem_of_singleton|].
    rewrite (store_object_slot pool1 h _ n (proj1 Hh) Hslot1) in Hstore.
    by injection Hstore as <-.
  - unfold Pool.slot_ptr in *. cbn [mCapacity mStorage pool2 Pool.set_mSlots].
    by rewrite Hcap1, Hstorage1.
  - cbn [Stack.mTop]. unfold Set_. rewrite GetPtr_PackTaggedPtr by lia.
    change x with (Stack.mData n).
    rewrite Hptr. change (Pool.slot_ptr pool1 h) with (Pool.slot_ptr pool2 h).
    constructor.
    + destruct Hupd as (-> & _). done.
    + destruct Hupd as (_ & _ & ->). apply list_lookup_insert_eq. lia.
    + by apply (stack_chain_frame pool pool2 _ _ _ h (AsElement n)); [lia|..].
  - by apply NoDup_cons.
  - intros i Hi. replace (Pool.slot_ptr pool2 i) with (Pool.slot_ptr pool i)
      by (unfold Pool.slot_ptr; cbn [mStorage pool2 Pool.set_mSlots]; by rewrite Hstorage1).
    apply elem_of_cons in Hi as [->|Hi]; [by apply elem_of_union_l, elem_of_singleton|].
    apply elem_of_union_r. by apply Hheld.
Qed.

Lemma Stack_Pop_empty sp sr (pool : tLockFreePool) s held l xs (result : T) :
  StackInv.stack_inv pool s held l [] xs →
  Stack.Pop sp sr pool s result = Some (false, result, pool, s).
Proof.
  intros [_ _ Hchain _ _]. apply stack_chain_bottom_inv in Hchain as [Htop _].
  rewrite Stack_Pop_spec. by rewrite bool_decide_eq_true_2.
Qed.

Lemma Stack_Pop_ok sp sr (pool : tLockFreePool) s held l i slots xs (result : T) :
  StackInv.stack_inv pool s held l (i :: slots) xs →
  ∃ x xs' pool' s', xs = x :: xs' ∧
    Stack.Pop sp sr pool s result = Some (true, x, pool', s') ∧
    StackInv.stack_inv pool' s' (held ∖ {[Pool.slot_ptr pool i]}) (i :: l) slots xs'.
Proof.
  intros [Hpool Haddr Hchain Hnodup Hheld].
  apply stack_chain_node_inv in Hchain as (n & xs' & Htop & -> & Hi & Hn & Hchain).
  apply NoDup_cons in Hnodup as [Hnotin Hnodup].
  pose proof (slot_ptr_range pool i (PoolInv.inv_storage _ _ _ Hpool) Haddr Hi) as Hrange.
  assert (Pool.slot_ptr pool i ∈ held) as Hin by (apply Hheld, elem_of_cons; by left).
  rewrite Stack_Pop_spec, Htop. rewrite bool_decide_eq_false_2 by lia.
  rewrite (load_object_slot pool i _ (proj1 Hi) Hn). cbn [mbind option_bind Pool.object_view].
  unfold Pool.Release.
  destruct (ReleasePtr_inv sr pool held l _ Hpool Hin)
    as (pool' & i' & -> & Hptr & _ & [n' Hupd] & Hpool').
  apply slot_ptr_inj in Hptr as <-.
  bind_simpl. eexists _, _, _, _. split; [done|]. split; [done|].
  assert (∀ j, Pool.slot_ptr pool' j = Pool.slot_ptr pool j) as Hptrs
    by (intros j; unfold Pool.slot_ptr; by destruct Hupd as (_ & -> & _)).
  split.
  - done.
  - rewrite Hptrs. by destruct Hupd as (-> & _).
  - cbn [Stack.mTop]. rewrite GetPtr_make by apply GetPtr_range.
    by apply (stack_chain_frame pool pool' _ _ _ i (AsNode n')); [lia|..].
  - done.
  - intros j Hj. rewrite Hptrs. apply elem_of_difference.
    split; [apply Hheld, elem_of_cons; by right|].
    rewrite elem_of_singleton. intros Heq. apply slot_ptr_inj in Heq as ->. done.
Qed.

Lemma stack_inv_initial storage capacity :
  0 < storage → 0 ≤ capacity ≤ Pool.max_capacity (T:=tElement) →
  storage + capacity * sizeof (T:=tElement) ≤ 2 ^ 48 →
  StackInv.stack_inv (PoolInv.initial_pool storage capacity) Stack.ctor ∅
    (reverse (seqZ 0 capacity)) [] [].
Proof.
  intros Hstorage Hcap Haddr. split.
  - by apply pool_inv_initial.
  - done.
  - constructor.
  - constructor.
  - intros i Hi. by apply elem_of_nil in Hi.
Qed.

(** *** Tags of the stack top *)

Lemma LinkTopNodeAtomically_loop_tag sched (pool pool' : tLockFreePool) s s' new_node :
  Stack.LinkTopNodeAtomically_loop sched pool s new_node = Some (pool', s') →
  GetTag (Stack.mTop s') = GetTag (Stack.mTop s) mod 2 ^ 16.
Proof.
  revert pool s. induction sched as [|b sched IH]; intros pool s;
    cbn [Stack.LinkTopNodeAtomically_loop];
    (destruct (Pool.load_object _ _) as [n|]; [|done]); bind_simpl;
    destruct (compare_exchange_weak _ _ _ _) as [[[] top'] e'] eqn:Hcas.
  - apply compare_exchange_weak_success in Hcas as (_ & <- & -> & _).
    intros [= <- <-]. cbn [Stack.mTop]. apply GetTag_Set.
  - by destruct (Stack.store_mPrev _ _ _).
  - apply compare_exchange_weak_success in Hcas as (_ & <- & -> & _).
    intros [= <- <-]. cbn [Stack.mTop]. apply GetTag_Set.
  - apply compare_exchange_weak_failure in Hcas as [-> ->].
    destruct (Stack.store_mPrev _ _ _) as [pool1|]; [|done]. bind_simpl.
    intros Hloop. by apply IH in Hloop.
Qed.

(** C7.  A successful [Pop] leaves a top whose tag is the tag of the top it
    replaced plus one, in the arithmetic of the 16-bit tag (so plus one
    exactly below the largest tag); a successful [Push] leaves a top with the
    tag of the top it replaced.  And they do succeed: whatever the schedules,
    [Pop] on a top that points to a node of the pool returns true with the
    data of that node, releases it and writes the top made of the node's
    [mPrev] and that tag; [Push], when the pool gives it a node, returns true
    and writes the top made of the new node and the tag of the top it
    replaced, which the new node has as its [mPrev]. *)
Theorem stack_top_tag_policy sa sl sp sr (pool : tLockFreePool) s (x result : T) :
  0 ≤ mPackedPtr (Stack.mTop s) < 2 ^ 64 →
  (∀ r pool' s', Stack.Pop sp sr pool s result = Some (true, r, pool', s') →
     GetTag (Stack.mTop s') = (GetTag (Stack.mTop s) + 1) mod 2 ^ 16 ∧
     (GetTag (Stack.mTop s) < 2 ^ 16 - 1 →
      GetTag (Stack.mTop s') = GetTag (Stack.mTop s) + 1)) ∧
  (∀ pool' s', Stack.Push sa sl pool s x = Some (true, pool', s') →
     GetTag (Stack.mTop s') = GetTag (Stack.mTop s)) ∧
  (∀ n, GetPtr (Stack.mTop s) ≠ 0 →
     Pool.load_object pool (GetPtr (Stack.mTop s)) = Some n →
     ∃ pool' s',
       Stack.Pop sp sr pool s result = Some (true, Stack.mData n, pool', s') ∧
       Pool.Release sr pool (GetPtr (Stack.mTop s)) = Some pool' ∧
       Stack.mTop s' = make (GetPtr (Stack.mPrev n)) (GetTag (Stack.mTop s) + 1) ∧
       GetTag (Stack.mTop s') = (GetTag (Stack.mTop s) + 1) mod 2 ^ 16 ∧
       (GetTag (Stack.mTop s) < 2 ^ 16 - 1 →
        GetTag (Stack.mTop s') = GetTag (Stack.mTop s) + 1)) ∧
  (∀ new_node pool1,
     Pool.Acquire sa pool (Stack.node_ctor x) = Some (new_node, pool1) → new_node ≠ 0 →
     ∃ pool' s',
       Stack.Push sa sl pool s x = Some (true, pool', s') ∧
       Stack.mTop s' = Set_ new_node (GetTag (Stack.mTop s)) ∧
       GetTag (Stack.mTop s') = GetTag (Stack.mTop s) ∧
       Pool.load_object pool' new_node
         = Some (Stack.set_mPrev (Stack.node_ctor x) (Stack.mTop s))).
Proof.
  intros Htop. pose proof (GetTag_range _ Htop) as Htag.
  split; [|split; [|split]].
  - intros r pool' s'. rewrite Stack_Pop_spec. case_bool_decide; [done|].
    destruct (Pool.load_object _ _) as [n|]; [|done]. bind_simpl.
    destruct (Pool.Release _ _ _) as [pool1|]; [|done]. bind_simpl.
    intros [= <- <- <-]. cbn [Stack.mTop]. rewrite GetTag_make.
    split; [done|]. intros. apply Z.mod_small. lia.
  - intros pool' s'. unfold Stack.Push.
    destruct (Pool.Acquire _ _ _) as [[new_node pool1]|]; [|done]. bind_simpl.
    case_bool_decide; [|done]. unfold Stack.LinkTopNodeAtomically.
    destruct (Stack.store_mPrev _ _ _) as [pool2|]; [|done]. bind_simpl.
    destruct (Stack.LinkTopNodeAtomically_loop _ _ _ _) as [[pool3 s3]|] eqn:Hloop; [|done].
    bind_simpl. intros [= <- <-]. cbn [Stack.mTop].
    apply LinkTopNodeAtomically_loop_tag in Hloop. rewrite Hloop.
    apply Z.mod_small. lia.
  - intros n Hnn Hn.
    destruct (Release_load_object sr pool (GetPtr (Stack.mTop s))) as [pool' Hrel];
      [by rewrite Hn|].
    rewrite Stack_Pop_spec, bool_decide_eq_false_2 by done.
    rewrite Hn. bind_simpl. rewrite Hrel. bind_simpl.
    eexists _, _. split; [done|]. split; [done|]. cbn [Stack.mTop].
    split; [done|]. rewrite GetTag_make. split; [done|].
    intros. apply Z.mod_small. lia.
  - intros new_node pool1 Hacq Hnn.
    destruct (Acquire_slot _ _ _ _ _ Hacq Hnn) as (i & -> & Hi).
    unfold Stack.Push. rewrite Hacq. bind_simpl.
    rewrite bool_decide_eq_true_2 by done.
    rewrite LinkTopNodeAtomically_spec.
    rewrite <- (Nat2Z.id i) in Hi.
    rewrite (Stack_store_mPrev_slot pool1 _ _ _ (Nat2Z.is_nonneg i) Hi). bind_simpl.
    eexists _, _. split; [done|]. cbn [Stack.mTop]. split; [done|].
    split; [rewrite GetTag_Set; apply Z.mod_small; lia|].
    set (pool2 := Pool.set_mSlots pool1 _).
    change (Pool.slot_ptr pool1 (Z.of_nat i)) with (Pool.slot_ptr pool2 (Z.of_nat i)).
    rewrite (load_object_slot pool2 (Z.of_nat i)
               (AsElement (Stack.set_mPrev (Stack.node_ctor x) (Stack.mTop s))));
      [done|lia|].
    subst pool2. cbn [mSlots Pool.set_mSlots]. apply list_lookup_insert_eq.
    by apply lookup_lt_Some in Hi.
Qed.

(** *** Runs of a stack with a local pool *)

Lemma Stack_store_mPrev_capacity (pool pool' : tLockFreePool) node t :
  Stack.store_mPrev pool node t = Some pool' → mCapacity pool' = mCapacity pool.
Proof.
  unfold Stack.store_mPrev. destruct (Pool.load_object pool node); bind_simpl; [|done].
  apply store_object_capacity.
Qed.

Lemma Stack_Push_frame sa sl (pool pool' : tLockFreePool) s s' (x : T) b :
  Stack.Push sa sl pool s x = Some (b, pool', s') →
  mCapacity pool' = mCapacity pool ∧
  Stack.mCount s' = if b then fetch_add1 (Stack.mCount s) else Stack.mCount s.
Proof.
  unfold Stack.Push.
  destruct (Pool.Acquire sa pool (Stack.node_ctor x)) as [[new_node pool1]|] eqn:Hacq;
    bind_simpl; [|done].
  apply Acquire_capacity in Hacq. case_bool_decide.
  - rewrite LinkTopNodeAtomically_spec.
    destruct (Stack.store_mPrev pool1 new_node (Stack.mTop s)) as [pool2|] eqn:Hstore;
      bind_simpl; [|done].
    apply Stack_store_mPrev_capacity in Hstore.
    intros [= <- <- <-]. split; [congruence|done].
  - by intros [= <- <- <-].
Qed.

Lemma Stack_Pop_frame sp sr (pool pool' : tLockFreePool) s s' (result result' : T) b :
  Stack.Pop sp sr pool s result = Some (b, result', pool', s') →
  mCapacity pool' = mCapacity pool ∧
  Stack.mCount s' = if b then fetch_sub1 (Stack.mCount s) else Stack.mCount s.
Proof.
  rewrite Stack_Pop_spec. case_bool_decide; [by intros [= <- <- <- <-]|].
  destruct (Pool.load_object pool _) as [n|]; bind_simpl; [|done].
  destruct (Pool.Release sr pool _) as [pool1|] eqn:Hrel; bind_simpl; [|done].
  apply ReleasePtr_capacity in Hrel. by intros [= <- <- <- <-].
Qed.

Lemma Stack_Empty_inv (pool : tLockFreePool) s held l slots xs :
  StackInv.stack_inv pool s held l slots xs →
  Stack.Empty s = match xs with [] => true | _ => false end.
Proof.
  intros [Hpool _ Hchain _ _]. unfold Stack.Empty.
  destruct Hchain as [|i n slots xs Hi Hn Hchain].
  - by rewrite bool_decide_eq_true_2.
  - rewrite bool_decide_eq_false_2; [done|].
    apply slot_ptr_nonnull; [apply Hpool|lia].
Qed.

Lemma stack_chain_slots_nil (pool : tLockFreePool) ptr slots :
  StackInv.stack_chain pool ptr slots [] → slots = [].
Proof. by inversion 1. Qed.

Lemma stack_chain_slots_cons (pool : tLockFreePool) ptr slots x xs :
  StackInv.stack_chain pool ptr slots (x :: xs) → ∃ i slots', slots = i :: slots'.
Proof. inversion 1; eauto. Qed.

Lemma fetch_add1_length (k : nat) :
  Z.of_nat (S k) < 2 ^ 32 → fetch_add1 (Z.of_nat k) = Z.of_nat (S k).
Proof. intros. unfold fetch_add1. rewrite Z.mod_small; lia. Qed.

Lemma fetch_sub1_length (k : nat) :
  Z.of_nat (S k) < 2 ^ 32 → fetch_sub1 (Z.of_nat (S k)) = Z.of_nat k.
Proof. intros. unfold fetch_sub1. rewrite Z.mod_small; lia. Qed.

Lemma Stack_local_push capacity sa sl (pool : tLockFreePool) s xs x :
  Z.of_nat capacity < 2 ^ 32 →
  StackInv.local_inv capacity pool s xs →
  if bool_decide (length xs < capacity)%nat
  then ∃ pool' s', Stack.Push sa sl pool s x = Some (true, pool', s') ∧
                   StackInv.local_inv capacity pool' s' (x :: xs)
  else Stack.Push sa sl pool s x = Some (false, pool, s).
Proof.
  intros Hcap (held & l & slots & Hinv & Hc & Hlen & Hcount).
  destruct l as [|h l]; simpl in Hlen.
  - rewrite bool_decide_eq_false_2 by lia. by eapply Stack_Push_full.
  - rewrite bool_decide_eq_true_2 by lia.
    destruct (Stack_Push_ok sa sl _ _ _ _ _ _ _ x Hinv) as (pool' & s' & Hpush & Hinv').
    exists pool', s'. split; [done|].
    destruct (Stack_Push_frame _ _ _ _ _ _ _ _ Hpush) as [Hc' Hcount'].
    eexists _, _, _. split; [exact Hinv'|]. split; [congruence|].
    split; [simpl; lia|].
    rewrite Hcount', Hcount. apply fetch_add1_length. simpl in *. lia.
Qed.

Lemma Stack_local_pop capacity sp sr (pool : tLockFreePool) s xs (result : T) :
  Z.of_nat capacity < 2 ^ 32 →
  StackInv.local_inv capacity pool s xs →
  match xs with
  | [] => Stack.Pop sp sr pool s result = Some (false, result, pool, s)
  | x :: xs' => ∃ pool' s', Stack.Pop sp sr pool s result = Some (true, x, pool', s') ∧
                            StackInv.local_inv capacity pool' s' xs'
  end.
Proof.
  intros Hcap (held & l & slots & Hinv & Hc & Hlen & Hcount).
  destruct xs as [|x xs].
  - pose proof (stack_chain_slots_nil _ _ _ (StackInv.sinv_chain _ _ _ _ _ _ Hinv)) as ->.
    by eapply Stack_Pop_empty.
  - destruct (stack_chain_slots_cons _ _ _ _ _ (StackInv.sinv_chain _ _ _ _ _ _ Hinv))
      as (i & slots' & ->).
    destruct (Stack_Pop_ok sp sr _ _ _ _ _ _ _ result Hinv)
      as (x' & xs' & pool' & s' & [= <- <-] & Hpop & Hinv').
    exists pool', s'. split; [done|].
    destruct (Stack_Pop_frame _ _ _ _ _ _ _ _ _ Hpop) as [Hc' Hcount'].
    eexists _, _, _. split; [exact Hinv'|]. split; [congruence|].
    simpl in *. split; [lia|].
    rewrite Hcount', Hcount. apply fetch_sub1_length. lia.
Qed.

Lemma Stack_run_op_refines capacity op (pool : tLockFreePool) s xs (result : T) :
  Z.of_nat capacity < 2 ^ 32 →
  StackInv.local_inv capacity pool s xs →
  ∃ pool' s',
    StackInv.run_op op (pool, s, result) =
      Some ((ListModel.step ListModel.LIFO capacity op (xs, result)).1,
            (pool', s', (ListModel.step ListModel.LIFO capacity op (xs, result)).2.2)) ∧
    StackInv.local_inv capacity pool' s'
      (ListModel.step ListModel.LIFO capacity op (xs, result)).2.1.
Proof.
  intros Hcap Hinv.
  destruct op as [sa sl x|sa x|sp sr|sr|]; cbn [StackInv.run_op ListModel.step].
  - pose proof (Stack_local_push capacity sa sl pool s xs x Hcap Hinv) as Hpush.
    case_bool_decide.
    + destruct Hpush as (pool' & s' & -> & Hinv'). bind_simpl. eauto.
    + rewrite Hpush. bind_simpl. eauto.
  - rewrite (Stack_NonAtomicPush_Push sa []).
    pose proof (Stack_local_push capacity sa [] pool s xs x Hcap Hinv) as Hpush.
    case_bool_decide.
    + destruct Hpush as (pool' & s' & -> & Hinv'). bind_simpl. eauto.
    + rewrite Hpush. bind_simpl. eauto.
  - pose proof (Stack_local_pop capacity sp sr pool s xs result Hcap Hinv) as Hpop.
    destruct xs as [|x xs].
    + rewrite Hpop. bind_simpl. eauto.
    + destruct Hpop as (pool' & s' & -> & Hinv'). bind_simpl. eauto.
  - rewrite (Stack_NonAtomicPop_Pop [] sr).
    pose proof (Stack_local_pop capacity [] sr pool s xs result Hcap Hinv) as Hpop.
    destruct xs as [|x xs].
    + rewrite Hpop. bind_simpl. eauto.
    + destruct Hpop as (pool' & s' & -> & Hinv'). bind_simpl. eauto.
  - destruct Hinv as (held & l & slots & Hinv & Hrest).
    rewrite (Stack_Empty_inv _ _ _ _ _ _ Hinv). cbn [fst snd].
    eexists _, _. split; [done|]. by exists held, l, slots.
Qed.

Lemma Stack_run_ops_refines capacity ops (pool : tLockFreePool) s xs (result : T) :
  Z.of_nat capacity < 2 ^ 32 →
  StackInv.local_inv capacity pool s xs →
  ∃ pool' s',
    StackInv.run_ops ops (pool, s, result) =
      Some ((ListModel.run ListModel.LIFO capacity ops (xs, result)).1,
            (pool', s', (ListModel.run ListModel.LIFO capacity ops (xs, result)).2.2)) ∧
    StackInv.local_inv capacity pool' s'
      (ListModel.run ListModel.LIFO capacity ops (xs, result)).2.1.
Proof.
  intros Hcap. revert pool s xs result.
  induction ops as [|op ops IH]; intros pool s xs result Hinv.
  - cbn [StackInv.run_ops ListModel.run fst snd]. eauto.
  - cbn [StackInv.run_ops ListModel.run].
    destruct (Stack_run_op_refines capacity op pool s xs result Hcap Hinv)
      as (pool1 & s1 & -> & Hinv1).
    destruct (ListModel.step ListModel.LIFO capacity op (xs, result)) as [out [xs1 r1]].
    cbn [fst snd] in *. bind_simpl.
    destruct (IH pool1 s1 xs1 r1 Hinv1) as (pool2 & s2 & -> & Hinv2).
    destruct (ListModel.run ListModel.LIFO capacity ops (xs1, r1)) as [outs [xs2 r2]].
    cbn [fst snd] in *. bind_simpl. eauto.
Qed.

Lemma Stack_ctor_local_inv scheds (alloc : tPoolAllocator tElement) CAPACITY :
  0 < alloc_address alloc → 0 ≤ CAPACITY ≤ Pool.max_capacity (T:=tElement) →
  alloc_address alloc + CAPACITY * sizeof (T:=tElement) ≤ 2 ^ 48 →
  ∃ pool s, Stack.ctor_local scheds alloc CAPACITY = Some (pool, s) ∧
            StackInv.local_inv (Z.to_nat CAPACITY) pool s [].
Proof.
  intros Halloc Hcap Haddr. unfold Stack.ctor_local.
  rewrite ctor_spec, Z.min_l by lia. bind_simpl.
  eexists _, _. split; [done|].
  exists ∅, (reverse (seqZ 0 CAPACITY)), [].
  split; [by apply stack_inv_initial|].
  cbn [mCapacity PoolInv.initial_pool Stack.mCount Stack.ctor length].
  rewrite length_reverse, length_seqZ. lia.
Qed.

(** X15.  A stack with a local pool of [CAPACITY] nodes behaves as a list
    of at most [CAPACITY] values that is pushed and popped at its head:
    every run of [Push], [NonAtomicPush], [Pop], [NonAtomicPop] and [Empty]
    returns, with the results of the same calls on the list, whatever the
    schedules of spurious failures; and [mCount] ends as the length of the
    list. *)
Theorem stack_refines_bounded_lifo scheds (alloc : tPoolAllocator tElement) (CAPACITY : Z)
    (ops : list (tOp T)) (result : T) :
  0 < alloc_address alloc → 0 ≤ CAPACITY ≤ Pool.max_capacity (T:=tElement) →
  alloc_address alloc + CAPACITY * sizeof (T:=tElement) ≤ 2 ^ 48 →
  ∃ pool s,
    StackInv.run scheds alloc CAPACITY ops result =
      Some ((ListModel.run ListModel.LIFO (Z.to_nat CAPACITY) ops ([], result)).1,
            (pool, s,
             (ListModel.run ListModel.LIFO (Z.to_nat CAPACITY) ops ([], result)).2.2)) ∧
    Stack.mCount s =
      Z.of_nat (length
        (ListModel.run ListModel.LIFO (Z.to_nat CAPACITY) ops ([], result)).2.1).
Proof.
  intros Halloc Hcap Haddr. unfold StackInv.run.
  destruct (Stack_ctor_local_inv scheds alloc CAPACITY Halloc Hcap Haddr)
    as (pool0 & s0 & -> & Hinv0). bind_simpl.
  pose proof (max_capacity_lt (T:=tElement)) as Hmax.
  destruct (Stack_run_ops_refines (Z.to_nat CAPACITY) ops pool0 s0 [] result)
    as (pool & s & Hrun & Hinv); [lia|done|].
  exists pool, s. split; [done|].
  by destruct Hinv as (held & l & slots & _ & _ & _ & Hcount).
Qed.

(** *** Two stacks on one pool *)

Lemma stack_inv_other (pool pool' : tLockFreePool) s held held' l l' slots xs i slot :
  StackInv.stack_inv pool s held l slots xs →
  PoolInv.pool_inv pool' held' l' →
  PoolInv.slot_update pool pool' i slot → 0 ≤ i → i ∉ slots →
  (∀ j, j ∈ slots → Pool.slot_ptr pool j ∈ held') →
  StackInv.stack_inv pool' s held' l' slots xs.
Proof.
  intros [Hpool Haddr Hchain Hnodup Hheld] Hpool' Hupd Hi Hnotin Hheld'.
  assert (∀ j, Pool.slot_ptr pool' j = Pool.slot_ptr pool j) as Hptrs
    by (intros j; unfold Pool.slot_ptr; by destruct Hupd as (_ & -> & _)).
  split; [done| |by eapply stack_chain_frame|done|].
  - rewrite Hptrs. by destruct Hupd as (-> & _).
  - intros j Hj. rewrite Hptrs. by apply Hheld'.
Qed.

Lemma Stack_Push_update sa sl (pool pool' : tLockFreePool) s s' held h l slots xs x :
  StackInv.stack_inv pool s held (h :: l) slots xs →
  Stack.Push sa sl pool s x = Some (true, pool', s') →
  0 ≤ h ∧ (Pool.slot_ptr pool h ∉ held) ∧ ∃ slot, PoolInv.slot_update pool pool' h slot.
Proof.
  intros [Hpool Haddr Hchain Hnodup Hheld]. unfold Stack.Push.
  destruct (Acquire_inv sa pool held (h :: l) (Stack.node_ctor x) Hpool)
    as (ptr & pool1 & -> & [(? & _)|(h' & l' & [= <- <-] & Hh & -> & Hnn & Hnh &
                                     Hcap1 & Hstorage1 & Hslots1 & Hpool1)]); [done|].
  bind_simpl. rewrite bool_decide_eq_true_2 by done.
  pose proof (PoolInv.wf_slots _ (PoolInv.inv_wf _ _ _ Hpool)) as Hlen.
  assert (Pool.slot_ptr pool h = Pool.slot_ptr pool1 h) as Hptr
    by (unfold Pool.slot_ptr; by rewrite Hstorage1).
  assert (mSlots pool1 !! Z.to_nat h = Some (AsElement (Stack.node_ctor x))) as Hslot1
    by (rewrite Hslots1; apply list_lookup_insert_eq; lia).
  rewrite Hptr, (LinkTopNodeAtomically_slot sl pool1 s h _ (proj1 Hh) Hslot1).
  bind_simpl. intros [= <- <-]. split; [lia|]. split; [by rewrite <- Hptr|].
  eexists. split; [done|]. split; [done|]. cbn [mSlots Pool.set_mSlots].
  by rewrite Hslots1, list_insert_insert_eq.
Qed.

Lemma Stack_Pop_update sp sr (pool pool' : tLockFreePool) s s' held l i slots xs
    (result x : T) :
  StackInv.stack_inv pool s held l (i :: slots) xs →
  Stack.Pop sp sr pool s result = Some (true, x, pool', s') →
  0 ≤ i ∧ ∃ slot, PoolInv.slot_update pool pool' i slot.
Proof.
  intros [Hpool Haddr Hchain Hnodup Hheld].
  apply stack_chain_node_inv in Hchain as (n & xs' & Htop & -> & Hi & Hn & Hchain).
  pose proof (slot_ptr_range pool i (PoolInv.inv_storage _ _ _ Hpool) Haddr Hi) as Hrange.
  assert (Pool.slot_ptr pool i ∈ held) as Hin by (apply Hheld, elem_of_cons; by left).
  rewrite Stack_Pop_spec, Htop. rewrite bool_decide_eq_false_2 by lia.
  rewrite (load_object_slot pool i _ (proj1 Hi) Hn). cbn [mbind option_bind Pool.object_view].
  unfold Pool.Release.
  destruct (ReleasePtr_inv sr pool held l _ Hpool Hin)
    as (pool1 & i' & -> & Hptr & _ & [n' Hupd] & _).
  apply slot_ptr_inj in Hptr as <-. bind_simpl. intros [= _ <- _].
  split; [lia|]. by eexists.
Qed.

Lemma Stack_shared_push capacity sa sl (pool : tLockFreePool) s s2 held l slots slots2
    xs xs2 x :
  StackInv.stack_inv pool s held l slots xs →
  StackInv.stack_inv pool s2 held l slots2 xs2 →
  (∀ i, i ∈ slots → i ∉ slots2) →
  (length l + length xs + length xs2 = capacity)%nat →
  if bool_decide (length xs < capacity - length xs2)%nat
  then ∃ pool' s' held' l' slots',
         Stack.Push sa sl pool s x = Some (true, pool', s') ∧
         StackInv.stack_inv pool' s' held' l' slots' (x :: xs) ∧
         StackInv.stack_inv pool' s2 held' l' slots2 xs2 ∧
         (∀ i, i ∈ slots' → i ∉ slots2) ∧
         (length l' + length (x :: xs) + length xs2 = capacity)%nat
  else Stack.Push sa sl pool s x = Some (false, pool, s).
Proof.
  intros Hinv Hinv2 Hdisj Hlen. destruct l as [|h l]; simpl in Hlen.
  - rewrite bool_decide_eq_false_2 by lia. by eapply Stack_Push_full.
  - rewrite bool_decide_eq_true_2 by lia.
    destruct (Stack_Push_ok sa sl _ _ _ _ _ _ _ x Hinv) as (pool' & s' & Hpush & Hinv').
    destruct (Stack_Push_update _ _ _ _ _ _ _ _ _ _ _ _ Hinv Hpush)
      as (Hh & Hnh & slot & Hupd).
    assert (h ∉ slots2) as Hh2
      by (intros Hin; by apply (StackInv.sinv_held _ _ _ _ _ _ Hinv2) in Hin).
    eexists pool', s', _, _, _. split; [done|]. split; [exact Hinv'|].
    split; [|split].
    + eapply stack_inv_other; [exact Hinv2|apply Hinv'|exact Hupd|done|done|].
      intros j Hj. apply elem_of_union_r.
      by apply (StackInv.sinv_held _ _ _ _ _ _ Hinv2).
    + intros i Hi. apply elem_of_cons in Hi as [->|Hi]; [done|by apply Hdisj].
    + simpl. lia.
Qed.

Lemma Stack_shared_pop capacity sp sr (pool : tLockFreePool) s s2 held l slots slots2
    xs xs2 (result : T) :
  StackInv.stack_inv pool s held l slots xs →
  StackInv.stack_inv pool s2 held l slots2 xs2 →
  (∀ i, i ∈ slots → i ∉ slots2) →
  (length l + length xs + length xs2 = capacity)%nat →
  match xs with
  | [] => Stack.Pop sp sr pool s result = Some (false, result, pool, s)
  | x :: xs' =>
      ∃ pool' s' held' l' slots',
        Stack.Pop sp sr pool s result = Some (true, x, pool', s') ∧
        StackInv.stack_inv pool' s' held' l' slots' xs' ∧
        StackInv.stack_inv pool' s2 held' l' slots2 xs2 ∧
        (∀ i, i ∈ slots' → i ∉ slots2) ∧
        (length l' + length xs' + length xs2 = capacity)%nat
  end.
Proof.
  intros Hinv Hinv2 Hdisj Hlen. destruct xs as [|x xs].
  - pose proof (stack_chain_slots_nil _ _ _ (StackInv.sinv_chain _ _ _ _ _ _ Hinv)) as ->.
    by eapply Stack_Pop_empty.
  - destruct (stack_chain_slots_cons _ _ _ _ _ (StackInv.sinv_chain _ _ _ _ _ _ Hinv))
      as (i & slots' & ->).
    destruct (Stack_Pop_ok sp sr _ _ _ _ _ _ _ result Hinv)
      as (x' & xs' & pool' & s' & [= <- <-] & Hpop & Hinv').
    destruct (Stack_Pop_update _ _ _ _ _ _ _ _ _ _ _ _ _ Hinv Hpop) as (Hi & slot & Hupd).
    assert (i ∉ slots2) as Hi2 by (apply Hdisj, elem_of_cons; by left).
    eexists pool', s', _, _, _. split; [done|]. split; [exact Hinv'|].
    split; [|split].
    + eapply stack_inv_other; [exact Hinv2|apply Hinv'|exact Hupd|done|done|].
      intros j Hj. apply elem_of_difference.
      split; [by apply (StackInv.sinv_held _ _ _ _ _ _ Hinv2)|].
      rewrite elem_of_singleton. intros Heq. apply slot_ptr_inj in Heq as ->. done.
    + intros j Hj. apply Hdisj, elem_of_cons. by right.
    + simpl in *. lia.
Qed.

Lemma Stack_shared_run_op capacity op (pool : tLockFreePool) s s2 held l slots slots2
    xs xs2 (result : T) :
  StackInv.stack_inv pool s held l slots xs →
  StackInv.stack_inv pool s2 held l slots2 xs2 →
  (∀ i, i ∈ slots → i ∉ slots2) →
  (length l + length xs + length xs2 = capacity)%nat →
  ∃ pool' s' held' l' slots',
    StackInv.run_op op (pool, s, result) =
      Some ((ListModel.step ListModel.LIFO (capacity - length xs2) op (xs, result)).1,
            (pool', s',
             (ListModel.step ListModel.LIFO (capacity - length xs2) op (xs, result)).2.2)) ∧
    StackInv.stack_inv pool' s' held' l' slots'
      (ListModel.step ListModel.LIFO (capacity - length xs2) op (xs, result)).2.1 ∧
    StackInv.stack_inv pool' s2 held' l' slots2 xs2 ∧
    (∀ i, i ∈ slots' → i ∉ slots2) ∧
    (length l' +
     length (ListModel.step ListModel.LIFO (capacity - length xs2) op (xs, result)).2.1 +
     length xs2 = capacity)%nat.
Proof.
  intros Hinv Hinv2 Hdisj Hlen.
  destruct op as [sa sl x|sa x|sp sr|sr|]; cbn [StackInv.run_op ListModel.step].
  - pose proof (Stack_shared_push capacity sa sl _ _ _ _ _ _ _ _ _ x Hinv Hinv2 Hdisj Hlen)
      as Hpush.
    case_bool_decide.
    + destruct Hpush as (pool' & s' & held' & l' & slots' & -> & Hrest). bind_simpl.
      eexists _, _, _, _, _. split; [done|]. exact Hrest.
    + rewrite Hpush. bind_simpl. eexists _, _, _, _, _. split; [done|]. done.
  - rewrite (Stack_NonAtomicPush_Push sa []).
    pose proof (Stack_shared_push capacity sa [] _ _ _ _ _ _ _ _ _ x Hinv Hinv2 Hdisj Hlen)
      as Hpush.
    case_bool_decide.
    + destruct Hpush as (pool' & s' & held' & l' & slots' & -> & Hrest). bind_simpl.
      eexists _, _, _, _, _. split; [done|]. exact Hrest.
    + rewrite Hpush. bind_simpl. eexists _, _, _, _, _. split; [done|]. done.
  - pose proof (Stack_shared_pop capacity sp sr _ _ _ _ _ _ _ _ _ result
                  Hinv Hinv2 Hdisj Hlen) as Hpop.
    destruct xs as [|x xs].
    + rewrite Hpop. bind_simpl. eexists _, _, _, _, _. split; [done|]. done.
    + destruct Hpop as (pool' & s' & held' & l' & slots' & -> & Hrest). bind_simpl.
      eexists _, _, _, _, _. split; [done|]. exact Hrest.
  - rewrite (Stack_NonAtomicPop_Pop [] sr).
    pose proof (Stack_shared_pop capacity [] sr _ _ _ _ _ _ _ _ _ result
                  Hinv Hinv2 Hdisj Hlen) as Hpop.
    destruct xs as [|x xs].
    + rewrite Hpop. bind_simpl. eexists _, _, _, _, _. split; [done|]. done.
    + destruct Hpop as (pool' & s' & held' & l' & slots' & -> & Hrest). bind_simpl.
      eexists _, _, _, _, _. split; [done|]. exact Hrest.
  - rewrite (Stack_Empty_inv _ _ _ _ _ _ Hinv). cbn [fst snd].
    eexists _, _, _, _, _. split; [done|]. done.
Qed.

Lemma Stack_shared_run_ops capacity calls (pool : tLockFreePool) sA sB xsA xsB
    (result : T) :
  StackInv.shared_inv capacity pool sA sB xsA xsB →
  ∃ pool' sA' sB',
    StackInv.run_shared_ops calls (pool, sA, sB, result) =
      Some ((ListModel.run_shared capacity calls (xsA, xsB, result)).1,
            (pool', sA', sB',
             (ListModel.run_shared capacity calls (xsA, xsB, result)).2.2)).
Proof.
  revert pool sA sB xsA xsB result.
  induction calls as [|[which op] calls IH]; intros pool sA sB xsA xsB result Hinv.
  - cbn [StackInv.run_shared_ops ListModel.run_shared fst snd]. eauto.
  - destruct Hinv as (held & l & slotsA & slotsB & HinvA & HinvB & Hdisj & Hlen).
    cbn [StackInv.run_shared_ops ListModel.run_shared StackInv.run_shared_op
         ListModel.step_shared fst snd].
    destruct which.
    + destruct (Stack_shared_run_op capacity op pool sA sB held l slotsA slotsB xsA xsB
                  result HinvA HinvB Hdisj Hlen)
        as (pool1 & sA1 & held1 & l1 & slotsA1 & -> & HinvA1 & HinvB1 & Hdisj1 & Hlen1).
      destruct (ListModel.step ListModel.LIFO (capacity - length xsB) op (xsA, result))
        as [out [xsA1 r1]].
      cbn [fst snd] in *. bind_simpl.
      destruct (IH pool1 sA1 sB xsA1 xsB r1) as (pool2 & sA2 & sB2 & ->);
        [by exists held1, l1, slotsA1, slotsB|].
      destruct (ListModel.run_shared capacity calls (xsA1, xsB, r1)) as [outs [[? ?] ?]].
      cbn [fst snd]. bind_simpl. eauto.
    + assert (∀ i, i ∈ slotsB → i ∉ slotsA) as Hdisj'
        by (intros i HiB HiA; by apply (Hdisj i)).
      assert (length l + length xsB + length xsA = capacity)%nat as Hlen' by lia.
      destruct (Stack_shared_run_op capacity op pool sB sA held l slotsB slotsA xsB xsA
                  result HinvB HinvA Hdisj' Hlen')
        as (pool1 & sB1 & held1 & l1 & slotsB1 & -> & HinvB1 & HinvA1 & Hdisj1 & Hlen1).
      destruct (ListModel.step ListModel.LIFO (capacity - length xsA) op (xsB, result))
        as [out [xsB1 r1]].
      cbn [fst snd] in *. bind_simpl.
      destruct (IH pool1 sA sB1 xsA xsB1 r1) as (pool2 & sA2 & sB2 & ->).
      { exists held1, l1, slotsA, slotsB1. split; [done|]. split; [done|].
        split; [|lia]. intros i HiA HiB. by apply (Hdisj1 i). }
      destruct (ListModel.run_shared capacity calls (xsA, xsB1, r1)) as [outs [[? ?] ?]].
      cbn [fst snd]. bind_simpl. eauto.
Qed.

(** X16.  Two stacks constructed on one shared pool of [n] nodes behave as
    two lists that are pushed and popped at their heads and hold at most [n]
    values between them: every run of calls on the one and the other returns,
    with the results of the same calls on the lists, a push failing exactly
    when the two lists together hold [n] values; a call on one stack never
    changes what the other holds. *)
Theorem stacks_share_pool scheds (alloc : tPoolAllocator tElement) (n : Z)
    (calls : list (bool * tOp T)) (result : T) :
  0 < alloc_address alloc → 0 ≤ n ≤ Pool.max_capacity (T:=tElement) →
  alloc_address alloc + n * sizeof (T:=tElement) ≤ 2 ^ 48 →
  ∃ pool sA sB,
    StackInv.run_shared scheds alloc n calls result =
      Some ((ListModel.run_shared (Z.to_nat n) calls ([], [], result)).1,
            (pool, sA, sB,
             (ListModel.run_shared (Z.to_nat n) calls ([], [], result)).2.2)).
Proof.
  intros Halloc Hcap Haddr. unfold StackInv.run_shared.
  rewrite ctor_spec, Z.min_l by lia. bind_simpl.
  apply Stack_shared_run_ops.
  pose proof (stack_inv_initial (alloc_address alloc) n Halloc Hcap Haddr) as Hinv.
  exists ∅, (reverse (seqZ 0 n)), [], []. split; [done|]. split; [done|].
  split; [intros i Hi; by apply elem_of_nil in Hi|].
  cbn [length]. rewrite length_reverse, length_seqZ. lia.
Qed.

(** X17.  The retry loops of the stack when another thread has replaced
    the top since this one loaded it, [old_top] being the top that was loaded,
    and be it that only the tag differs, as when the top node was popped and
    pushed again.  The first exchange of [Pop] fails and [Pop] goes on as a
    [Pop] that starts from the top there is now; the first exchange of a push
    fails, and the node is linked over the top there is now. *)
Theorem stack_stale_top_retry b sp sr sl (pool : tLockFreePool) s (old_top : tTaggedPtr)
    (result : T) i n :
  old_top ≠ Stack.mTop s →
  GetPtr old_top ≠ 0 → is_Some (Pool.load_object pool (GetPtr old_top)) →
  0 ≤ i → mSlots pool !! Z.to_nat i = Some (AsElement n) → Stack.mPrev n = old_top →
  Stack.Pop_loop (b :: sp) sr pool s old_top result = Stack.Pop sp sr pool s result ∧
  Stack.LinkTopNodeAtomically_loop (b :: sl) pool s (Pool.slot_ptr pool i) =
    Some (Pool.set_mSlots pool
            (<[Z.to_nat i := AsElement (Stack.set_mPrev n (Stack.mTop s))]> (mSlots pool)),
          {| Stack.mTop := Set_ (Pool.slot_ptr pool i) (GetTag (Stack.mTop s));
             Stack.mCount := Stack.mCount s |}).
Proof.
  intros Hne Hnn [n0 Hn0] Hi Hn Hprev. split.
  - cbn [Stack.Pop_loop]. rewrite bool_decide_eq_false_2 by done.
    rewrite Hn0. bind_simpl. cbn [hd].
    rewrite compare_exchange_weak_differs by done.
    by rewrite stack_eta.
  - cbn [Stack.LinkTopNodeAtomically_loop].
    rewrite (load_object_slot pool i _ Hi Hn). cbn [mbind option_bind Pool.object_view hd].
    rewrite compare_exchange_weak_differs by (by rewrite Hprev).
    rewrite stack_eta, (Stack_store_mPrev_slot pool i _ _ Hi Hn).
    cbn [mbind option_bind Pool.object_view].
    set (pool' := Pool.set_mSlots pool _).
    change (Pool.slot_ptr pool i) with (Pool.slot_ptr pool' i).
    apply (LinkTopNodeAtomically_loop_slot sl pool' s i
             (Stack.set_mPrev n (Stack.mTop s))); [done| |done].
    subst pool'. cbn [mSlots Pool.set_mSlots]. apply list_lookup_insert_eq.
    by apply lookup_lt_Some in Hn.
Qed.

(** X18.  In a run by one thread the non-atomic calls of the stack return
    what the atomic ones return and leave the same stack and pool, in every
    state and for every schedule of spurious failures of the atomic ones. *)
Theorem stack_nonatomic_same sa sl sp sr (pool : tLockFreePool) s (x result : T) :
  Stack.NonAtomicPush sa pool s x = Stack.Push sa sl pool s x ∧
  Stack.NonAtomicPop sr pool s result = Stack.Pop sp sr pool s result.
Proof. split; [apply Stack_NonAtomicPush_Push | apply Stack_NonAtomicPop_Pop]. Qed.

Lemma Stack_dtor_loop_inv capacity fuel srs (pool : tLockFreePool) s xs (dummy : T) :
  Z.of_nat capacity < 2 ^ 32 →
  StackInv.local_inv capacity pool s xs → (length xs < fuel)%nat →
  ∃ pool' s', Stack.dtor_loop fuel srs pool s dummy = Some (pool', s') ∧
              StackInv.local_inv capacity pool' s' [].
Proof.
  intros Hcap. revert fuel srs pool s dummy.
  induction xs as [|x xs IH]; intros fuel srs pool s dummy Hinv Hfuel;
    (destruct fuel as [|fuel]; [simpl in Hfuel; lia|]); cbn [Stack.dtor_loop];
    rewrite (Stack_NonAtomicPop_Pop [] (hd [] srs));
    pose proof (Stack_local_pop capacity [] (hd [] srs) pool s _ dummy Hcap Hinv) as Hpop.
  - rewrite Hpop. bind_simpl. eauto.
  - destruct Hpop as (pool1 & s1 & -> & Hinv1). bind_simpl.
    apply IH; [done|]. simpl in Hfuel. lia.
Qed.

(** X19.  The destructor of a stack with a local pool returns: it pops
    what is left, within one call of [NonAtomicPop] more than the capacity,
    and leaves the stack empty, [mCount] at 0 and every node back on the
    free-list of the pool. *)
Theorem stack_dtor_returns_nodes scheds (alloc : tPoolAllocator tElement) (CAPACITY : Z)
    (ops : list (tOp T)) (result r : T) outs (pool : tLockFreePool) s
    (fuel : nat) srs (T_default : T) :
  0 < alloc_address alloc → 0 ≤ CAPACITY ≤ Pool.max_capacity (T:=tElement) →
  alloc_address alloc + CAPACITY * sizeof (T:=tElement) ≤ 2 ^ 48 →
  StackInv.run scheds alloc CAPACITY ops result = Some (outs, (pool, s, r)) →
  (Z.to_nat CAPACITY < fuel)%nat →
  ∃ pool' s', Stack.dtor fuel srs pool s T_default = Some (pool', s') ∧
              Stack.Empty s' = true ∧ Stack.mCount s' = 0 ∧
              Pool.Full pool' = Some true.
Proof.
  intros Halloc Hcap Haddr Hrun Hfuel. unfold StackInv.run in Hrun.
  destruct (Stack_ctor_local_inv scheds alloc CAPACITY Halloc Hcap Haddr)
    as (pool0 & s0 & Hctor & Hinv0). rewrite Hctor in Hrun. bind_simpl in Hrun.
  pose proof (max_capacity_lt (T:=tElement)) as Hmax.
  assert (Z.of_nat (Z.to_nat CAPACITY) < 2 ^ 32) as Hlt by lia.
  destruct (Stack_run_ops_refines (Z.to_nat CAPACITY) ops pool0 s0 [] result Hlt Hinv0)
    as (pool1 & s1 & Hrun' & Hinv).
  rewrite Hrun in Hrun'. injection Hrun' as _ <- <- _.
  assert (length (ListModel.run ListModel.LIFO (Z.to_nat CAPACITY) ops ([], result)).2.1
          < fuel)%nat as Hlen.
  { destruct Hinv as (held & l & slots & _ & _ & Hlen & _). lia. }
  unfold Stack.dtor.
  destruct (Stack_dtor_loop_inv _ fuel srs pool s _ T_default Hlt Hinv Hlen)
    as (pool' & s' & -> & (held & l & slots & Hinv' & Hc & Hl & Hcount)).
  exists pool', s'. split; [done|].
  split; [by rewrite (Stack_Empty_inv _ _ _ _ _ _ Hinv')|]. split; [done|].
  rewrite (Full_pool_inv _ _ _ (StackInv.sinv_pool _ _ _ _ _ _ Hinv')).
  f_equal. apply bool_decide_eq_true_2. simpl in Hl. lia.
Qed.

End StackFacts.

(** C1.  The single-threaded stack test: on a stack with a pool of three
    nodes, three pushes succeed and the fourth fails; three pops return
    1337, 666, 42 and the fourth fails, leaving the out-parameter as it
    was. *)
Theorem stack_single_thread_test `{ObjectRepr (Stack.tLockFreeStackNode Z)}
    scheds sch (alloc : tPoolAllocator (Stack.tLockFreeStackNode Z)) :
  0 < alloc_address alloc →
  alloc_address alloc + 3 * sizeof (T:=Stack.tLockFreeStackNode Z) ≤ 2 ^ 48 →
  StackInv.single_thread_test scheds sch alloc =
    Some ([true; true; true; false],
          [(true, 1337); (true, 666); (true, 42); (false, 42)]).
Proof.
  intros Halloc Haddr. unfold StackInv.single_thread_test, Stack.ctor_local.
  rewrite ctor_spec by done.
  pose proof (max_capacity_bounds (T:=Stack.tLockFreeStackNode Z)) as [Hmax _].
  rewrite Z.min_l by lia. bind_simpl.
  assert (0 ≤ 3 ≤ Pool.max_capacity (T:=Stack.tLockFreeStackNode Z)) as Hcap by lia.
  pose proof (stack_inv_initial (alloc_address alloc) 3 Halloc Hcap Haddr) as H0.
  change (reverse (seqZ 0 3)) with [2; 1; 0] in H0.
  destruct (Stack_Push_ok (sch 0%nat) (sch 1%nat) _ _ _ _ _ _ _ 42 H0)
    as (pool1 & s1 & -> & H1). bind_simpl.
  destruct (Stack_Push_ok (sch 2%nat) (sch 3%nat) _ _ _ _ _ _ _ 666 H1)
    as (pool2 & s2 & -> & H2). bind_simpl.
  destruct (Stack_Push_ok (sch 4%nat) (sch 5%nat) _ _ _ _ _ _ _ 1337 H2)
    as (pool3 & s3 & -> & H3). bind_simpl.
  rewrite (Stack_Push_full (sch 6%nat) (sch 7%nat) _ _ _ _ _ 1138 H3).
  bind_simpl.
  destruct (Stack_Pop_ok (sch 8%nat) (sch 9%nat) _ _ _ _ _ _ _ 0 H3)
    as (x1 & xs1 & pool4 & s4 & [= <- <-] & -> & H4). bind_simpl.
  destruct (Stack_Pop_ok (sch 10%nat) (sch 11%nat) _ _ _ _ _ _ _ 1337 H4)
    as (x2 & xs2 & pool5 & s5 & [= <- <-] & -> & H5). bind_simpl.
  destruct (Stack_Pop_ok (sch 12%nat) (sch 13%nat) _ _ _ _ _ _ _ 666 H5)
    as (x3 & xs3 & pool6 & s6 & [= <- <-] & -> & H6). bind_simpl.
  rewrite (Stack_Pop_empty (sch 14%nat) (sch 15%nat) _ _ _ _ _ 42 H6).
  done.
Qed.

(** ** The queues *)

Section QueueFacts.
Context {T : Type} `{ObjectRepr (Queue.tLockFreeQueueNode T)}.

Local Abbreviation tElement := (Queue.tLockFreeQueueNode T).
Local Abbreviation tLockFreePool := (cLockFreePool tElement).

Lemma queue_eta (q : Queue.cLockFreeQueue) :
  {| Queue.mFront := Queue.mFront q; Queue.mBack := Queue.mBack q;
     Queue.mCount := Queue.mCount q |} = q.
Proof. by destruct q. Qed.

Lemma Queue_Pop_loop_spec sp sr (pool : tLockFreePool) q prev (result : T) :
  Queue.load_mPrev pool (GetPtr (Queue.mFront q)) = Some prev →
  Queue.Pop_loop sp sr pool q (Queue.mFront q) prev result =
    if to_bool prev then
      n ← Pool.load_object pool (GetPtr (Queue.mFront q));
      pool' ← Pool.Release sr pool (GetPtr (Queue.mFront q));
      Some (true, Queue.mData n, pool',
            {| Queue.mFront := make (GetPtr prev) (GetTag (Queue.mFront q) + 1);
               Queue.mBack := Queue.mBack q;
               Queue.mCount := fetch_sub1 (Queue.mCount q) |})
    else Some (false, result, pool, q).
Proof.
  intros Hprev. induction sp as [|b sp IH]; cbn [Queue.Pop_loop hd];
    (destruct (to_bool prev); [|done]).
  - by rewrite compare_exchange_weak_same.
  - destruct b; [|by rewrite compare_exchange_weak_same].
    rewrite compare_exchange_weak_spurious, Hprev, queue_eta. bind_simpl.
    apply IH.
Qed.

Lemma Queue_Pop_spec sp sr (pool : tLockFreePool) q (result : T) :
  Queue.Pop sp sr pool q result =
    prev ← Queue.load_mPrev pool (GetPtr (Queue.mFront q));
    if to_bool prev then
      n ← Pool.load_object pool (GetPtr (Queue.mFront q));
      pool' ← Pool.Release sr pool (GetPtr (Queue.mFront q));
      Some (true, Queue.mData n, pool',
            {| Queue.mFront := make (GetPtr prev) (GetTag (Queue.mFront q) + 1);
               Queue.mBack := Queue.mBack q;
               Queue.mCount := fetch_sub1 (Queue.mCount q) |})
    else Some (false, result, pool, q).
Proof.
  unfold Queue.Pop.
  destruct (Queue.load_mPrev _ _) as [prev|] eqn:Hprev; [|done]. bind_simpl.
  by apply Queue_Pop_loop_spec.
Qed.

Lemma Queue_NonAtomicPop_Pop sp sr (pool : tLockFreePool) q (result : T) :
  Queue.NonAtomicPop sr pool q result = Queue.Pop sp sr pool q result.
Proof. by rewrite Queue_Pop_spec. Qed.

(** *** The queue holds a list *)

Lemma queue_chain_frame (pool pool' : tLockFreePool) ptr slots xs b i slot :
  0 ≤ i → i ∉ b :: slots → PoolInv.slot_update pool pool' i slot →
  QueueInv.queue_chain pool ptr slots xs b → QueueInv.queue_chain pool' ptr slots xs b.
Proof.
  intros Hi Hnotin (Hcap & Hstorage & Hslots).
  assert (∀ j, Pool.slot_ptr pool j = Pool.slot_ptr pool' j) as Hptr
    by (intros j; unfold Pool.slot_ptr; by rewrite Hstorage).
  induction 1 as [b n Hb Hn Hnull|j n slots xs b Hj Hn Hnn Hchain IH].
  - apply not_elem_of_cons in Hnotin as [Hne _].
    rewrite Hptr. econstructor; [by rewrite Hcap| |done].
    rewrite Hslots, list_lookup_insert_ne; [done|lia].
  - apply not_elem_of_cons in Hnotin as [Hneb Hnotin].
    apply not_elem_of_cons in Hnotin as [Hne Hnotin].
    rewrite Hptr. econstructor; [by rewrite Hcap| |done|].
    + rewrite Hslots, list_lookup_insert_ne; [done|lia].
    + apply IH. by apply not_elem_of_cons.
Qed.

Lemma queue_chain_empty_inv (pool : tLockFreePool) ptr xs b :
  QueueInv.queue_chain pool ptr [] xs b →
  ∃ n, ptr = Pool.slot_ptr pool b ∧ xs = [] ∧ 0 ≤ b < mCapacity pool ∧
       mSlots pool !! Z.to_nat b = Some (AsElement n) ∧ GetPtr (Queue.mPrev n) = 0.
Proof. inversion 1; subst. eauto 10. Qed.

Lemma queue_chain_node_inv (pool : tLockFreePool) ptr i slots xs b :
  QueueInv.queue_chain pool ptr (i :: slots) xs b →
  ∃ n xs', ptr = Pool.slot_ptr pool i ∧ xs = Queue.mData n :: xs' ∧
           0 ≤ i < mCapacity pool ∧
           mSlots pool !! Z.to_nat i = Some (AsElement n) ∧
           GetPtr (Queue.mPrev n) ≠ 0 ∧
           QueueInv.queue_chain pool (GetPtr (Queue.mPrev n)) slots xs' b.
Proof. inversion 1; subst. eauto 10. Qed.

Lemma queue_chain_sentinel_slot (pool : tLockFreePool) ptr slots xs b :
  QueueInv.queue_chain pool ptr slots xs b →
  0 ≤ b < mCapacity pool ∧
  ∃ n, mSlots pool !! Z.to_nat b = Some (AsElement n) ∧ GetPtr (Queue.mPrev n) = 0.
Proof. induction 1; eauto. Qed.

(** The chain after a push: the former sentinel [b] holds [x] and points to
    the new sentinel [h]. *)
Lemma queue_chain_snoc (pool pool' : tLockFreePool) ptr slots xs b h nb nh :
  QueueInv.queue_chain pool ptr slots xs b →
  h ∉ b :: slots → b ∉ slots → 0 ≤ h < mCapacity pool →
  mCapacity pool' = mCapacity pool → mStorage pool' = mStorage pool →
  (∀ j, 0 ≤ j → j ≠ b → j ≠ h → mSlots pool' !! Z.to_nat j = mSlots pool !! Z.to_nat j) →
  mSlots pool' !! Z.to_nat b = Some (AsElement nb) →
  GetPtr (Queue.mPrev nb) = Pool.slot_ptr pool h → Pool.slot_ptr pool h ≠ 0 →
  mSlots pool' !! Z.to_nat h = Some (AsElement nh) →
  GetPtr (Queue.mPrev nh) = 0 →
  QueueInv.queue_chain pool' ptr (slots ++ [b]) (xs ++ [Queue.mData nb]) h.
Proof.
  intros Hchain Hh Hb Hhr Hcap Hstorage Hother Hnb Hnbp Hhnn Hnh Hnhp.
  assert (∀ j, Pool.slot_ptr pool j = Pool.slot_ptr pool' j) as Hptr
    by (intros j; unfold Pool.slot_ptr; by rewrite Hstorage).
  induction Hchain as [b n Hbr Hn Hnull|j n slots xs b Hj Hn Hnn Hchain IH].
  - cbn [app]. rewrite Hptr. econstructor; [by rewrite Hcap|done|by rewrite Hnbp|].
    rewrite Hnbp, Hptr. econstructor; [by rewrite Hcap|done|done].
  - apply not_elem_of_cons in Hb as [Hbj Hb].
    apply not_elem_of_cons in Hh as [Hhb Hh].
    apply not_elem_of_cons in Hh as [Hhj Hh].
    cbn [app]. rewrite Hptr. econstructor; [by rewrite Hcap| |done|].
    + rewrite Hother; [done|lia|done|done].
    + apply IH; [by apply not_elem_of_cons|done..].
Qed.

Lemma Queue_store_mPrev_held (pool : tLockFreePool) held l i slot t :
  PoolInv.pool_inv pool held l → 0 ≤ i < mCapacity pool →
  Pool.slot_ptr pool i ∈ held → mSlots pool !! Z.to_nat i = Some slot →
  let n := {| Queue.mData := Queue.mData (Pool.object_view slot); Queue.mPrev := t |} in
  let pool' := Pool.set_mSlots pool (<[Z.to_nat i := AsElement n]> (mSlots pool)) in
  Queue.store_mPrev pool (Pool.slot_ptr pool i) t = Some pool' ∧
  PoolInv.pool_inv pool' held l.
Proof.
  intros Hinv Hi Hheld Hslot n pool'. unfold Queue.store_mPrev.
  rewrite (load_object_slot pool i slot (proj1 Hi) Hslot). bind_simpl.
  by apply store_object_held.
Qed.

Lemma Queue_SetData_held (pool : tLockFreePool) held l i slot x :
  PoolInv.pool_inv pool held l → 0 ≤ i < mCapacity pool →
  Pool.slot_ptr pool i ∈ held → mSlots pool !! Z.to_nat i = Some slot →
  let n := {| Queue.mData := x; Queue.mPrev := Queue.mPrev (Pool.object_view slot) |} in
  let pool' := Pool.set_mSlots pool (<[Z.to_nat i := AsElement n]> (mSlots pool)) in
  Queue.SetData pool (Pool.slot_ptr pool i) x = Some pool' ∧
  PoolInv.pool_inv pool' held l.
Proof.
  intros Hinv Hi Hheld Hslot n pool'. unfold Queue.SetData.
  rewrite (load_object_slot pool i slot (proj1 Hi) Hslot). bind_simpl.
  by apply store_object_held.
Qed.

Lemma Queue_AcquireNewNode_full sa (pool : tLockFreePool) held :
  PoolInv.pool_inv pool held [] → Queue.AcquireNewNode sa pool = Some (0, pool).
Proof.
  intros Hinv. unfold Queue.AcquireNewNode.
  destruct (AcquirePtr_inv sa pool held [] Hinv)
    as (ptr & p' & -> & [(_ & -> & ->)|(h & l' & ? & _)]); [|done].
  bind_simpl. by rewrite bool_decide_eq_false_2 by (intros ?; done).
Qed.

Lemma Queue_AcquireNewNode_ok sa (pool : tLockFreePool) held h l :
  PoolInv.pool_inv pool held (h :: l) →
  ∃ pool' nh, Queue.AcquireNewNode sa pool = Some (Pool.slot_ptr pool h, pool') ∧
    0 ≤ h < mCapacity pool ∧ Pool.slot_ptr pool h ≠ 0 ∧ (Pool.slot_ptr pool h ∉ held) ∧
    mCapacity pool' = mCapacity pool ∧ mStorage pool' = mStorage pool ∧
    mSlots pool' = <[Z.to_nat h := AsElement nh]> (mSlots pool) ∧
    Queue.mPrev nh = null ∧
    PoolInv.pool_inv pool' ({[Pool.slot_ptr pool h]} ∪ held) l.
Proof.
  intros Hinv. unfold Queue.AcquireNewNode.
  pose proof (free_chain_range _ _ _ (PoolInv.inv_chain _ _ _ Hinv) h) as Hh.
  specialize (Hh ltac:(apply elem_of_cons; by left)).
  pose proof (PoolInv.wf_slots _ (PoolInv.inv_wf _ _ _ Hinv)) as Hlen.
  destruct (AcquirePtr_inv sa pool held (h :: l) Hinv)
    as (ptr & pool1 & -> & [(? & _)|(h' & l' & [= <- <-] & -> & Hnn & Hnh & [hd ->] & Hinv1)]);
    [done|].
  bind_simpl. rewrite bool_decide_eq_true_2 by done.
  destruct (lookup_lt_is_Some_2 (mSlots pool) (Z.to_nat h)) as [slot Hslot]; [lia|].
  destruct (Queue_store_mPrev_held (Pool.set_mHead pool hd) _ l h slot null Hinv1)
    as [Hstore Hinv2]; [done| |done|].
  { apply elem_of_union_l. by apply elem_of_singleton. }
  change (Pool.slot_ptr (Pool.set_mHead pool hd) h) with (Pool.slot_ptr pool h) in Hstore.
  rewrite Hstore.
  bind_simpl. eexists _, _. split; [done|].
  cbn [mCapacity mStorage mSlots Pool.set_mSlots Pool.set_mHead]. done.
Qed.

Lemma Queue_Push_full sa (pool : tLockFreePool) q held slots xs b x :
  QueueInv.queue_inv pool q held [] slots xs b →
  Queue.Push sa pool q x = Some (false, pool, q).
Proof.
  intros [Hpool _ _ _ _ _]. unfold Queue.Push, Queue.LinkBackNodeAtomically.
  rewrite (Queue_AcquireNewNode_full sa pool held Hpool). bind_simpl.
  by rewrite bool_decide_eq_true_2.
Qed.

Lemma Queue_Push_ok sa (pool : tLockFreePool) q held h l slots xs b x :
  QueueInv.queue_inv pool q held (h :: l) slots xs b →
  ∃ pool' q', Queue.Push sa pool q x = Some (true, pool', q') ∧
    QueueInv.queue_inv pool' q' ({[Pool.slot_ptr pool h]} ∪ held) l
      (slots ++ [b]) (xs ++ [x]) h.
Proof.
  intros [Hpool Haddr Hchain Hback Hnodup Hheld].
  unfold Queue.Push, Queue.LinkBackNodeAtomically.
  destruct (Queue_AcquireNewNode_ok sa pool held h l Hpool)
    as (pool2 & nh & -> & Hh & Hnn & Hnh & Hcap2 & Hstorage2 & Hslots2 & Hnhp & Hpool2).
  bind_simpl. rewrite bool_decide_eq_false_2 by done.
  unfold exchange. rewrite Hback.
  destruct (queue_chain_sentinel_slot _ _ _ _ _ Hchain) as (Hb & nb & Hnb & Hnbp).
  pose proof (PoolInv.wf_slots _ (PoolInv.inv_wf _ _ _ Hpool)) as Hlen.
  assert (Pool.slot_ptr pool b ∈ held) as Hbheld by (apply Hheld, elem_of_cons; by left).
  assert (b ≠ h) as Hbh by (intros ->; done).
  assert (∀ j, Pool.slot_ptr pool j = Pool.slot_ptr pool2 j) as Hptr2
    by (intros j; unfold Pool.slot_ptr; by rewrite Hstorage2).
  assert (mSlots pool2 !! Z.to_nat b = Some (AsElement nb)) as Hnb2
    by (rewrite Hslots2, list_lookup_insert_ne; [done|lia]).
  rewrite (Hptr2 b).
  destruct (Queue_SetData_held pool2 _ l b (AsElement nb) x Hpool2) as [-> Hpool3];
    [lia|rewrite <- Hptr2; by apply elem_of_union_r|done|].
  cbn [mbind option_bind Pool.object_view].
  set (pool3 := Pool.set_mSlots pool2 _) in *.
  assert (mSlots pool3 !! Z.to_nat b
          = Some (AsElement {| Queue.mData := x; Queue.mPrev := Queue.mPrev nb |})) as Hnb3
    by (subst pool3; cbn [mSlots Pool.set_mSlots];
        rewrite list_lookup_insert_eq; [done|rewrite Hslots2, length_insert; lia]).
  change (Pool.slot_ptr pool2 b) with (Pool.slot_ptr pool3 b).
  destruct (Queue_store_mPrev_held pool3 _ l b
              (AsElement {| Queue.mData := x; Queue.mPrev := Queue.mPrev nb |})
              (make (Pool.slot_ptr pool h) 0) Hpool3)
    as [-> Hpool4];
    [subst pool3; cbn [mCapacity Pool.set_mSlots]; lia
    |change (Pool.slot_ptr pool3 b) with (Pool.slot_ptr pool2 b);
     rewrite <- Hptr2; by apply elem_of_union_r
    |done|].
  cbn [mbind option_bind Pool.object_view Queue.mData].
  set (pool4 := Pool.set_mSlots pool3 _) in *.
  eexists _, _. split; [done|].
  pose proof (slot_ptr_range pool h (PoolInv.inv_storage _ _ _ Hpool) Haddr Hh) as Hhr.
  assert (h ∉ b :: slots) as Hhnotin by (intros Hin; by apply Hheld in Hin).
  apply NoDup_cons in Hnodup as [Hbnotin Hnodup].
  assert (mCapacity pool4 = mCapacity pool) as Hcap4 by done.
  assert (mStorage pool4 = mStorage pool) as Hstorage4 by done.
  assert (∀ j, Pool.slot_ptr pool4 j = Pool.slot_ptr pool j) as Hptr4
    by (intros j; unfold Pool.slot_ptr; by rewrite Hstorage4).
  assert (mSlots pool4 = <[Z.to_nat b := AsElement {| Queue.mData := x;
                             Queue.mPrev := make (Pool.slot_ptr pool h) 0 |}]>
                           (<[Z.to_nat h := AsElement nh]> (mSlots pool))) as Hslots4.
  { subst pool4 pool3. cbn [mSlots Pool.set_mSlots].
    by rewrite list_insert_insert_eq, Hslots2. }
  split.
  - done.
  - rewrite Hptr4, Hcap4. done.
  - cbn [Queue.mFront].
    change x with (Queue.mData {| Queue.mData := x;
                                  Queue.mPrev := make (Pool.slot_ptr pool h) 0 |}).
    apply (queue_chain_snoc pool pool4 _ _ _ _ h _ nh Hchain); try done.
    + intros j Hj Hjb Hjh. rewrite Hslots4.
      rewrite !list_lookup_insert_ne by lia. done.
    + rewrite Hslots4. apply list_lookup_insert_eq. rewrite length_insert. lia.
    + cbn [Queue.mPrev]. apply GetPtr_make. lia.
    + rewrite Hslots4, list_lookup_insert_ne by lia.
      apply list_lookup_insert_eq. lia.
    + by rewrite Hnhp.
  - cbn [Queue.mBack]. rewrite Hptr4. apply GetPtr_make. lia.
  - apply not_elem_of_cons in Hhnotin as [Hhb Hhslots].
    apply NoDup_cons. split.
    + rewrite elem_of_app, list_elem_of_singleton. intros [?|?]; done.
    + apply NoDup_app. split; [done|]. split; [|apply NoDup_singleton].
      intros j Hj Hjb. apply list_elem_of_singleton in Hjb as ->. done.
  - intros j Hj. rewrite Hptr4.
    apply elem_of_cons in Hj as [->|Hj]; [by apply elem_of_union_l, elem_of_singleton|].
    apply elem_of_union_r, Hheld.
    apply elem_of_app in Hj as [Hj|Hj]; [by apply elem_of_cons; right|].
    apply list_elem_of_singleton in Hj as ->. apply elem_of_cons. by left.
Qed.

Lemma Queue_Pop_empty sp sr (pool : tLockFreePool) q held l xs b (result : T) :
  QueueInv.queue_inv pool q held l [] xs b →
  Queue.Pop sp sr pool q result = Some (false, result, pool, q).
Proof.
  intros [_ _ Hchain _ _ _].
  apply queue_chain_empty_inv in Hchain as (n & Hfront & _ & Hb & Hn & Hnull).
  rewrite Queue_Pop_spec, Hfront. unfold Queue.load_mPrev.
  rewrite (load_object_slot pool b _ (proj1 Hb) Hn).
  cbn [fmap option_fmap option_map mbind option_bind Pool.object_view].
  unfold to_bool. by rewrite bool_decide_eq_false_2 by (intros Hne; done).
Qed.

Lemma Queue_Pop_ok sp sr (pool : tLockFreePool) q held l i slots xs b (result : T) :
  QueueInv.queue_inv pool q held l (i :: slots) xs b →
  ∃ x xs' pool' q', xs = x :: xs' ∧
    Queue.Pop sp sr pool q result = Some (true, x, pool', q') ∧
    QueueInv.queue_inv pool' q' (held ∖ {[Pool.slot_ptr pool i]}) (i :: l) slots xs' b.
Proof.
  intros [Hpool Haddr Hchain Hback Hnodup Hheld].
  apply queue_chain_node_inv in Hchain as (n & xs' & Hfront & -> & Hi & Hn & Hnn & Hchain).
  assert (Pool.slot_ptr pool i ∈ held) as Hin
    by (apply Hheld; apply elem_of_cons; right; apply elem_of_cons; by left).
  rewrite Queue_Pop_spec, Hfront. unfold Queue.load_mPrev.
  rewrite (load_object_slot pool i _ (proj1 Hi) Hn).
  cbn [fmap option_fmap option_map mbind option_bind Pool.object_view].
  unfold to_bool. rewrite bool_decide_eq_true_2 by done.
  unfold Pool.Release.
  destruct (ReleasePtr_inv sr pool held l _ Hpool Hin)
    as (pool' & i' & -> & Hptr & _ & [n' Hupd] & Hpool').
  apply slot_ptr_inj in Hptr as <-.
  bind_simpl. eexists _, _, _, _. split; [done|]. split; [done|].
  assert (∀ j, Pool.slot_ptr pool' j = Pool.slot_ptr pool j) as Hptrs
    by (intros j; unfold Pool.slot_ptr; by destruct Hupd as (_ & -> & _)).
  apply NoDup_cons in Hnodup as [Hbnotin Hnodup].
  apply not_elem_of_cons in Hbnotin as [Hbi Hbnotin].
  apply NoDup_cons in Hnodup as [Hinotin Hnodup].
  split.
  - done.
  - rewrite Hptrs. by destruct Hupd as (-> & _).
  - cbn [Queue.mFront]. rewrite GetPtr_make by apply GetPtr_range.
    apply (queue_chain_frame pool pool' _ _ _ _ i (AsNode n')); [lia| |done|done].
    apply not_elem_of_cons. split; [done|done].
  - cbn [Queue.mBack]. by rewrite Hptrs.
  - by apply NoDup_cons.
  - intros j Hj. rewrite Hptrs. apply elem_of_difference. split.
    + apply Hheld. apply elem_of_cons in Hj as [->|Hj]; [apply elem_of_cons; by left|].
      apply elem_of_cons; right. apply elem_of_cons; by right.
    + rewrite elem_of_singleton. intros Heq. apply slot_ptr_inj in Heq as ->.
      apply elem_of_cons in Hj as [->|Hj]; done.
Qed.

Lemma Queue_ctor_ok sa (pool : tLockFreePool) held h l :
  PoolInv.pool_inv pool held (h :: l) →
  Pool.slot_ptr pool (mCapacity pool) ≤ 2 ^ 48 →
  ∃ pool' q, Queue.ctor sa pool = Some (pool', q) ∧
    QueueInv.queue_inv pool' q ({[Pool.slot_ptr pool h]} ∪ held) l [] [] h.
Proof.
  intros Hpool Haddr. unfold Queue.ctor.
  destruct (Queue_AcquireNewNode_ok sa pool held h l Hpool)
    as (pool2 & nh & -> & Hh & Hnn & Hnh & Hcap2 & Hstorage2 & Hslots2 & Hnhp & Hpool2).
  bind_simpl. eexists _, _. split; [done|].
  pose proof (PoolInv.wf_slots _ (PoolInv.inv_wf _ _ _ Hpool)) as Hlen.
  pose proof (slot_ptr_range pool h (PoolInv.inv_storage _ _ _ Hpool) Haddr Hh) as Hhr.
  assert (∀ j, Pool.slot_ptr pool2 j = Pool.slot_ptr pool j) as Hptr2
    by (intros j; unfold Pool.slot_ptr; by rewrite Hstorage2).
  split.
  - done.
  - by rewrite Hptr2, Hcap2.
  - cbn [Queue.mFront]. rewrite GetPtr_make by lia. rewrite <- Hptr2.
    econstructor; [by rewrite Hcap2| |by rewrite Hnhp].
    rewrite Hslots2. apply list_lookup_insert_eq. lia.
  - cbn [Queue.mBack]. rewrite Hptr2. apply GetPtr_make. lia.
  - apply NoDup_singleton.
  - intros j Hj. apply list_elem_of_singleton in Hj as ->. rewrite Hptr2.
    by apply elem_of_union_l, elem_of_singleton.
Qed.

(** *** Runs of a queue with a local pool *)

Lemma Queue_store_mPrev_capacity (pool pool' : tLockFreePool) node t :
  Queue.store_mPrev pool node t = Some pool' → mCapacity pool' = mCapacity pool.
Proof.
  unfold Queue.store_mPrev. destruct (Pool.load_object pool node); bind_simpl; [|done].
  apply store_object_capacity.
Qed.

Lemma Queue_SetData_capacity (pool pool' : tLockFreePool) node (x : T) :
  Queue.SetData pool node x = Some pool' → mCapacity pool' = mCapacity pool.
Proof.
  unfold Queue.SetData. destruct (Pool.load_object pool node); bind_simpl; [|done].
  apply store_object_capacity.
Qed.

Lemma Queue_Push_frame sa (pool pool' : tLockFreePool) q q' (x : T) b :
  Queue.Push sa pool q x = Some (b, pool', q') →
  mCapacity pool' = mCapacity pool ∧
  Queue.mCount q' = if b then fetch_add1 (Queue.mCount q) else Queue.mCount q.
Proof.
  unfold Queue.Push, Queue.LinkBackNodeAtomically, Queue.AcquireNewNode.
  destruct (Pool.AcquirePtr sa pool) as [[new_mem pool1]|] eqn:Hacq; bind_simpl; [|done].
  apply AcquirePtr_capacity in Hacq.
  destruct (bool_decide (new_mem ≠ 0)).
  - destruct (Queue.store_mPrev pool1 new_mem null) as [pool2|] eqn:Hs1;
      bind_simpl; [|done].
    apply Queue_store_mPrev_capacity in Hs1.
    case_bool_decide; [intros [= <- <- <-]; split; [congruence|done]|].
    unfold exchange.
    destruct (Queue.SetData pool2 _ x) as [pool3|] eqn:Hs2; bind_simpl; [|done].
    apply Queue_SetData_capacity in Hs2.
    destruct (Queue.store_mPrev pool3 _ _) as [pool4|] eqn:Hs3; bind_simpl; [|done].
    apply Queue_store_mPrev_capacity in Hs3.
    intros [= <- <- <-]. split; [congruence|done].
  - bind_simpl. rewrite bool_decide_eq_true_2 by done. by intros [= <- <- <-].
Qed.

Lemma Queue_Pop_frame sp sr (pool pool' : tLockFreePool) q q' (result result' : T) b :
  Queue.Pop sp sr pool q result = Some (b, result', pool', q') →
  mCapacity pool' = mCapacity pool ∧
  Queue.mCount q' = if b then fetch_sub1 (Queue.mCount q) else Queue.mCount q.
Proof.
  rewrite Queue_Pop_spec.
  destruct (Queue.load_mPrev pool _) as [prev|]; bind_simpl; [|done].
  destruct (to_bool prev); [|by intros [= <- <- <- <-]].
  destruct (Pool.load_object pool _) as [n|]; bind_simpl; [|done].
  destruct (Pool.Release sr pool _) as [pool1|] eqn:Hrel; bind_simpl; [|done].
  apply ReleasePtr_capacity in Hrel. by intros [= <- <- <- <-].
Qed.

Lemma Queue_Empty_inv (pool : tLockFreePool) q held l slots xs b :
  QueueInv.queue_inv pool q held l slots xs b →
  Queue.Empty pool q = Some (match xs with [] => true | _ => false end).
Proof.
  intros [_ _ Hchain _ _ _]. unfold Queue.Empty, Queue.load_mPrev.
  destruct Hchain as [b n Hb Hn Hnull|i n slots xs b Hi Hn Hnn Hchain];
    rewrite (load_object_slot pool _ _ (proj1 ltac:(eassumption)) Hn);
    cbn [fmap option_fmap option_map mbind option_bind Pool.object_view]; unfold to_bool.
  - by rewrite bool_decide_eq_false_2 by (intros ?; done).
  - by rewrite bool_decide_eq_true_2.
Qed.

Lemma queue_chain_slots_nil (pool : tLockFreePool) ptr slots b :
  QueueInv.queue_chain pool ptr slots [] b → slots = [].
Proof. by inversion 1. Qed.

Lemma queue_chain_slots_cons (pool : tLockFreePool) ptr slots x xs b :
  QueueInv.queue_chain pool ptr slots (x :: xs) b → ∃ i slots', slots = i :: slots'.
Proof. inversion 1; eauto. Qed.

Lemma Queue_local_push storage sa (pool : tLockFreePool) q xs x :
  Z.of_nat storage < 2 ^ 32 →
  QueueInv.local_inv storage pool q xs →
  if bool_decide (length xs < storage)%nat
  then ∃ pool' q', Queue.Push sa pool q x = Some (true, pool', q') ∧
                   QueueInv.local_inv storage pool' q' (xs ++ [x])
  else Queue.Push sa pool q x = Some (false, pool, q).
Proof.
  intros Hcap (held & l & slots & b & Hinv & Hc & Hlen & Hcount).
  destruct l as [|h l]; simpl in Hlen.
  - rewrite bool_decide_eq_false_2 by lia. by eapply Queue_Push_full.
  - rewrite bool_decide_eq_true_2 by lia.
    destruct (Queue_Push_ok sa _ _ _ _ _ _ _ _ x Hinv) as (pool' & q' & Hpush & Hinv').
    exists pool', q'. split; [done|].
    destruct (Queue_Push_frame _ _ _ _ _ _ _ Hpush) as [Hc' Hcount'].
    eexists _, _, _, _. split; [exact Hinv'|]. split; [congruence|].
    rewrite length_app. simpl. split; [lia|].
    rewrite Hcount', Hcount, fetch_add1_length by lia. f_equal. lia.
Qed.

Lemma Queue_local_pop storage sp sr (pool : tLockFreePool) q xs (result : T) :
  Z.of_nat storage < 2 ^ 32 →
  QueueInv.local_inv storage pool q xs →
  match xs with
  | [] => Queue.Pop sp sr pool q result = Some (false, result, pool, q)
  | x :: xs' => ∃ pool' q', Queue.Pop sp sr pool q result = Some (true, x, pool', q') ∧
                            QueueInv.local_inv storage pool' q' xs'
  end.
Proof.
  intros Hcap (held & l & slots & b & Hinv & Hc & Hlen & Hcount).
  destruct xs as [|x xs].
  - pose proof (queue_chain_slots_nil _ _ _ _ (QueueInv.qinv_chain _ _ _ _ _ _ _ Hinv)) as ->.
    by eapply Queue_Pop_empty.
  - destruct (queue_chain_slots_cons _ _ _ _ _ _ (QueueInv.qinv_chain _ _ _ _ _ _ _ Hinv))
      as (i & slots' & ->).
    destruct (Queue_Pop_ok sp sr _ _ _ _ _ _ _ _ result Hinv)
      as (x' & xs' & pool' & q' & [= <- <-] & Hpop & Hinv').
    exists pool', q'. split; [done|].
    destruct (Queue_Pop_frame _ _ _ _ _ _ _ _ _ Hpop) as [Hc' Hcount'].
    eexists _, _, _, _. split; [exact Hinv'|]. split; [congruence|].
    simpl in *. split; [lia|].
    rewrite Hcount', Hcount. apply fetch_sub1_length. lia.
Qed.

Lemma Queue_run_op_refines storage op (pool : tLockFreePool) q xs (result : T) :
  Z.of_nat storage < 2 ^ 32 →
  QueueInv.local_inv storage pool q xs →
  ∃ pool' q',
    QueueInv.run_op op (pool, q, result) =
      Some ((ListModel.step ListModel.FIFO storage op (xs, result)).1,
            (pool', q', (ListModel.step ListModel.FIFO storage op (xs, result)).2.2)) ∧
    QueueInv.local_inv storage pool' q'
      (ListModel.step ListModel.FIFO storage op (xs, result)).2.1.
Proof.
  intros Hcap Hinv.
  destruct op as [sa sl x|sa x|sp sr|sr|]; cbn [QueueInv.run_op ListModel.step].
  - pose proof (Queue_local_push storage sa pool q xs x Hcap Hinv) as Hpush.
    case_bool_decide.
    + destruct Hpush as (pool' & q' & -> & Hinv'). bind_simpl. eauto.
    + rewrite Hpush. bind_simpl. eauto.
  - change (Queue.NonAtomicPush sa pool q x) with (Queue.Push sa pool q x).
    pose proof (Queue_local_push storage sa pool q xs x Hcap Hinv) as Hpush.
    case_bool_decide.
    + destruct Hpush as (pool' & q' & -> & Hinv'). bind_simpl. eauto.
    + rewrite Hpush. bind_simpl. eauto.
  - pose proof (Queue_local_pop storage sp sr pool q xs result Hcap Hinv) as Hpop.
    destruct xs as [|x xs].
    + rewrite Hpop. bind_simpl. eauto.
    + destruct Hpop as (pool' & q' & -> & Hinv'). bind_simpl. eauto.
  - rewrite (Queue_NonAtomicPop_Pop [] sr).
    pose proof (Queue_local_pop storage [] sr pool q xs result Hcap Hinv) as Hpop.
    destruct xs as [|x xs].
    + rewrite Hpop. bind_simpl. eauto.
    + destruct Hpop as (pool' & q' & -> & Hinv'). bind_simpl. eauto.
  - destruct Hinv as (held & l & slots & b & Hinv & Hrest).
    rewrite (Queue_Empty_inv _ _ _ _ _ _ _ Hinv). bind_simpl. cbn [fst snd].
    eexists _, _. split; [done|]. by exists held, l, slots, b.
Qed.

Lemma Queue_run_ops_refines storage ops (pool : tLockFreePool) q xs (result : T) :
  Z.of_nat storage < 2 ^ 32 →
  QueueInv.local_inv storage pool q xs →
  ∃ pool' q',
    QueueInv.run_ops ops (pool, q, result) =
      Some ((ListModel.run ListModel.FIFO storage ops (xs, result)).1,
            (pool', q', (ListModel.run ListModel.FIFO storage ops (xs, result)).2.2)) ∧
    QueueInv.local_inv storage pool' q'
      (ListModel.run ListModel.FIFO storage ops (xs, result)).2.1.
Proof.
  intros Hcap. revert pool q xs result.
  induction ops as [|op ops IH]; intros pool q xs result Hinv.
  - cbn [QueueInv.run_ops ListModel.run fst snd]. eauto.
  - cbn [QueueInv.run_ops ListModel.run].
    destruct (Queue_run_op_refines storage op pool q xs result Hcap Hinv)
      as (pool1 & q1 & -> & Hinv1).
    destruct (ListModel.step ListModel.FIFO storage op (xs, result)) as [out [xs1 r1]].
    cbn [fst snd] in *. bind_simpl.
    destruct (IH pool1 q1 xs1 r1 Hinv1) as (pool2 & q2 & -> & Hinv2).
    destruct (ListModel.run ListModel.FIFO storage ops (xs1, r1)) as [outs [xs2 r2]].
    cbn [fst snd] in *. bind_simpl. eauto.
Qed.

Lemma Queue_ctor_local_inv scheds sa (alloc : tPoolAllocator tElement) storage :
  0 < alloc_address alloc → 0 ≤ storage → storage + 1 ≤ Pool.max_capacity (T:=tElement) →
  alloc_address alloc + (storage + 1) * sizeof (T:=tElement) ≤ 2 ^ 48 →
  ∃ pool q, Queue.ctor_local scheds sa alloc storage = Some (pool, q) ∧
            QueueInv.local_inv (Z.to_nat storage) pool q [].
Proof.
  intros Halloc Hs Hcap Haddr. unfold Queue.ctor_local.
  rewrite ctor_spec, Z.min_l by lia. bind_simpl.
  assert (0 ≤ storage + 1 ≤ Pool.max_capacity (T:=tElement)) as Hcap' by lia.
  pose proof (pool_inv_initial (alloc_address alloc) (storage + 1) Halloc Hcap') as Hpool.
  replace (storage + 1) with (Z.of_nat (S (Z.to_nat storage))) in Hpool at 2 by lia.
  rewrite seqZ_S, reverse_snoc, Z.add_0_l in Hpool.
  destruct (Queue_ctor_ok sa _ _ _ _ Hpool) as (pool & q & Hctor & Hinv); [done|].
  exists pool, q. split; [done|]. eexists _, _, _, _. split; [exact Hinv|].
  unfold Queue.ctor in Hctor.
  destruct (Queue.AcquireNewNode sa _) as [[dummy pool1]|] eqn:Hacq;
    bind_simpl in Hctor; [|done].
  injection Hctor as <- <-.
  unfold Queue.AcquireNewNode in Hacq.
  destruct (Pool.AcquirePtr sa _) as [[new_mem pool0]|] eqn:Hacq0;
    bind_simpl in Hacq; [|done].
  apply AcquirePtr_capacity in Hacq0.
  assert (mCapacity pool1 = storage + 1) as Hc.
  { destruct (bool_decide (new_mem ≠ 0)).
    - destruct (Queue.store_mPrev pool0 new_mem null) as [pool2|] eqn:Hs1;
        bind_simpl in Hacq; [|done].
      apply Queue_store_mPrev_capacity in Hs1. injection Hacq as _ <-.
      by rewrite Hs1, Hacq0.
    - by injection Hacq as _ <-. }
  split; [rewrite Hc; lia|].
  cbn [length Queue.mCount]. rewrite length_reverse, length_seqZ. lia.
Qed.

(** X20.  An MPMC queue with local storage for [storage] values behaves as
    a list of at most [storage] values that is pushed at its end and popped
    at its head: every run of [Push], [NonAtomicPush], [Pop], [NonAtomicPop]
    and [Empty] returns, with the results of the same calls on the list,
    whatever the schedules of spurious failures; and [mCount] ends as the
    length of the list. *)
Theorem queue_refines_bounded_fifo scheds sa (alloc : tPoolAllocator tElement)
    (storage : Z) (ops : list (tOp T)) (result : T) :
  0 < alloc_address alloc → 0 ≤ storage → storage + 1 ≤ Pool.max_capacity (T:=tElement) →
  alloc_address alloc + (storage + 1) * sizeof (T:=tElement) ≤ 2 ^ 48 →
  ∃ pool q,
    QueueInv.run scheds sa alloc storage ops result =
      Some ((ListModel.run ListModel.FIFO (Z.to_nat storage) ops ([], result)).1,
            (pool, q,
             (ListModel.run ListModel.FIFO (Z.to_nat storage) ops ([], result)).2.2)) ∧
    Queue.mCount q =
      Z.of_nat (length
        (ListModel.run ListModel.FIFO (Z.to_nat storage) ops ([], result)).2.1).
Proof.
  intros Halloc Hs Hcap Haddr. unfold QueueInv.run.
  destruct (Queue_ctor_local_inv scheds sa alloc storage Halloc Hs Hcap Haddr)
    as (pool0 & q0 & -> & Hinv0). bind_simpl.
  pose proof (max_capacity_lt (T:=tElement)) as Hmax.
  destruct (Queue_run_ops_refines (Z.to_nat storage) ops pool0 q0 [] result)
    as (pool & q & Hrun & Hinv); [lia|done|].
  exists pool, q. split; [done|].
  by destruct Hinv as (held & l & slots & b & _ & _ & _ & Hcount).
Qed.

(** X21.  In a run by one thread [NonAtomicPop] of the MPMC queue returns
    what [Pop] returns and leaves the same queue and pool, in every state and
    for every schedule of spurious failures of [Pop]. *)
Theorem queue_nonatomic_pop_same sp sr (pool : tLockFreePool) q (result : T) :
  Queue.NonAtomicPop sr pool q result = Queue.Pop sp sr pool q result.
Proof. apply Queue_NonAtomicPop_Pop. Qed.

Lemma Queue_dtor_loop_inv storage fuel srs (pool : tLockFreePool) q xs (dummy : T) :
  Z.of_nat storage < 2 ^ 32 →
  QueueInv.local_inv storage pool q xs → (length xs < fuel)%nat →
  ∃ pool' q', Queue.dtor_loop fuel srs pool q dummy = Some (pool', q') ∧
              QueueInv.local_inv storage pool' q' [].
Proof.
  intros Hcap. revert fuel srs pool q dummy.
  induction xs as [|x xs IH]; intros fuel srs pool q dummy Hinv Hfuel;
    (destruct fuel as [|fuel]; [simpl in Hfuel; lia|]); cbn [Queue.dtor_loop];
    rewrite (Queue_NonAtomicPop_Pop [] (hd [] srs));
    pose proof (Queue_local_pop storage [] (hd [] srs) pool q _ dummy Hcap Hinv) as Hpop.
  - rewrite Hpop. bind_simpl. eauto.
  - destruct Hpop as (pool1 & q1 & -> & Hinv1). bind_simpl.
    apply IH; [done|]. simpl in Hfuel. lia.
Qed.

(** X22.  The destructor of an MPMC queue with a local pool returns: it
    pops what is left, within one call of [NonAtomicPop] more than the queue
    can hold, releases the sentinel, and leaves every node of the pool on
    the free-list. *)
Theorem queue_dtor_returns_nodes scheds sa (alloc : tPoolAllocator tElement) (storage : Z)
    (ops : list (tOp T)) (result r : T) outs (pool : tLockFreePool) q
    (fuel : nat) srs sr (T_default : T) :
  0 < alloc_address alloc → 0 ≤ storage → storage + 1 ≤ Pool.max_capacity (T:=tElement) →
  alloc_address alloc + (storage + 1) * sizeof (T:=tElement) ≤ 2 ^ 48 →
  QueueInv.run scheds sa alloc storage ops result = Some (outs, (pool, q, r)) →
  (Z.to_nat storage < fuel)%nat →
  ∃ pool' q', Queue.dtor fuel srs sr pool q T_default = Some (pool', q') ∧
              Queue.mCount q' = 0 ∧ Pool.Full pool' = Some true.
Proof.
  intros Halloc Hs Hcap Haddr Hrun Hfuel. unfold QueueInv.run in Hrun.
  destruct (Queue_ctor_local_inv scheds sa alloc storage Halloc Hs Hcap Haddr)
    as (pool0 & q0 & Hctor & Hinv0). rewrite Hctor in Hrun. bind_simpl in Hrun.
  pose proof (max_capacity_lt (T:=tElement)) as Hmax.
  assert (Z.of_nat (Z.to_nat storage) < 2 ^ 32) as Hlt by lia.
  destruct (Queue_run_ops_refines (Z.to_nat storage) ops pool0 q0 [] result Hlt Hinv0)
    as (pool1 & q1 & Hrun' & Hinv).
  rewrite Hrun in Hrun'. injection Hrun' as _ <- <- _.
  assert (length (ListModel.run ListModel.FIFO (Z.to_nat storage) ops ([], result)).2.1
          < fuel)%nat as Hlen.
  { destruct Hinv as (held & l & slots & b & _ & _ & Hlen & _). lia. }
  unfold Queue.dtor.
  destruct (Queue_dtor_loop_inv _ fuel srs pool q _ T_default Hlt Hinv Hlen)
    as (pool' & q' & -> & (held & l & slots & b & Hinv' & Hc & Hl & Hcount)).
  bind_simpl.
  pose proof (queue_chain_slots_nil _ _ _ _ (QueueInv.qinv_chain _ _ _ _ _ _ _ Hinv')) as ->.
  destruct (queue_chain_empty_inv _ _ _ _ (QueueInv.qinv_chain _ _ _ _ _ _ _ Hinv'))
    as (n & Hfront & _).
  assert (Pool.slot_ptr pool' b ∈ held) as Hheld
    by (apply (QueueInv.qinv_held _ _ _ _ _ _ _ Hinv'), elem_of_cons; by left).
  rewrite Hfront.
  destruct (ReleasePtr_inv sr pool' held l _ (QueueInv.qinv_pool _ _ _ _ _ _ _ Hinv') Hheld)
    as (pool2 & i & -> & _ & _ & [n' (Hc2 & _)] & Hpool2).
  bind_simpl. eexists _, _. split; [done|]. split; [done|].
  rewrite (Full_pool_inv _ _ _ Hpool2). f_equal. apply bool_decide_eq_true_2.
  simpl in *. lia.
Qed.


(** X24.  The retry loop of [Pop] of the MPMC queue when another thread
    has replaced the front since this one loaded it, [old_front] being the
    front that was loaded and [old_front_prev] a link that was not null: the
    first exchange fails, and be it that only the tag differs, and [Pop] goes
    on as a [Pop] that starts from the front there is now. *)
Theorem queue_stale_front_retry b sp sr (pool : tLockFreePool) q
    (old_front old_front_prev : tTaggedPtr) (result : T) :
  old_front ≠ Queue.mFront q → to_bool old_front_prev = true →
  Queue.Pop_loop (b :: sp) sr pool q old_front old_front_prev result =
  Queue.Pop sp sr pool q result.
Proof.
  intros Hne Hprev. cbn [Queue.Pop_loop]. rewrite Hprev. cbn [hd].
  rewrite compare_exchange_weak_differs by done.
  by rewrite queue_eta.
Qed.

(** X25.  The constructor of the MPMC queue does not look whether the pool
    gave it a node for the sentinel.  On a pool whose [Empty()] is true it
    returns a queue whose front and back are null and leaves the pool as it
    was; [Push] on that queue returns false, and [Empty] and [Pop] read
    through the null front, which is outside the slab. *)
Theorem queue_ctor_exhausted_pool sa sp sr (pool : tLockFreePool) (x result : T) :
  0 < mStorage pool → Pool.Empty pool = true →
  ∃ q, Queue.ctor sa pool = Some (pool, q) ∧
       GetPtr (Queue.mFront q) = 0 ∧ GetPtr (Queue.mBack q) = 0 ∧
       Queue.Push sa pool q x = Some (false, pool, q) ∧
       Queue.Empty pool q = None ∧
       Queue.Pop sp sr pool q result = None.
Proof.
  intros Hstorage Hempty.
  assert (Queue.AcquireNewNode sa pool = Some (0, pool)) as Hnew.
  { unfold Queue.AcquireNewNode. rewrite AcquirePtr_Empty by done. bind_simpl.
    by rewrite bool_decide_eq_false_2 by (intros ?; done). }
  assert (∀ tag, Queue.load_mPrev pool (GetPtr (make 0 tag)) = None) as Hload.
  { intros tag. rewrite GetPtr_make by lia.
    unfold Queue.load_mPrev, Pool.load_object, Pool.slot_of_ptr.
    by rewrite bool_decide_eq_false_2 by lia. }
  unfold Queue.ctor. rewrite Hnew. bind_simpl. eexists. split; [done|].
  cbn [Queue.mFront Queue.mBack]. rewrite GetPtr_make by lia.
  split; [done|]. split; [done|]. split; [|split].
  - unfold Queue.Push, Queue.LinkBackNodeAtomically. rewrite Hnew. bind_simpl.
    by rewrite bool_decide_eq_true_2.
  - unfold Queue.Empty. cbn [Queue.mFront]. by rewrite Hload.
  - unfold Queue.Pop. cbn [Queue.mFront]. by rewrite Hload.
Qed.

End QueueFacts.

(** C2.  The single-threaded queue test: on a queue with a pool of four
    nodes, one of them the sentinel, three pushes succeed and the fourth
    fails; three pops return 42, 666, 1337 and the fourth fails, leaving the
    out-parameter as it was. *)
Theorem queue_single_thread_test `{ObjectRepr (Queue.tLockFreeQueueNode Z)}
    scheds sch (alloc : tPoolAllocator (Queue.tLockFreeQueueNode Z)) :
  0 < alloc_address alloc →
  alloc_address alloc + 4 * sizeof (T:=Queue.tLockFreeQueueNode Z) ≤ 2 ^ 48 →
  QueueInv.single_thread_test scheds sch alloc =
    Some ([true; true; true; false],
          [(true, 42); (true, 666); (true, 1337); (false, 1337)]).
Proof.
  intros Halloc Haddr. unfold QueueInv.single_thread_test, Queue.ctor_local.
  rewrite ctor_spec by done.
  pose proof (max_capacity_bounds (T:=Queue.tLockFreeQueueNode Z)) as [Hmax _].
  rewrite Z.min_l by lia. bind_simpl.
  assert (0 ≤ 3 + 1 ≤ Pool.max_capacity (T:=Queue.tLockFreeQueueNode Z)) as Hcap by lia.
  pose proof (pool_inv_initial (alloc_address alloc) (3 + 1) Halloc Hcap) as Hpool.
  change (reverse (seqZ 0 (3 + 1))) with [3; 2; 1; 0] in Hpool.
  destruct (Queue_ctor_ok (sch 0%nat) _ _ _ _ Hpool Haddr) as (pool0 & q0 & -> & H0).
  bind_simpl.
  destruct (Queue_Push_ok (sch 1%nat) _ _ _ _ _ _ _ _ 42 H0)
    as (pool1 & q1 & -> & H1). bind_simpl.
  destruct (Queue_Push_ok (sch 2%nat) _ _ _ _ _ _ _ _ 666 H1)
    as (pool2 & q2 & -> & H2). bind_simpl.
  destruct (Queue_Push_ok (sch 3%nat) _ _ _ _ _ _ _ _ 1337 H2)
    as (pool3 & q3 & -> & H3). bind_simpl.
  rewrite (Queue_Push_full (sch 4%nat) _ _ _ _ _ _ 1138 H3).
  cbn [mbind option_bind app] in *.
  destruct (Queue_Pop_ok (sch 5%nat) (sch 6%nat) _ _ _ _ _ _ _ _ 0 H3)
    as (x1 & xs1 & pool4 & q4 & [= <- <-] & -> & H4). bind_simpl.
  destruct (Queue_Pop_ok (sch 7%nat) (sch 8%nat) _ _ _ _ _ _ _ _ 42 H4)
    as (x2 & xs2 & pool5 & q5 & [= <- <-] & -> & H5). bind_simpl.
  destruct (Queue_Pop_ok (sch 9%nat) (sch 10%nat) _ _ _ _ _ _ _ _ 666 H5)
    as (x3 & xs3 & pool6 & q6 & [= <- <-] & -> & H6). bind_simpl.
  rewrite (Queue_Pop_empty (sch 11%nat) (sch 12%nat) _ _ _ _ _ _ 1337 H6).
  done.
Qed.

(** ** Pop on an empty container *)

(** ** The MPSC queue *)

Section MPSCFacts.
Context {T : Type} `{ObjectRepr (MPSCQueue.tMPSCLockFreeQueueNode T)}.

Local Abbreviation tElement := (MPSCQueue.tMPSCLockFreeQueueNode T).
Local Abbreviation tLockFreePool := (cLockFreePool tElement).

Lemma mpsc_chain_frame (pool pool' : tLockFreePool) ptr slots ds b db i slot :
  0 ≤ i → i ∉ b :: slots → PoolInv.slot_update pool pool' i slot →
  MPSCInv.mpsc_chain pool ptr slots ds b db → MPSCInv.mpsc_chain pool' ptr slots ds b db.
Proof.
  intros Hi Hnotin (Hcap & Hstorage & Hslots).
  assert (∀ j, Pool.slot_ptr pool j = Pool.slot_ptr pool' j) as Hptr
    by (intros j; unfold Pool.slot_ptr; by rewrite Hstorage).
  induction 1 as [b n Hb Hn Hnull|j n slots ds b db Hj Hn Hnn Hchain IH].
  - apply not_elem_of_cons in Hnotin as [Hne _].
    rewrite Hptr. econstructor; [by rewrite Hcap| |done].
    rewrite Hslots, list_lookup_insert_ne; [done|lia].
  - apply not_elem_of_cons in Hnotin as [Hneb Hnotin].
    apply not_elem_of_cons in Hnotin as [Hne Hnotin].
    rewrite Hptr. econstructor; [by rewrite Hcap| |done|].
    + rewrite Hslots, list_lookup_insert_ne; [done|lia].
    + apply IH. by apply not_elem_of_cons.
Qed.

Lemma mpsc_chain_back_slot (pool : tLockFreePool) ptr slots ds b db :
  MPSCInv.mpsc_chain pool ptr slots ds b db →
  0 ≤ b < mCapacity pool ∧
  ∃ n, mSlots pool !! Z.to_nat b = Some (AsElement n) ∧ MPSCQueue.mPrev n = 0 ∧
       MPSCQueue.mData n = db.
Proof. induction 1; eauto 10. Qed.

(** The node a chain starts with. *)
Lemma mpsc_chain_head (pool : tLockFreePool) ptr slots ds b db :
  MPSCInv.mpsc_chain pool ptr slots ds b db →
  ∃ n, ptr = Pool.slot_ptr pool (hd b slots) ∧ 0 ≤ hd b slots < mCapacity pool ∧
       mSlots pool !! Z.to_nat (hd b slots) = Some (AsElement n) ∧
       MPSCQueue.mData n = hd db ds.
Proof. destruct 1; eauto 10. Qed.

Lemma mpsc_chain_length (pool : tLockFreePool) ptr slots ds b db :
  MPSCInv.mpsc_chain pool ptr slots ds b db → length slots = length ds.
Proof. induction 1; simpl; congruence. Qed.

(** The chain after a push: the former back [b] points to the new back
    [h]. *)
Lemma mpsc_chain_snoc (pool pool' : tLockFreePool) ptr slots ds b db h nb nh :
  MPSCInv.mpsc_chain pool ptr slots ds b db →
  h ∉ b :: slots → b ∉ slots → 0 ≤ h < mCapacity pool →
  mCapacity pool' = mCapacity pool → mStorage pool' = mStorage pool →
  (∀ j, 0 ≤ j → j ≠ b → j ≠ h → mSlots pool' !! Z.to_nat j = mSlots pool !! Z.to_nat j) →
  mSlots pool' !! Z.to_nat b = Some (AsElement nb) →
  MPSCQueue.mPrev nb = Pool.slot_ptr pool h → Pool.slot_ptr pool h ≠ 0 →
  mSlots pool' !! Z.to_nat h = Some (AsElement nh) →
  MPSCQueue.mPrev nh = 0 →
  MPSCInv.mpsc_chain pool' ptr (slots ++ [b]) (ds ++ [MPSCQueue.mData nb]) h
    (MPSCQueue.mData nh).
Proof.
  intros Hchain Hh Hb Hhr Hcap Hstorage Hother Hnb Hnbp Hhnn Hnh Hnhp.
  assert (∀ j, Pool.slot_ptr pool j = Pool.slot_ptr pool' j) as Hptr
    by (intros j; unfold Pool.slot_ptr; by rewrite Hstorage).
  induction Hchain as [b n Hbr Hn Hnull|j n slots ds b db Hj Hn Hnn Hchain IH].
  - cbn [app]. rewrite Hptr. econstructor; [by rewrite Hcap|done|by rewrite Hnbp|].
    rewrite Hnbp, Hptr. econstructor; [by rewrite Hcap|done|done].
  - apply not_elem_of_cons in Hb as [Hbj Hb].
    apply not_elem_of_cons in Hh as [Hhb Hh].
    apply not_elem_of_cons in Hh as [Hhj Hh].
    cbn [app]. rewrite Hptr. econstructor; [by rewrite Hcap| |done|].
    + rewrite Hother; [done|lia|done|done].
    + apply IH; [by apply not_elem_of_cons|done..].
Qed.

Lemma MPSC_store_mPrev_held (pool : tLockFreePool) held l i slot ptr :
  PoolInv.pool_inv pool held l → 0 ≤ i < mCapacity pool →
  Pool.slot_ptr pool i ∈ held → mSlots pool !! Z.to_nat i = Some slot →
  let n := {| MPSCQueue.mData := MPSCQueue.mData (Pool.object_view slot);
              MPSCQueue.mPrev := ptr |} in
  let pool' := Pool.set_mSlots pool (<[Z.to_nat i := AsElement n]> (mSlots pool)) in
  MPSCQueue.store_mPrev pool (Pool.slot_ptr pool i) ptr = Some pool' ∧
  PoolInv.pool_inv pool' held l.
Proof.
  intros Hinv Hi Hheld Hslot n pool'. unfold MPSCQueue.store_mPrev.
  rewrite (load_object_slot pool i slot (proj1 Hi) Hslot). bind_simpl.
  by apply store_object_held.
Qed.

Lemma MPSC_Push_full sa (pool : tLockFreePool) q held slots ds b db x :
  MPSCInv.mpsc_inv pool q held [] slots ds b db →
  MPSCQueue.Push sa pool q x = Some (false, pool, q).
Proof.
  intros [Hpool _ _ _ _].
  unfold MPSCQueue.Push, MPSCQueue.LinkBackNodeAtomically, MPSCQueue.AcquireNewNode.
  destruct (Acquire_inv sa pool held [] (MPSCQueue.node_ctor x) Hpool)
    as (ptr & p' & -> & [(_ & -> & ->)|(h & l' & ? & _)]); [|done].
  bind_simpl. by rewrite bool_decide_eq_false_2 by (intros ?; done).
Qed.

Lemma MPSC_Push_ok sa (pool : tLockFreePool) q held h l slots ds b db x :
  MPSCInv.mpsc_inv pool q held (h :: l) slots ds b db →
  ∃ pool' q', MPSCQueue.Push sa pool q x = Some (true, pool', q') ∧
    MPSCInv.mpsc_inv pool' q' ({[Pool.slot_ptr pool h]} ∪ held) l
      (slots ++ [b]) (ds ++ [db]) h x.
Proof.
  intros [Hpool Hchain Hback Hnodup Hheld].
  unfold MPSCQueue.Push, MPSCQueue.LinkBackNodeAtomically, MPSCQueue.AcquireNewNode.
  destruct (Acquire_inv sa pool held (h :: l) (MPSCQueue.node_ctor x) Hpool)
    as (ptr & pool1 & -> & [(? & _)|(h' & l' & [= <- <-] & Hh & -> & Hnn & Hnh &
                                     Hcap1 & Hstorage1 & Hslots1 & Hpool1)]); [done|].
  bind_simpl. rewrite bool_decide_eq_true_2 by done.
  unfold exchange. rewrite Hback.
  destruct (mpsc_chain_back_slot _ _ _ _ _ _ Hchain) as (Hb & nb & Hnb & Hnbp & Hnbd).
  pose proof (PoolInv.wf_slots _ (PoolInv.inv_wf _ _ _ Hpool)) as Hlen.
  assert (Pool.slot_ptr pool b ∈ held) as Hbheld by (apply Hheld, elem_of_cons; by left).
  assert (b ≠ h) as Hbh by (intros ->; done).
  assert (∀ j, Pool.slot_ptr pool j = Pool.slot_ptr pool1 j) as Hptr1
    by (intros j; unfold Pool.slot_ptr; by rewrite Hstorage1).
  assert (mSlots pool1 !! Z.to_nat b = Some (AsElement nb)) as Hnb1
    by (rewrite Hslots1, list_lookup_insert_ne; [done|lia]).
  rewrite (Hptr1 b).
  destruct (MPSC_store_mPrev_held pool1 _ l b (AsElement nb) (Pool.slot_ptr pool h) Hpool1)
    as [Hstore Hpool2];
    [lia|rewrite <- Hptr1; by apply elem_of_union_r|done|].
  rewrite Hstore. cbn [mbind option_bind Pool.object_view].
  set (nb' := {| MPSCQueue.mData := MPSCQueue.mData nb;
                 MPSCQueue.mPrev := Pool.slot_ptr pool h |}) in *.
  set (pool2 := Pool.set_mSlots pool1 _) in *.
  eexists _, _. split; [done|].
  assert (h ∉ b :: slots) as Hhnotin by (intros Hin; by apply Hheld in Hin).
  apply NoDup_cons in Hnodup as [Hbnotin Hnodup].
  assert (mCapacity pool2 = mCapacity pool) as Hcap2 by done.
  assert (mStorage pool2 = mStorage pool) as Hstorage2 by done.
  assert (∀ j, Pool.slot_ptr pool2 j = Pool.slot_ptr pool j) as Hptr2
    by (intros j; unfold Pool.slot_ptr; by rewrite Hstorage2).
  assert (mSlots pool2 = <[Z.to_nat b := AsElement nb']>
                           (<[Z.to_nat h := AsElement (MPSCQueue.node_ctor x)]>
                              (mSlots pool))) as Hslots2
    by (subst pool2; cbn [mSlots Pool.set_mSlots]; by rewrite Hslots1).
  split.
  - done.
  - cbn [MPSCQueue.mFront]. rewrite <- Hnbd.
    change (MPSCQueue.mData nb) with (MPSCQueue.mData nb').
    change x with (MPSCQueue.mData (MPSCQueue.node_ctor x)).
    apply (mpsc_chain_snoc pool pool2 _ _ _ _ _ h nb' _ Hchain); try done.
    + intros j Hj Hjb Hjh. rewrite Hslots2.
      rewrite !list_lookup_insert_ne by lia. done.
    + rewrite Hslots2. apply list_lookup_insert_eq. rewrite length_insert. lia.
    + rewrite Hslots2, list_lookup_insert_ne by lia.
      apply list_lookup_insert_eq. lia.
  - cbn [MPSCQueue.mBack]. by rewrite Hptr2.
  - apply not_elem_of_cons in Hhnotin as [Hhb Hhslots].
    apply NoDup_cons. split.
    + rewrite elem_of_app, list_elem_of_singleton. intros [?|?]; done.
    + apply NoDup_app. split; [done|]. split; [|apply NoDup_singleton].
      intros j Hj Hjb. apply list_elem_of_singleton in Hjb as ->. done.
  - intros j Hj. rewrite Hptr2.
    apply elem_of_cons in Hj as [->|Hj]; [by apply elem_of_union_l, elem_of_singleton|].
    apply elem_of_union_r, Hheld.
    apply elem_of_app in Hj as [Hj|Hj]; [by apply elem_of_cons; right|].
    apply list_elem_of_singleton in Hj as ->. apply elem_of_cons. by left.
Qed.

Lemma MPSC_Pop_empty sr (pool : tLockFreePool) q held l ds b db (result : T) :
  MPSCInv.mpsc_inv pool q held l [] ds b db →
  MPSCQueue.Pop sr pool q result = Some (false, result, pool, q).
Proof.
  intros [_ Hchain _ _ _]. unfold MPSCQueue.Pop, MPSCQueue.load_mPrev.
  inversion Hchain as [b' n Hb Hn Hnull Hfront| ]; subst.
  rewrite (load_object_slot pool b _ (proj1 Hb) Hn).
  cbn [fmap option_fmap option_map mbind option_bind Pool.object_view].
  by rewrite bool_decide_eq_false_2 by (intros ?; done).
Qed.

Lemma MPSC_Pop_ok sr (pool : tLockFreePool) q held l i slots ds b db (result : T) :
  MPSCInv.mpsc_inv pool q held l (i :: slots) ds b db →
  ∃ d ds' pool' q', ds = d :: ds' ∧
    MPSCQueue.Pop sr pool q result = Some (true, hd db ds', pool', q') ∧
    MPSCInv.mpsc_inv pool' q' (held ∖ {[Pool.slot_ptr pool i]}) (i :: l) slots ds' b db.
Proof.
  intros [Hpool Hchain Hback Hnodup Hheld].
  inversion Hchain as [|i' n slots' ds' b' db' Hi Hn Hnn Hchain' Hfront]; subst.
  assert (Pool.slot_ptr pool i ∈ held) as Hin
    by (apply Hheld; apply elem_of_cons; right; apply elem_of_cons; by left).
  destruct (mpsc_chain_head _ _ _ _ _ _ Hchain') as (n' & Hnext & Hj & Hn' & Hdata).
  unfold MPSCQueue.Pop, MPSCQueue.load_mPrev. rewrite <- Hfront.
  rewrite (load_object_slot pool i _ (proj1 Hi) Hn).
  cbn [fmap option_fmap option_map mbind option_bind Pool.object_view].
  rewrite bool_decide_eq_true_2 by done.
  assert (Pool.load_object pool (MPSCQueue.mPrev n) = Some n') as ->
    by (rewrite Hnext; apply (load_object_slot pool _ _ (proj1 Hj) Hn')).
  cbn [mbind option_bind Pool.object_view]. unfold Pool.Release.
  destruct (ReleasePtr_inv sr pool held l _ Hpool Hin)
    as (pool' & i' & -> & Hptr & _ & [nn Hupd] & Hpool').
  apply slot_ptr_inj in Hptr as <-.
  bind_simpl. rewrite Hdata. eexists _, _, _, _. split; [done|]. split; [done|].
  assert (∀ j, Pool.slot_ptr pool' j = Pool.slot_ptr pool j) as Hptrs
    by (intros j; unfold Pool.slot_ptr; by destruct Hupd as (_ & -> & _)).
  apply NoDup_cons in Hnodup as [Hbnotin Hnodup].
  apply not_elem_of_cons in Hbnotin as [Hbi Hbnotin].
  apply NoDup_cons in Hnodup as [Hinotin Hnodup].
  split.
  - done.
  - cbn [MPSCQueue.mFront].
    apply (mpsc_chain_frame pool pool' _ _ _ _ _ i (AsNode nn)); [lia| |done|done].
    apply not_elem_of_cons. split; [done|done].
  - cbn [MPSCQueue.mBack]. by rewrite Hptrs.
  - by apply NoDup_cons.
  - intros j Hj'. rewrite Hptrs. apply elem_of_difference. split.
    + apply Hheld. apply elem_of_cons in Hj' as [->|Hj']; [apply elem_of_cons; by left|].
      apply elem_of_cons; right. apply elem_of_cons; by right.
    + rewrite elem_of_singleton. intros Heq. apply slot_ptr_inj in Heq as ->.
      apply elem_of_cons in Hj' as [->|Hj']; done.
Qed.

Lemma MPSC_ctor_ok sa (pool : tLockFreePool) held h l (T_default : T) :
  PoolInv.pool_inv pool held (h :: l) →
  ∃ pool' q, MPSCQueue.ctor sa pool T_default = Some (pool', q) ∧
    MPSCInv.mpsc_inv pool' q ({[Pool.slot_ptr pool h]} ∪ held) l [] [] h T_default.
Proof.
  intros Hpool. unfold MPSCQueue.ctor, MPSCQueue.AcquireNewNode.
  destruct (Acquire_inv sa pool held (h :: l) (MPSCQueue.node_ctor T_default) Hpool)
    as (ptr & pool1 & -> & [(? & _)|(h' & l' & [= <- <-] & Hh & -> & Hnn & Hnh &
                                     Hcap1 & Hstorage1 & Hslots1 & Hpool1)]); [done|].
  bind_simpl. eexists _, _. split; [done|].
  pose proof (PoolInv.wf_slots _ (PoolInv.inv_wf _ _ _ Hpool)) as Hlen.
  assert (∀ j, Pool.slot_ptr pool1 j = Pool.slot_ptr pool j) as Hptr1
    by (intros j; unfold Pool.slot_ptr; by rewrite Hstorage1).
  split.
  - done.
  - cbn [MPSCQueue.mFront]. rewrite <- Hptr1.
    change (MPSCInv.mpsc_chain pool1 (Pool.slot_ptr pool1 h) [] [] h
              (MPSCQueue.mData (MPSCQueue.node_ctor T_default))).
    econstructor; [by rewrite Hcap1| |done].
    rewrite Hslots1. apply list_lookup_insert_eq. lia.
  - cbn [MPSCQueue.mBack]. by rewrite Hptr1.
  - apply NoDup_singleton.
  - intros j Hj. apply list_elem_of_singleton in Hj as ->. rewrite Hptr1.
    by apply elem_of_union_l, elem_of_singleton.
Qed.

(** *** Runs of an MPSC queue with a local pool *)

Lemma MPSC_store_mPrev_capacity (pool pool' : tLockFreePool) node ptr :
  MPSCQueue.store_mPrev pool node ptr = Some pool' → mCapacity pool' = mCapacity pool.
Proof.
  unfold MPSCQueue.store_mPrev. destruct (Pool.load_object pool node); bind_simpl; [|done].
  apply store_object_capacity.
Qed.

Lemma MPSC_Push_frame sa (pool pool' : tLockFreePool) q q' (x : T) b :
  MPSCQueue.Push sa pool q x = Some (b, pool', q') →
  mCapacity pool' = mCapacity pool ∧
  MPSCQueue.mCount q' = if b then fetch_add1 (MPSCQueue.mCount q) else MPSCQueue.mCount q.
Proof.
  unfold MPSCQueue.Push, MPSCQueue.LinkBackNodeAtomically, MPSCQueue.AcquireNewNode.
  destruct (Pool.Acquire sa pool _) as [[new_node pool1]|] eqn:Hacq; bind_simpl; [|done].
  apply Acquire_capacity in Hacq. case_bool_decide; [|by intros [= <- <- <-]].
  unfold exchange.
  destruct (MPSCQueue.store_mPrev pool1 _ _) as [pool2|] eqn:Hs; bind_simpl; [|done].
  apply MPSC_store_mPrev_capacity in Hs. intros [= <- <- <-]. split; [congruence|done].
Qed.

Lemma MPSC_Pop_frame sr (pool pool' : tLockFreePool) q q' (result result' : T) b :
  MPSCQueue.Pop sr pool q result = Some (b, result', pool', q') →
  mCapacity pool' = mCapacity pool ∧
  MPSCQueue.mCount q' = if b then fetch_sub1 (MPSCQueue.mCount q) else MPSCQueue.mCount q.
Proof.
  unfold MPSCQueue.Pop.
  destruct (MPSCQueue.load_mPrev pool _) as [prev|]; bind_simpl; [|done].
  case_bool_decide; [|by intros [= <- <- <- <-]].
  destruct (Pool.load_object pool _) as [n|]; bind_simpl; [|done].
  destruct (Pool.Release sr pool _) as [pool1|] eqn:Hrel; bind_simpl; [|done].
  apply ReleasePtr_capacity in Hrel. by intros [= <- <- <- <-].
Qed.

Lemma MPSC_Empty_inv (pool : tLockFreePool) q held l slots ds b db :
  MPSCInv.mpsc_inv pool q held l slots ds b db →
  MPSCQueue.Empty pool q =
    Some (match MPSCInv.contents ds db with [] => true | _ => false end).
Proof.
  intros [_ Hchain _ _ _]. unfold MPSCQueue.Empty, MPSCQueue.load_mPrev.
  pose proof (mpsc_chain_length _ _ _ _ _ _ Hchain) as Hlen.
  destruct Hchain as [b n Hb Hn Hnull|i n slots ds b db Hi Hn Hnn Hchain];
    rewrite (load_object_slot pool _ _ (proj1 ltac:(eassumption)) Hn);
    cbn [fmap option_fmap option_map mbind option_bind Pool.object_view].
  - by rewrite bool_decide_eq_true_2.
  - rewrite bool_decide_eq_false_2 by done. unfold MPSCInv.contents. cbn [app tl].
    by destruct ds.
Qed.

Lemma contents_snoc (ds : list T) db x :
  MPSCInv.contents (ds ++ [db]) x = MPSCInv.contents ds db ++ [x].
Proof. unfold MPSCInv.contents. by destruct ds. Qed.

Lemma contents_cons (d : T) ds db :
  MPSCInv.contents (d :: ds) db = hd db ds :: MPSCInv.contents ds db.
Proof. unfold MPSCInv.contents. by destruct ds. Qed.

Lemma MPSC_local_push storage sa (pool : tLockFreePool) q xs x :
  Z.of_nat storage < 2 ^ 32 →
  MPSCInv.local_inv storage pool q xs →
  if bool_decide (length xs < storage)%nat
  then ∃ pool' q', MPSCQueue.Push sa pool q x = Some (true, pool', q') ∧
                   MPSCInv.local_inv storage pool' q' (xs ++ [x])
  else MPSCQueue.Push sa pool q x = Some (false, pool, q).
Proof.
  intros Hcap (held & l & slots & ds & b & db & Hinv & -> & Hc & Hlen & Hcount).
  destruct l as [|h l]; simpl in Hlen.
  - rewrite bool_decide_eq_false_2 by lia. by eapply MPSC_Push_full.
  - rewrite bool_decide_eq_true_2 by lia.
    destruct (MPSC_Push_ok sa _ _ _ _ _ _ _ _ _ x Hinv) as (pool' & q' & Hpush & Hinv').
    exists pool', q'. split; [done|].
    destruct (MPSC_Push_frame _ _ _ _ _ _ _ Hpush) as [Hc' Hcount'].
    eexists _, _, _, _, _, _. split; [exact Hinv'|].
    split; [by rewrite contents_snoc|]. split; [congruence|].
    rewrite length_app. simpl. split; [lia|].
    rewrite Hcount', Hcount, fetch_add1_length by lia. f_equal. lia.
Qed.

Lemma MPSC_local_pop storage sr (pool : tLockFreePool) q xs (result : T) :
  Z.of_nat storage < 2 ^ 32 →
  MPSCInv.local_inv storage pool q xs →
  match xs with
  | [] => MPSCQueue.Pop sr pool q result = Some (false, result, pool, q)
  | x :: xs' => ∃ pool' q', MPSCQueue.Pop sr pool q result = Some (true, x, pool', q') ∧
                            MPSCInv.local_inv storage pool' q' xs'
  end.
Proof.
  intros Hcap (held & l & slots & ds & b & db & Hinv & -> & Hc & Hlen & Hcount).
  pose proof (mpsc_chain_length _ _ _ _ _ _ (MPSCInv.minv_chain _ _ _ _ _ _ _ _ Hinv))
    as Hlens.
  destruct slots as [|i slots].
  - destruct ds; [|done]. cbn. by eapply MPSC_Pop_empty.
  - destruct (MPSC_Pop_ok sr _ _ _ _ _ _ _ _ _ result Hinv)
      as (d & ds' & pool' & q' & -> & Hpop & Hinv').
    rewrite contents_cons in *. exists pool', q'. split; [done|].
    destruct (MPSC_Pop_frame _ _ _ _ _ _ _ _ Hpop) as [Hc' Hcount'].
    eexists _, _, _, _, _, _. split; [exact Hinv'|]. split; [done|].
    split; [congruence|]. simpl in *. split; [lia|].
    rewrite Hcount', Hcount. apply fetch_sub1_length. lia.
Qed.

Lemma MPSC_run_op_refines storage op (pool : tLockFreePool) q xs (result : T) :
  Z.of_nat storage < 2 ^ 32 →
  MPSCInv.local_inv storage pool q xs →
  ∃ pool' q',
    MPSCInv.run_op op (pool, q, result) =
      Some ((ListModel.step ListModel.FIFO storage op (xs, result)).1,
            (pool', q', (ListModel.step ListModel.FIFO storage op (xs, result)).2.2)) ∧
    MPSCInv.local_inv storage pool' q'
      (ListModel.step ListModel.FIFO storage op (xs, result)).2.1.
Proof.
  intros Hcap Hinv.
  destruct op as [sa sl x|sa x|sp sr|sr|]; cbn [MPSCInv.run_op ListModel.step].
  - pose proof (MPSC_local_push storage sa pool q xs x Hcap Hinv) as Hpush.
    case_bool_decide.
    + destruct Hpush as (pool' & q' & -> & Hinv'). bind_simpl. eauto.
    + rewrite Hpush. bind_simpl. eauto.
  - change (MPSCQueue.NonAtomicPush sa pool q x) with (MPSCQueue.Push sa pool q x).
    pose proof (MPSC_local_push storage sa pool q xs x Hcap Hinv) as Hpush.
    case_bool_decide.
    + destruct Hpush as (pool' & q' & -> & Hinv'). bind_simpl. eauto.
    + rewrite Hpush. bind_simpl. eauto.
  - pose proof (MPSC_local_pop storage sr pool q xs result Hcap Hinv) as Hpop.
    destruct xs as [|x xs].
    + rewrite Hpop. bind_simpl. eauto.
    + destruct Hpop as (pool' & q' & -> & Hinv'). bind_simpl. eauto.
  - change (MPSCQueue.NonAtomicPop sr pool q result) with (MPSCQueue.Pop sr pool q result).
    pose proof (MPSC_local_pop storage sr pool q xs result Hcap Hinv) as Hpop.
    destruct xs as [|x xs].
    + rewrite Hpop. bind_simpl. eauto.
    + destruct Hpop as (pool' & q' & -> & Hinv'). bind_simpl. eauto.
  - destruct Hinv as (held & l & slots & ds & b & db & Hinv & -> & Hrest).
    rewrite (MPSC_Empty_inv _ _ _ _ _ _ _ _ Hinv). bind_simpl. cbn [fst snd].
    eexists _, _. split; [done|]. by exists held, l, slots, ds, b, db.
Qed.

Lemma MPSC_run_ops_refines storage ops (pool : tLockFreePool) q xs (result : T) :
  Z.of_nat storage < 2 ^ 32 →
  MPSCInv.local_inv storage pool q xs →
  ∃ pool' q',
    MPSCInv.run_ops ops (pool, q, result) =
      Some ((ListModel.run ListModel.FIFO storage ops (xs, result)).1,
            (pool', q', (ListModel.run ListModel.FIFO storage ops (xs, result)).2.2)) ∧
    MPSCInv.local_inv storage pool' q'
      (ListModel.run ListModel.FIFO storage ops (xs, result)).2.1.
Proof.
  intros Hcap. revert pool q xs result.
  induction ops as [|op ops IH]; intros pool q xs result Hinv.
  - cbn [MPSCInv.run_ops ListModel.run fst snd]. eauto.
  - cbn [MPSCInv.run_ops ListModel.run].
    destruct (MPSC_run_op_refines storage op pool q xs result Hcap Hinv)
      as (pool1 & q1 & -> & Hinv1).
    destruct (ListModel.step ListModel.FIFO storage op (xs, result)) as [out [xs1 r1]].
    cbn [fst snd] in *. bind_simpl.
    destruct (IH pool1 q1 xs1 r1 Hinv1) as (pool2 & q2 & -> & Hinv2).
    destruct (ListModel.run ListModel.FIFO storage ops (xs1, r1)) as [outs [xs2 r2]].
    cbn [fst snd] in *. bind_simpl. eauto.
Qed.

Lemma MPSC_ctor_local_inv scheds sa (alloc : tPoolAllocator tElement) storage
    (T_default : T) :
  0 < alloc_address alloc → 0 ≤ storage → storage + 1 ≤ Pool.max_capacity (T:=tElement) →
  ∃ pool q, MPSCQueue.ctor_local scheds sa alloc storage T_default = Some (pool, q) ∧
            MPSCInv.local_inv (Z.to_nat storage) pool q [].
Proof.
  intros Halloc Hs Hcap. unfold MPSCQueue.ctor_local.
  rewrite ctor_spec, Z.min_l by lia. bind_simpl.
  assert (0 ≤ storage + 1 ≤ Pool.max_capacity (T:=tElement)) as Hcap' by lia.
  pose proof (pool_inv_initial (alloc_address alloc) (storage + 1) Halloc Hcap') as Hpool.
  replace (storage + 1) with (Z.of_nat (S (Z.to_nat storage))) in Hpool at 2 by lia.
  rewrite seqZ_S, reverse_snoc, Z.add_0_l in Hpool.
  destruct (MPSC_ctor_ok sa _ _ _ _ T_default Hpool) as (pool & q & Hctor & Hinv).
  exists pool, q. split; [done|]. eexists _, _, _, _, _, _. split; [exact Hinv|].
  split; [done|].
  unfold MPSCQueue.ctor, MPSCQueue.AcquireNewNode in Hctor.
  destruct (Pool.Acquire sa _ _) as [[sentinel pool1]|] eqn:Hacq;
    bind_simpl in Hctor; [|done].
  injection Hctor as <- <-. apply Acquire_capacity in Hacq.
  split; [rewrite Hacq; cbn [mCapacity PoolInv.initial_pool]; lia|].
  cbn [length MPSCQueue.mCount MPSCInv.contents app tl].
  rewrite length_reverse, length_seqZ. lia.
Qed.

(** X26.  An MPSC queue with local storage for [storage] values behaves as
    a list of at most [storage] values that is pushed at its end and popped
    at its head: every run of [Push], [NonAtomicPush], [Pop], [NonAtomicPop]
    and [Empty] by one thread returns, with the results of the same calls on
    the list, whatever the schedules of spurious failures; and [mCount] ends
    as the length of the list. *)
Theorem mpsc_queue_refines_bounded_fifo scheds sa (alloc : tPoolAllocator tElement)
    (storage : Z) (T_default : T) (ops : list (tOp T)) (result : T) :
  0 < alloc_address alloc → 0 ≤ storage → storage + 1 ≤ Pool.max_capacity (T:=tElement) →
  ∃ pool q,
    MPSCInv.run scheds sa alloc storage T_default ops result =
      Some ((ListModel.run ListModel.FIFO (Z.to_nat storage) ops ([], result)).1,
            (pool, q,
             (ListModel.run ListModel.FIFO (Z.to_nat storage) ops ([], result)).2.2)) ∧
    MPSCQueue.mCount q =
      Z.of_nat (length
        (ListModel.run ListModel.FIFO (Z.to_nat storage) ops ([], result)).2.1).
Proof.
  intros Halloc Hs Hcap. unfold MPSCInv.run.
  destruct (MPSC_ctor_local_inv scheds sa alloc storage T_default Halloc Hs Hcap)
    as (pool0 & q0 & -> & Hinv0). bind_simpl.
  pose proof (max_capacity_lt (T:=tElement)) as Hmax.
  destruct (MPSC_run_ops_refines (Z.to_nat storage) ops pool0 q0 [] result)
    as (pool & q & Hrun & Hinv); [lia|done|].
  exists pool, q. split; [done|].
  by destruct Hinv as (held & l & slots & ds & b & db & _ & _ & _ & _ & Hcount).
Qed.

End MPSCFacts.

Section ContainerFacts.
Context {T : Type}
  `{ObjectRepr (Stack.tLockFreeStackNode T)}
  `{ObjectRepr (Queue.tLockFreeQueueNode T)}
  `{ObjectRepr (MPSCQueue.tMPSCLockFreeQueueNode T)}.

(** C5.  On a stack, a queue or an MPSC queue for which [Empty()] holds,
    [Pop] returns false and leaves the out-parameter, the container and
    its pool as they were. *)
Theorem pop_on_empty sp sr (c : tContainer T) (result : T) :
  Container.Empty c = Some true →
  Container.Pop sp sr c result = Some (false, result, c).
Proof.
  destruct c as [pool s|pool q|pool q]; cbn [Container.Empty Container.Pop].
  - intros [= Hempty]. unfold Stack.Empty in Hempty.
    rewrite Stack_Pop_spec, Hempty. done.
  - unfold Queue.Empty. rewrite Queue_Pop_spec.
    destruct (Queue.load_mPrev _ _) as [prev|]; [|done]. bind_simpl.
    intros [= Hempty]. apply negb_true_iff in Hempty. by rewrite Hempty.
  - unfold MPSCQueue.Empty, MPSCQueue.Pop.
    destruct (MPSCQueue.load_mPrev _ _) as [prev|]; [|done]. bind_simpl.
    intros [= Hempty]. apply bool_decide_eq_true in Hempty as ->.
    by rewrite bool_decide_eq_false_2 by (intros ?; done).
Qed.

(** X27.  For each of the three containers, [Push] on a pool whose
    [Empty()] is true returns false and leaves the container and the pool as
    they were, for every schedule. *)
Theorem push_on_exhausted_pool sa sl (c : tContainer T) (x : T) :
  ContainerPush.pool_Empty c = true →
  ContainerPush.Push sa sl c x = Some (false, c).
Proof.
  destruct c as [pool s|pool q|pool q]; cbn [ContainerPush.pool_Empty ContainerPush.Push];
    intros Hempty.
  - unfold Stack.Push. rewrite Acquire_Empty by done. bind_simpl.
    by rewrite bool_decide_eq_false_2 by (intros ?; done).
  - unfold Queue.Push, Queue.LinkBackNodeAtomically, Queue.AcquireNewNode.
    rewrite AcquirePtr_Empty by done. bind_simpl.
    rewrite bool_decide_eq_false_2 by (intros ?; done). bind_simpl.
    by rewrite bool_decide_eq_true_2.
  - unfold MPSCQueue.Push, MPSCQueue.LinkBackNodeAtomically, MPSCQueue.AcquireNewNode.
    rewrite Acquire_Empty by done. bind_simpl.
    by rewrite bool_decide_eq_false_2 by (intros ?; done).
Qed.

End ContainerFacts.

Section IntStackExamples.
Local Existing Instance stack_node_int_repr.

Lemma stack_single_thread_test_witness :
  0 < alloc_address (zeroed_allocator (T:=Stack.tLockFreeStackNode Z) 4096) ∧
  alloc_address (zeroed_allocator (T:=Stack.tLockFreeStackNode Z) 4096)
    + 3 * sizeof (T:=Stack.tLockFreeStackNode Z) ≤ 2 ^ 48 ∧
  StackInv.single_thread_test [] (λ _, [true]) (zeroed_allocator 4096) =
    Some ([true; true; true; false],
          [(true, 1337); (true, 666); (true, 42); (false, 42)]).
Proof.
  split; [simpl; lia|]. split; [simpl; lia|].
  apply (stack_single_thread_test [] (λ _, [true]) (zeroed_allocator 4096));
    simpl; lia.
Defined.

Lemma stack_top_tag_policy_witness :
  0 ≤ mPackedPtr (Stack.mTop int_stack_one.2) < 2 ^ 64 ∧
  GetPtr (Stack.mTop int_stack_one.2) ≠ 0 ∧
  Pool.load_object int_stack_one.1 (GetPtr (Stack.mTop int_stack_one.2))
    = Some (Stack.node_ctor 42) ∧
  Pool.Acquire [] int_stack_one.1 (Stack.node_ctor 666) = Some (4112, int_stack_acquired) ∧
  4112 ≠ 0 ∧
  (∃ pool' s',
     Stack.Pop [true] [] int_stack_one.1 int_stack_one.2 0 = Some (true, 42, pool', s') ∧
     Pool.Release [] int_stack_one.1 (GetPtr (Stack.mTop int_stack_one.2)) = Some pool' ∧
     Stack.mTop s' = make (GetPtr (Stack.mPrev (Stack.node_ctor 42)))
                       (GetTag (Stack.mTop int_stack_one.2) + 1) ∧
     GetTag (Stack.mTop s') = (GetTag (Stack.mTop int_stack_one.2) + 1) mod 2 ^ 16 ∧
     (GetTag (Stack.mTop int_stack_one.2) < 2 ^ 16 - 1 →
      GetTag (Stack.mTop s') = GetTag (Stack.mTop int_stack_one.2) + 1)) ∧
  (∃ pool' s',
     Stack.Push [] [true] int_stack_one.1 int_stack_one.2 666 = Some (true, pool', s') ∧
     Stack.mTop s' = Set_ 4112 (GetTag (Stack.mTop int_stack_one.2)) ∧
     GetTag (Stack.mTop s') = GetTag (Stack.mTop int_stack_one.2) ∧
     Pool.load_object pool' 4112
       = Some (Stack.set_mPrev (Stack.node_ctor 666) (Stack.mTop int_stack_one.2))).
Proof.
  assert (0 ≤ mPackedPtr (Stack.mTop int_stack_one.2) < 2 ^ 64) as Htop
    by (vm_compute; intuition congruence).
  assert (GetPtr (Stack.mTop int_stack_one.2) ≠ 0) as Hnn by (vm_compute; congruence).
  assert (Pool.load_object int_stack_one.1 (GetPtr (Stack.mTop int_stack_one.2))
            = Some (Stack.node_ctor 42)) as Hn by (vm_compute; reflexivity).
  assert (Pool.Acquire [] int_stack_one.1 (Stack.node_ctor 666)
            = Some (4112, int_stack_acquired)) as Hacq by (vm_compute; reflexivity).
  assert (4112 ≠ 0) as Hnode by lia.
  destruct (stack_top_tag_policy [] [true] [true] [] int_stack_one.1 int_stack_one.2
              666 0 Htop) as (_ & _ & Hpop & Hpush).
  split; [exact Htop|]. split; [exact Hnn|]. split; [exact Hn|].
  split; [exact Hacq|]. split; [exact Hnode|].
  split; [exact (Hpop _ Hnn Hn) | exact (Hpush _ _ Hacq Hnode)].
Defined.

(** Both operations do succeed on that stack. *)
Example stack_top_tag_policy_runs :
  (∃ pool' s', Stack.Pop [true] [] int_stack_one.1 int_stack_one.2 0
                 = Some (true, 42, pool', s') ∧
               GetTag (Stack.mTop int_stack_one.2) = 0 ∧ GetTag (Stack.mTop s') = 1) ∧
  (∃ pool' s', Stack.Push [] [true] int_stack_one.1 int_stack_one.2 666
                 = Some (true, pool', s') ∧ GetTag (Stack.mTop s') = 0).
Proof. split; eexists _, _; vm_compute; repeat split; reflexivity. Qed.

Lemma stack_refines_bounded_lifo_witness :
  0 < alloc_address (zeroed_allocator (T:=Stack.tLockFreeStackNode Z) 4096) ∧
  0 ≤ 2 ≤ Pool.max_capacity (T:=Stack.tLockFreeStackNode Z) ∧
  alloc_address (zeroed_allocator (T:=Stack.tLockFreeStackNode Z) 4096)
    + 2 * sizeof (T:=Stack.tLockFreeStackNode Z) ≤ 2 ^ 48 ∧
  ∃ pool s,
    StackInv.run [] (zeroed_allocator 4096) 2 int_container_ops 0 =
      Some ((ListModel.run ListModel.LIFO (Z.to_nat 2) int_container_ops ([], 0)).1,
            (pool, s, (ListModel.run ListModel.LIFO (Z.to_nat 2) int_container_ops ([], 0)).2.2)) ∧
    Stack.mCount s =
      Z.of_nat (length (ListModel.run ListModel.LIFO (Z.to_nat 2) int_container_ops ([], 0)).2.1).
Proof.
  split; [simpl; lia|]. split; [vm_compute; split; congruence|]. split; [simpl; lia|].
  apply (stack_refines_bounded_lifo [] (zeroed_allocator 4096) 2 int_container_ops 0);
    [simpl; lia | vm_compute; split; congruence | simpl; lia].
Defined.

(** What the run and the list return: the third push finds the two nodes
    taken, the pops return the values pushed last, and the push after them
    succeeds again. *)
Example int_stack_run :
  int_stack_after.1 =
    [IsEmpty true; Pushed true; Pushed true; Pushed false; IsEmpty false;
     Popped true 666; Popped true 42; Pushed true] ∧
  ListModel.run ListModel.LIFO 2 int_container_ops ([], 0) = (int_stack_after.1, ([1138], 42)).
Proof. split; reflexivity. Qed.

Lemma stack_dtor_returns_nodes_witness :
  0 < alloc_address (zeroed_allocator (T:=Stack.tLockFreeStackNode Z) 4096) ∧
  0 ≤ 2 ≤ Pool.max_capacity (T:=Stack.tLockFreeStackNode Z) ∧
  alloc_address (zeroed_allocator (T:=Stack.tLockFreeStackNode Z) 4096)
    + 2 * sizeof (T:=Stack.tLockFreeStackNode Z) ≤ 2 ^ 48 ∧
  StackInv.run [] (zeroed_allocator 4096) 2 int_container_ops 0 =
    Some (int_stack_after.1,
          (int_stack_after.2.1.1, int_stack_after.2.1.2, int_stack_after.2.2)) ∧
  (Z.to_nat 2 < 3)%nat ∧
  ∃ pool' s',
    Stack.dtor 3 [[true]] int_stack_after.2.1.1 int_stack_after.2.1.2 0 = Some (pool', s') ∧
    Stack.Empty s' = true ∧ Stack.mCount s' = 0 ∧ Pool.Full pool' = Some true.
Proof.
  split; [simpl; lia|]. split; [vm_compute; split; congruence|]. split; [simpl; lia|].
  split; [vm_compute; reflexivity|]. split; [simpl; lia|].
  apply (stack_dtor_returns_nodes [] (zeroed_allocator 4096) 2 int_container_ops 0
           int_stack_after.2.2 int_stack_after.1
           int_stack_after.2.1.1 int_stack_after.2.1.2 3 [[true]] 0);
    [simpl; lia | vm_compute; split; congruence | simpl; lia | vm_compute; reflexivity
    | simpl; lia].
Defined.

Lemma stack_stale_top_retry_witness :
  int_stale_top ≠ Stack.mTop int_stack_one.2 ∧
  GetPtr int_stale_top ≠ 0 ∧
  is_Some (Pool.load_object int_stack_linking (GetPtr int_stale_top)) ∧
  0 ≤ 1 ∧
  mSlots int_stack_linking !! Z.to_nat 1
    = Some (AsElement {| Stack.mData := 666; Stack.mPrev := int_stale_top |}) ∧
  Stack.mPrev {| Stack.mData := 666; Stack.mPrev := int_stale_top |} = int_stale_top ∧
  Stack.Pop_loop [false] [] int_stack_linking int_stack_one.2 int_stale_top 0
    = Stack.Pop [] [] int_stack_linking int_stack_one.2 0 ∧
  Stack.LinkTopNodeAtomically_loop [false] int_stack_linking int_stack_one.2
      (Pool.slot_ptr int_stack_linking 1) =
    Some (Pool.set_mSlots int_stack_linking
            (<[Z.to_nat 1 :=
                 AsElement (Stack.set_mPrev {| Stack.mData := 666; Stack.mPrev := int_stale_top |}
                              (Stack.mTop int_stack_one.2))]> (mSlots int_stack_linking)),
          {| Stack.mTop := Set_ (Pool.slot_ptr int_stack_linking 1)
                             (GetTag (Stack.mTop int_stack_one.2));
             Stack.mCount := Stack.mCount int_stack_one.2 |}).
Proof.
  assert (int_stale_top ≠ Stack.mTop int_stack_one.2) as Hne by (vm_compute; congruence).
  assert (GetPtr int_stale_top ≠ 0) as Hnn by (vm_compute; congruence).
  split; [exact Hne|]. split; [exact Hnn|]. split; [by eexists|]. split; [lia|].
  split; [reflexivity|]. split; [reflexivity|].
  apply (stack_stale_top_retry false [] [] [] int_stack_linking int_stack_one.2
           int_stale_top 0 1 {| Stack.mData := 666; Stack.mPrev := int_stale_top |});
    [exact Hne | exact Hnn | by eexists | lia | reflexivity | reflexivity].
Defined.

Lemma stacks_share_pool_witness :
  0 < alloc_address (zeroed_allocator (T:=Stack.tLockFreeStackNode Z) 4096) ∧
  0 ≤ 3 ≤ Pool.max_capacity (T:=Stack.tLockFreeStackNode Z) ∧
  alloc_address (zeroed_allocator (T:=Stack.tLockFreeStackNode Z) 4096)
    + 3 * sizeof (T:=Stack.tLockFreeStackNode Z) ≤ 2 ^ 48 ∧
  ∃ pool sA sB,
    StackInv.run_shared [] (zeroed_allocator 4096) 3 int_shared_calls 0 =
      Some ((ListModel.run_shared (Z.to_nat 3) int_shared_calls ([], [], 0)).1,
            (pool, sA, sB,
             (ListModel.run_shared (Z.to_nat 3) int_shared_calls ([], [], 0)).2.2)).
Proof.
  split; [simpl; lia|]. split; [vm_compute; split; congruence|]. split; [simpl; lia|].
  apply (stacks_share_pool [] (zeroed_allocator 4096) 3 int_shared_calls 0);
    [simpl; lia | vm_compute; split; congruence | simpl; lia].
Defined.

(** What the calls return: the fourth push finds the three nodes taken by
    the two stacks, and each stack pops its own values. *)
Example int_shared_run :
  fst <$> StackInv.run_shared [] (zeroed_allocator 4096) 3 int_shared_calls 0 =
    Some [Pushed true; Pushed true; Pushed true; Pushed false; Popped true 3;
          Pushed true; Popped true 5; Popped true 2; Popped false 2;
          Popped true 1; IsEmpty true].
Proof. reflexivity. Qed.

End IntStackExamples.

Section IntContainerExamples.
Local Existing Instance stack_node_int_repr.
Local Existing Instance queue_node_int_repr.
Local Existing Instance mpsc_node_int_repr.

Lemma pop_on_empty_witness :
  (Container.Empty (AStack int_stack_empty.1 int_stack_empty.2) = Some true ∧
   Container.Pop [true] [] (AStack int_stack_empty.1 int_stack_empty.2) 7
     = Some (false, 7, AStack int_stack_empty.1 int_stack_empty.2)) ∧
  (Container.Empty (AQueue int_queue_empty.1 int_queue_empty.2) = Some true ∧
   Container.Pop [true] [] (AQueue int_queue_empty.1 int_queue_empty.2) 7
     = Some (false, 7, AQueue int_queue_empty.1 int_queue_empty.2)) ∧
  (Container.Empty (AnMPSCQueue int_mpsc_queue_empty.1 int_mpsc_queue_empty.2) = Some true ∧
   Container.Pop [true] [] (AnMPSCQueue int_mpsc_queue_empty.1 int_mpsc_queue_empty.2) 7
     = Some (false, 7, AnMPSCQueue int_mpsc_queue_empty.1 int_mpsc_queue_empty.2)).
Proof.
  split; [|split]; (split; [vm_compute; reflexivity|]).
  - apply (pop_on_empty [true] [] (AStack int_stack_empty.1 int_stack_empty.2) 7).
    vm_compute; reflexivity.
  - apply (pop_on_empty [true] [] (AQueue int_queue_empty.1 int_queue_empty.2) 7).
    vm_compute; reflexivity.
  - apply (pop_on_empty [true] []
             (AnMPSCQueue int_mpsc_queue_empty.1 int_mpsc_queue_empty.2) 7).
    vm_compute; reflexivity.
Defined.

Lemma push_on_exhausted_pool_witness :
  (ContainerPush.pool_Empty (AStack int_stack_exhausted.1 int_stack_exhausted.2) = true ∧
   ContainerPush.Push [true] [] (AStack int_stack_exhausted.1 int_stack_exhausted.2) 7
     = Some (false, AStack int_stack_exhausted.1 int_stack_exhausted.2)) ∧
  (ContainerPush.pool_Empty (AQueue int_queue_exhausted.1 int_queue_exhausted.2) = true ∧
   ContainerPush.Push [true] [] (AQueue int_queue_exhausted.1 int_queue_exhausted.2) 7
     = Some (false, AQueue int_queue_exhausted.1 int_queue_exhausted.2)) ∧
  (ContainerPush.pool_Empty
     (AnMPSCQueue int_mpsc_queue_exhausted.1 int_mpsc_queue_exhausted.2) = true ∧
   ContainerPush.Push [true] []
     (AnMPSCQueue int_mpsc_queue_exhausted.1 int_mpsc_queue_exhausted.2) 7
     = Some (false, AnMPSCQueue int_mpsc_queue_exhausted.1 int_mpsc_queue_exhausted.2)).
Proof.
  split; [|split]; (split; [vm_compute; reflexivity|]).
  - apply (push_on_exhausted_pool [true] []
             (AStack int_stack_exhausted.1 int_stack_exhausted.2) 7).
    vm_compute; reflexivity.
  - apply (push_on_exhausted_pool [true] []
             (AQueue int_queue_exhausted.1 int_queue_exhausted.2) 7).
    vm_compute; reflexivity.
  - apply (push_on_exhausted_pool [true] []
             (AnMPSCQueue int_mpsc_queue_exhausted.1 int_mpsc_queue_exhausted.2) 7).
    vm_compute; reflexivity.
Defined.

End IntContainerExamples.

Section IntQueueExamples.
Local Existing Instance queue_node_int_repr.

Lemma queue_single_thread_test_witness :
  0 < alloc_address (zeroed_allocator (T:=Queue.tLockFreeQueueNode Z) 4096) ∧
  alloc_address (zeroed_allocator (T:=Queue.tLockFreeQueueNode Z) 4096)
    + 4 * sizeof (T:=Queue.tLockFreeQueueNode Z) ≤ 2 ^ 48 ∧
  QueueInv.single_thread_test [] (λ _, [true]) (zeroed_allocator 4096) =
    Some ([true; true; true; false],
          [(true, 42); (true, 666); (true, 1337); (false, 1337)]).
Proof.
  split; [simpl; lia|]. split; [simpl; lia|].
  apply (queue_single_thread_test [] (λ _, [true]) (zeroed_allocator 4096));
    simpl; lia.
Defined.

Lemma queue_refines_bounded_fifo_witness :
  0 < alloc_address (zeroed_allocator (T:=Queue.tLockFreeQueueNode Z) 4096) ∧
  0 ≤ 2 ∧ 2 + 1 ≤ Pool.max_capacity (T:=Queue.tLockFreeQueueNode Z) ∧
  alloc_address (zeroed_allocator (T:=Queue.tLockFreeQueueNode Z) 4096)
    + (2 + 1) * sizeof (T:=Queue.tLockFreeQueueNode Z) ≤ 2 ^ 48 ∧
  ∃ pool q,
    QueueInv.run [] [true] (zeroed_allocator 4096) 2 int_container_ops 0 =
      Some ((ListModel.run ListModel.FIFO (Z.to_nat 2) int_container_ops ([], 0)).1,
            (pool, q,
             (ListModel.run ListModel.FIFO (Z.to_nat 2) int_container_ops ([], 0)).2.2)) ∧
    Queue.mCount q =
      Z.of_nat (length
        (ListModel.run ListModel.FIFO (Z.to_nat 2) int_container_ops ([], 0)).2.1).
Proof.
  split; [simpl; lia|]. split; [lia|]. split; [vm_compute; congruence|].
  split; [simpl; lia|].
  apply (queue_refines_bounded_fifo [] [true] (zeroed_allocator 4096) 2
           int_container_ops 0);
    [simpl; lia | lia | vm_compute; congruence | simpl; lia].
Defined.

(** What the run and the list return: the pops return the values pushed
    first. *)
Example int_queue_run :
  int_queue_after.1 =
    [IsEmpty true; Pushed true; Pushed true; Pushed false; IsEmpty false;
     Popped true 42; Popped true 666; Pushed true] ∧
  ListModel.run ListModel.FIFO 2 int_container_ops ([], 0)
    = (int_queue_after.1, ([1138], 666)).
Proof. split; reflexivity. Qed.

Lemma queue_dtor_returns_nodes_witness :
  0 < alloc_address (zeroed_allocator (T:=Queue.tLockFreeQueueNode Z) 4096) ∧
  0 ≤ 2 ∧ 2 + 1 ≤ Pool.max_capacity (T:=Queue.tLockFreeQueueNode Z) ∧
  alloc_address (zeroed_allocator (T:=Queue.tLockFreeQueueNode Z) 4096)
    + (2 + 1) * sizeof (T:=Queue.tLockFreeQueueNode Z) ≤ 2 ^ 48 ∧
  QueueInv.run [] [] (zeroed_allocator 4096) 2 int_container_ops 0 =
    Some (int_queue_after.1,
          (int_queue_after.2.1.1, int_queue_after.2.1.2, int_queue_after.2.2)) ∧
  (Z.to_nat 2 < 3)%nat ∧
  ∃ pool' q',
    Queue.dtor 3 [[true]] [true] int_queue_after.2.1.1 int_queue_after.2.1.2 0
      = Some (pool', q') ∧
    Queue.mCount q' = 0 ∧ Pool.Full pool' = Some true.
Proof.
  split; [simpl; lia|]. split; [lia|]. split; [vm_compute; congruence|].
  split; [simpl; lia|]. split; [vm_compute; reflexivity|]. split; [simpl; lia|].
  apply (queue_dtor_returns_nodes [] [] (zeroed_allocator 4096) 2 int_container_ops 0
           int_queue_after.2.2 int_queue_after.1
           int_queue_after.2.1.1 int_queue_after.2.1.2 3 [[true]] [true] 0);
    [simpl; lia | lia | vm_compute; congruence | simpl; lia | vm_compute; reflexivity
    | simpl; lia].
Defined.


Lemma queue_stale_front_retry_witness :
  make 4096 1 ≠ Queue.mFront int_queue_after.2.1.2 ∧
  to_bool (make 4112 0) = true ∧
  Queue.Pop_loop [false] [] int_queue_after.2.1.1 int_queue_after.2.1.2
      (make 4096 1) (make 4112 0) 0
    = Queue.Pop [] [] int_queue_after.2.1.1 int_queue_after.2.1.2 0.
Proof.
  assert (make 4096 1 ≠ Queue.mFront int_queue_after.2.1.2) as Hne
    by (vm_compute; congruence).
  split; [exact Hne|]. split; [reflexivity|].
  apply (queue_stale_front_retry false [] [] int_queue_after.2.1.1 int_queue_after.2.1.2
           (make 4096 1) (make 4112 0) 0); [exact Hne | reflexivity].
Defined.

Lemma queue_ctor_exhausted_pool_witness :
  0 < mStorage int_queue_exhausted.1 ∧ Pool.Empty int_queue_exhausted.1 = true ∧
  ∃ q, Queue.ctor [true] int_queue_exhausted.1 = Some (int_queue_exhausted.1, q) ∧
       GetPtr (Queue.mFront q) = 0 ∧ GetPtr (Queue.mBack q) = 0 ∧
       Queue.Push [true] int_queue_exhausted.1 q 7 = Some (false, int_queue_exhausted.1, q) ∧
       Queue.Empty int_queue_exhausted.1 q = None ∧
       Queue.Pop [] [] int_queue_exhausted.1 q 0 = None.
Proof.
  split; [vm_compute; reflexivity|]. split; [vm_compute; reflexivity|].
  apply (queue_ctor_exhausted_pool [true] [] [] int_queue_exhausted.1 7 0);
    vm_compute; reflexivity.
Defined.

End IntQueueExamples.

Section IntMPSCQueueExamples.
Local Existing Instance mpsc_node_int_repr.

Lemma mpsc_queue_refines_bounded_fifo_witness :
  0 < alloc_address (zeroed_allocator (T:=MPSCQueue.tMPSCLockFreeQueueNode Z) 4096) ∧
  0 ≤ 2 ∧ 2 + 1 ≤ Pool.max_capacity (T:=MPSCQueue.tMPSCLockFreeQueueNode Z) ∧
  ∃ pool q,
    MPSCInv.run [] [true] (zeroed_allocator 4096) 2 0 int_container_ops 0 =
      Some ((ListModel.run ListModel.FIFO (Z.to_nat 2) int_container_ops ([], 0)).1,
            (pool, q,
             (ListModel.run ListModel.FIFO (Z.to_nat 2) int_container_ops ([], 0)).2.2)) ∧
    MPSCQueue.mCount q =
      Z.of_nat (length
        (ListModel.run ListModel.FIFO (Z.to_nat 2) int_container_ops ([], 0)).2.1).
Proof.
  split; [simpl; lia|]. split; [lia|]. split; [vm_compute; congruence|].
  apply (mpsc_queue_refines_bounded_fifo [] [true] (zeroed_allocator 4096) 2 0
           int_container_ops 0);
    [simpl; lia | lia | vm_compute; congruence].
Defined.

End IntMPSCQueueExamples.
